(** * Voter Management API: the tabulation and social-choice engine

    A shallow embedding of the FastAPI handlers of [app/routes] and of
    the in-memory stores they share, followed by the properties the
    specification states about them.

    Conventions of the embedding.
    - A Python [int] is a [Z]; a Python [float] is an IEEE 754 binary64
      value ([spec_float] at precision 53 and maximal exponent 1024), with
      its signed zeros, infinities and NaN, and its arithmetic rounds to
      the nearest value, a tie to the even one, as the hardware does.
    - A [datetime] is the integer count of microseconds it denotes (naive
      UTC instants, as produced by [datetime.utcnow()]).
    - A [dict] used only through lookup, assignment and deletion is a
      [gmap]; [in_memory_candidates], whose [.values()] the handlers
      iterate, is an insertion-ordered association list.
    - A handler that raises leaves the stores as they were when the
      exception left the handler: handlers map a [Store] to a [Store]
      and a result [res]. *)

From stdpp Require Import gmap strings list fin_maps pretty.
From stdpp Require Import sorting.
From Stdlib Require Import ZArith Lia SpecFloat.

Local Open Scope Z_scope.

(** ** Python results: a value or a raised exception *)

Inductive exn : Type :=
| HTTPException (status_code : Z) (detail : string)
| KeyError (key : Z)
| ZeroDivisionError
| OverflowError
| ValueError.

Inductive res (A : Type) : Type :=
| Ok (a : A)
| Raise (e : exn).

Arguments Ok {A} a.
Arguments Raise {A} e.

#[export] Instance res_bind : MBind res := fun A B k m =>
  match m with
  | Ok a => k a
  | Raise e => Raise e
  end.

#[export] Instance res_ret : MRet res := fun A a => Ok a.

(** [for x in l: body] over a state threaded through the iterations; an
    exception raised by an iteration ends the loop. *)
Fixpoint for_each {A S : Type} (l : list A) (body : A -> S -> res S) (s : S)
  : res S :=
  match l with
  | [] => Ok s
  | x :: l' => s' ← body x s; for_each l' body s'
  end.

(** [enumerate(l)] *)
Definition enumerate {A : Type} (l : list A) : list (nat * A) :=
  imap (fun i x => (i, x)) l.

(** [max(values, default=d)] *)
Definition py_max (values : list Z) (d : Z) : Z :=
  match values with
  | [] => d
  | v :: vs => fold_left Z.max vs v
  end.

(** [sum(...)] over integers *)
Definition py_sum (values : list Z) : Z := fold_left Z.add values 0.

(** ** Python floats *)

Definition float : Set := spec_float.

(** The format of a C [double]. *)
Definition prec : Z := 53.
Definition emax : Z := 1024.

(** [x * y], [x + y] and the quotient of [x / y] on floats. *)
Definition float_mul : float -> float -> float := SFmul prec emax.
Definition float_add : float -> float -> float := SFadd prec emax.
Definition float_div : float -> float -> float := SFdiv prec emax.

Arguments float_mul : simpl never.
Arguments float_add : simpl never.
Arguments float_div : simpl never.

(** The literals [0.0] and [1.0]. *)
Definition float_zero : float := S754_zero false.
Definition float_one : float := S754_finite false 4503599627370496 (-52).

(** The conversion of an [int] operand of a float operation, as in
    [n * x] and [n + x]: the nearest double, a tie to the even one, and
    [OverflowError] for an [int] beyond the range of the doubles. *)
Definition int_to_float (n : Z) : res float :=
  match binary_normalize prec emax n 0 false with
  | S754_infinity _ => Raise OverflowError
  | x => Ok x
  end.

(** [x > 0] on a float; false on NaN. *)
Definition float_gt_zero (x : float) : bool := SFltb float_zero x.

(** [x / y] on floats: a zero divisor raises. *)
Definition truediv (x y : float) : res float :=
  match y with
  | S754_zero _ => Raise ZeroDivisionError
  | _ => Ok (float_div x y)
  end.

(** The finite float of sign [s], mantissa [m] and exponent [e] is the
    fraction [float_num s m e / float_den e]. *)
Definition float_num (s : bool) (m : positive) (e : Z) : Z :=
  cond_Zopp s (Zpos m * 2 ^ Z.max 0 e).

Definition float_den (e : Z) : Z := 2 ^ Z.max 0 (- e).

(** [int(x)] on a float: truncation toward zero; [OverflowError] on an
    infinity and [ValueError] on NaN. *)
Definition py_int (x : float) : res Z :=
  match x with
  | S754_zero _ => Ok 0
  | S754_finite s m e => Ok (Z.quot (float_num s m e) (float_den e))
  | S754_infinity _ => Raise OverflowError
  | S754_nan => Raise ValueError
  end.

(** The integer nearest to [v / d], a tie going to the even neighbour. *)
Definition round_half_even (v d : Z) : Z :=
  let f := v / d in
  match 2 * (v mod d) ?= d with
  | Lt => f
  | Gt => f + 1
  | Eq => if Z.even f then f else f + 1
  end.

(** [round(x)] on a float: the nearest integer, a tie going to the even
    neighbour; [OverflowError] on an infinity and [ValueError] on NaN. *)
Definition py_round (x : float) : res Z :=
  match x with
  | S754_zero _ => Ok 0
  | S754_finite s m e => Ok (round_half_even (float_num s m e) (float_den e))
  | S754_infinity _ => Raise OverflowError
  | S754_nan => Raise ValueError
  end.

(** ** models.py *)

Record Voter : Type := {
  voter_voter_id : Z;
  voter_name : string;
  voter_email : string;
  voter_age : Z
}.

Record Candidate : Type := {
  candidate_id : Z;
  candidate_name : string;
  candidate_party : option string
}.

(** ** Request and record models of the routes *)

Record VoteRecord : Type := {
  vr_voter_id : Z;
  vr_timestamp : Z;
  vr_weight : Z
}.

Record WeightedVoteRequest : Type := {
  wv_voter_id : Z;
  wv_candidate_id : Z;
  wv_profile_updated : bool
}.

Record EncryptedBallot : Type := {
  eb_voter_id : Z;
  eb_candidate_id : Z;
  eb_ciphertext : string;
  eb_proof : string
}.

Record RankedBallot : Type := {
  rb_voter_id : Z;
  rb_ranking : list Z
}.

Record DPQuery : Type := {
  dp_candidate_id : Z;
  dp_epsilon : float
}.

Record AuditRequest : Type := {
  ar_total_ballots : Z;
  ar_risk_limit : float
}.

(** ** Insertion-ordered dictionary (for [in_memory_candidates]) *)

Fixpoint od_get {V : Type} (d : list (Z * V)) (k : Z) : option V :=
  match d with
  | [] => None
  | (k', v) :: d' => if decide (k' = k) then Some v else od_get d' k
  end.

Definition od_mem {V : Type} (d : list (Z * V)) (k : Z) : bool :=
  bool_decide (is_Some (od_get d k)).

(** [d[k] = v]: an existing key keeps its position, a new key goes last. *)
Fixpoint od_set {V : Type} (d : list (Z * V)) (k : Z) (v : V) : list (Z * V) :=
  match d with
  | [] => [(k, v)]
  | (k', v') :: d' =>
      if decide (k' = k) then (k, v) :: d' else (k', v') :: od_set d' k v
  end.

Definition od_values {V : Type} (d : list (Z * V)) : list V := d.*2.

(** ** The module-level stores *)

Record Store : Type := {
  in_memory_voters : gmap Z Voter;
  in_memory_candidates : list (Z * Candidate);
  candidate_votes : gmap Z Z;
  voter_voted : gmap Z bool;
  vote_timeline : gmap Z (list VoteRecord);
  encrypted_ballots : list EncryptedBallot;
  ranked_ballots : list RankedBallot;
  encrypted_voter_set : gset Z;
  ranked_voter_set : gset Z
}.

Definition empty_store : Store := {|
  in_memory_voters := ∅;
  in_memory_candidates := [];
  candidate_votes := ∅;
  voter_voted := ∅;
  vote_timeline := ∅;
  encrypted_ballots := [];
  ranked_ballots := [];
  encrypted_voter_set := ∅;
  ranked_voter_set := ∅
|}.

Definition set_voters (f : gmap Z Voter -> gmap Z Voter) (st : Store) : Store :=
  {| in_memory_voters := f (in_memory_voters st);
     in_memory_candidates := in_memory_candidates st;
     candidate_votes := candidate_votes st;
     voter_voted := voter_voted st;
     vote_timeline := vote_timeline st;
     encrypted_ballots := encrypted_ballots st;
     ranked_ballots := ranked_ballots st;
     encrypted_voter_set := encrypted_voter_set st;
     ranked_voter_set := ranked_voter_set st |}.

Definition set_candidates (f : list (Z * Candidate) -> list (Z * Candidate))
  (st : Store) : Store :=
  {| in_memory_voters := in_memory_voters st;
     in_memory_candidates := f (in_memory_candidates st);
     candidate_votes := candidate_votes st;
     voter_voted := voter_voted st;
     vote_timeline := vote_timeline st;
     encrypted_ballots := encrypted_ballots st;
     ranked_ballots := ranked_ballots st;
     encrypted_voter_set := encrypted_voter_set st;
     ranked_voter_set := ranked_voter_set st |}.

(** ** voter_routes.py and candidate_routes.py (the registries) *)

(** The loop of [create_voters]: voters stored before a conflicting id is
    met stay stored when the 409 is raised. *)
Fixpoint create_voters (voters : list Voter) (st : Store) : Store * res unit :=
  match voters with
  | [] => (st, Ok tt)
  | voter :: rest =>
      if decide (is_Some (in_memory_voters st !! voter_voter_id voter)) then
        (st, Raise (HTTPException 409
               ("Voter with ID " +:+ pretty (voter_voter_id voter)
                +:+ " already exists.")))
      else
        create_voters rest
          (set_voters (fun m => <[voter_voter_id voter := voter]> m) st)
  end.

Definition update_voter (voter_id : Z) (updated_voter : Voter) (st : Store)
  : Store * res unit :=
  if decide (is_Some (in_memory_voters st !! voter_id)) then
    (set_voters (fun m => <[voter_id := updated_voter]> m) st, Ok tt)
  else (st, Raise (HTTPException 404
              ("Voter with ID " +:+ pretty voter_id +:+ " not found."))).

Definition delete_voter (voter_id : Z) (st : Store) : Store * res unit :=
  if decide (is_Some (in_memory_voters st !! voter_id)) then
    (set_voters (fun m => delete voter_id m) st, Ok tt)
  else (st, Raise (HTTPException 404
              ("Voter with ID " +:+ pretty voter_id +:+ " not found."))).

Fixpoint register_candidates (candidates : list Candidate) (st : Store)
  : Store * res unit :=
  match candidates with
  | [] => (st, Ok tt)
  | candidate :: rest =>
      if od_mem (in_memory_candidates st) (candidate_id candidate) then
        (st, Raise (HTTPException 409
               ("Candidate with ID " +:+ pretty (candidate_id candidate)
                +:+ " already exists.")))
      else
        register_candidates rest
          (set_candidates
             (fun d => od_set d (candidate_id candidate) candidate) st)
  end.

(** ** vote_routes.py *)

(** The three stores a cast writes, in the order of the source:
    [candidate_votes[candidate_id] = candidate_votes.get(candidate_id, 0) + weight],
    [voter_voted[voter_id] = True],
    [vote_timeline.setdefault(candidate_id, []).append(record)]. *)
Definition record_vote (now voter_id cand_id weight : Z) (st : Store) : Store :=
  {| in_memory_voters := in_memory_voters st;
     in_memory_candidates := in_memory_candidates st;
     candidate_votes :=
       <[cand_id := default 0 (candidate_votes st !! cand_id) + weight]>
         (candidate_votes st);
     voter_voted := <[voter_id := true]> (voter_voted st);
     vote_timeline :=
       <[cand_id := default [] (vote_timeline st !! cand_id)
                    ++ [{| vr_voter_id := voter_id; vr_timestamp := now;
                           vr_weight := weight |}]]>
         (vote_timeline st);
     encrypted_ballots := encrypted_ballots st;
     ranked_ballots := ranked_ballots st;
     encrypted_voter_set := encrypted_voter_set st;
     ranked_voter_set := ranked_voter_set st |}.

(** The four precondition checks shared by [cast_vote] and
    [cast_weighted_vote], in the order the source makes them. *)
Definition check_cast (voter_id cand_id : Z) (st : Store) : res unit :=
  match in_memory_voters st !! voter_id with
  | None => Raise (HTTPException 404 "Voter not found.")
  | Some voter =>
      if voter_age voter <? 18 then
        Raise (HTTPException 403 "Voter must be at least 18 years old.")
      else if negb (od_mem (in_memory_candidates st) cand_id) then
        Raise (HTTPException 404 "Candidate not found.")
      else if default false (voter_voted st !! voter_id) then
        Raise (HTTPException 409 "Voter has already cast a vote.")
      else Ok tt
  end.

(** [now] is the reading of [datetime.utcnow()] taken by the call. *)
Definition cast_vote (now voter_id cand_id : Z) (st : Store)
  : Store * res string :=
  match check_cast voter_id cand_id st with
  | Raise e => (st, Raise e)
  | Ok _ =>
      (record_vote now voter_id cand_id 1 st,
       Ok ("Voter " +:+ pretty voter_id +:+ " successfully voted for candidate "
           +:+ pretty cand_id))
  end.

Definition cast_weighted_vote (now : Z) (request : WeightedVoteRequest)
  (st : Store) : Store * res string :=
  let voter_id := wv_voter_id request in
  let cand_id := wv_candidate_id request in
  let profile_updated := wv_profile_updated request in
  match check_cast voter_id cand_id st with
  | Raise e => (st, Raise e)
  | Ok _ =>
      let weight := if profile_updated then 2 else 1 in
      (record_vote now voter_id cand_id weight st,
       Ok ("Voter " +:+ pretty voter_id +:+ " cast a weighted vote ("
           +:+ pretty weight +:+ ") for candidate " +:+ pretty cand_id))
  end.

Record WinnerEntry : Type := {
  we_candidate_id : Z;
  we_name : string;
  we_party : option string;
  we_votes : Z
}.

Record WinnerResult : Type := {
  wr_winners : list WinnerEntry;
  wr_max_votes : Z
}.

Definition votes_of (st : Store) (c : Candidate) : Z :=
  default 0 (candidate_votes st !! candidate_id c).

Definition get_winner (st : Store) : res WinnerResult :=
  if decide (candidate_votes st = ∅) then
    Raise (HTTPException 404 "No votes have been cast yet.")
  else
    let max_votes := py_max (map_to_list (candidate_votes st)).*2 0 in
    let winners :=
      map (fun c => {| we_candidate_id := candidate_id c;
                       we_name := candidate_name c;
                       we_party := candidate_party c;
                       we_votes := votes_of st c |})
          (filter (fun c => votes_of st c = max_votes)
                  (od_values (in_memory_candidates st))) in
    Ok {| wr_winners := winners; wr_max_votes := max_votes |}.

(** An entry of a returned timeline; the ISO-8601 text of the timestamp is
    represented by the instant it renders. *)
Record TimelineEntry : Type := {
  te_voter_id : Z;
  te_timestamp : Z;
  te_weight : Z
}.

Record RangeResult : Type := {
  rr_candidate_id : Z;
  rr_name : string;
  rr_votes_in_range : list TimelineEntry;
  rr_total_weight : Z
}.

Definition get_votes_in_range (cand_id from_time to_time : Z) (st : Store)
  : res RangeResult :=
  match od_get (in_memory_candidates st) cand_id with
  | None => Raise (HTTPException 404 "Candidate not found.")
  | Some candidate =>
      let timeline := default [] (vote_timeline st !! cand_id) in
      let filtered :=
        map (fun r => {| te_voter_id := vr_voter_id r;
                         te_timestamp := vr_timestamp r;
                         te_weight := vr_weight r |})
            (filter (fun r => from_time <= vr_timestamp r
                              /\ vr_timestamp r <= to_time) timeline) in
      Ok {| rr_candidate_id := cand_id;
            rr_name := candidate_name candidate;
            rr_votes_in_range := filtered;
            rr_total_weight := py_sum (map te_weight filtered) |}
  end.

(** ** ballot_routes.py *)

Definition submit_encrypted_ballot (ballot : EncryptedBallot) (st : Store)
  : Store * res nat :=
  if decide (eb_voter_id ballot ∈ encrypted_voter_set st) then
    (st, Raise (HTTPException 409
                  "Voter has already submitted an encrypted ballot."))
  else if decide (eb_ciphertext ballot = "" \/ eb_proof ballot = "") then
    (st, Raise (HTTPException 400 "Invalid encrypted ballot."))
  else
    let st' :=
      {| in_memory_voters := in_memory_voters st;
         in_memory_candidates := in_memory_candidates st;
         candidate_votes := candidate_votes st;
         voter_voted := voter_voted st;
         vote_timeline := vote_timeline st;
         encrypted_ballots := encrypted_ballots st ++ [ballot];
         ranked_ballots := ranked_ballots st;
         encrypted_voter_set := encrypted_voter_set st ∪ {[eb_voter_id ballot]};
         ranked_voter_set := ranked_voter_set st |} in
    (st', Ok (length (encrypted_ballots st'))).

Record DPResult : Type := {
  dpr_candidate_id : Z;
  dpr_true_count : Z;
  dpr_noisy_count : Z;
  dpr_epsilon : float
}.

(** The scale handed to [random.gauss]:
    [1.0 / query.epsilon if query.epsilon > 0 else 1.0]. *)
Definition dp_sigma (epsilon : float) : res float :=
  if float_gt_zero epsilon then truediv float_one epsilon else Ok float_one.

(** [gauss mu sigma] is the float the call [random.gauss(mu, sigma)]
    returns; the handler passes the int 0 for [mu].  [count + noise]
    converts the count and adds in floating point; [round] raises on an
    infinite sum and on NaN. *)
Definition differential_privacy_query (gauss : Z -> float -> float)
  (query : DPQuery) (st : Store) : res DPResult :=
  let count :=
    py_sum (map (fun _ => 1)
              (filter (fun b => eb_candidate_id b = dp_candidate_id query)
                      (encrypted_ballots st))) in
  sigma ← dp_sigma (dp_epsilon query);
  let noise := gauss 0 sigma in
  count_as_float ← int_to_float count;
  rounded ← py_round (float_add count_as_float noise);
  let noisy_count := Z.max 0 rounded in
  Ok {| dpr_candidate_id := dp_candidate_id query;
        dpr_true_count := count;
        dpr_noisy_count := noisy_count;
        dpr_epsilon := dp_epsilon query |}.

Definition submit_ranked_ballot (ballot : RankedBallot) (st : Store)
  : Store * res nat :=
  if decide (rb_voter_id ballot ∈ ranked_voter_set st) then
    (st, Raise (HTTPException 409
                  "Voter has already submitted a ranked ballot."))
  else
    let st' :=
      {| in_memory_voters := in_memory_voters st;
         in_memory_candidates := in_memory_candidates st;
         candidate_votes := candidate_votes st;
         voter_voted := voter_voted st;
         vote_timeline := vote_timeline st;
         encrypted_ballots := encrypted_ballots st;
         ranked_ballots := ranked_ballots st ++ [ballot];
         encrypted_voter_set := encrypted_voter_set st;
         ranked_voter_set := ranked_voter_set st ∪ {[rb_voter_id ballot]} |} in
    (st', Ok (length (ranked_ballots st'))).

(** *** The Schulze resolver *)

(** [d[k]] on a dictionary: a missing key raises [KeyError]. *)
Definition getitem {V : Type} (d : gmap Z V) (k : Z) : res V :=
  match d !! k with
  | Some v => Ok v
  | None => Raise (KeyError k)
  end.

(** [m[c][d]] *)
Definition getitem2 (m : gmap Z (gmap Z Z)) (c d : Z) : res Z :=
  row ← getitem m c; getitem row d.

(** [m[c][d] = v]: the row [m[c]] must exist, the cell need not. *)
Definition setitem2 (m : gmap Z (gmap Z Z)) (c d v : Z)
  : res (gmap Z (gmap Z Z)) :=
  row ← getitem m c; Ok (<[c := <[d := v]> row]> m).

(** [candidates = set(); for ballot in ranked_ballots:
    candidates.update(ballot.ranking)] *)
Definition candidate_set (ballots : list RankedBallot) : gset Z :=
  fold_left (fun (s : gset Z) ballot => s ∪ list_to_set (rb_ranking ballot))
            ballots ∅.

(** [candidates = list(candidates)]: the members of the set, each once, in
    an order the language leaves open.  The resolver below takes the list
    that this statement produces as an argument, and the properties are
    proved for every list it may be. *)
Definition listing (candidates : list Z) (s : gset Z) : Prop :=
  NoDup candidates /\ forall c, c ∈ candidates <-> c ∈ s.

(** [{c: {d: 0 for d in candidates if d != c} for c in candidates}] *)
Definition init_pairwise (candidates : list Z) : gmap Z (gmap Z Z) :=
  list_to_map
    (map (fun c =>
            (c, list_to_map
                  (map (fun d => (d, 0)) (filter (fun d => d ≠ c) candidates))))
         candidates).

(** [for i, ci in enumerate(ranking): for cj in ranking[i+1:]:
    pairwise[ci][cj] += 1] *)
Definition count_ballot (ranking : list Z) (pairwise : gmap Z (gmap Z Z))
  : res (gmap Z (gmap Z Z)) :=
  for_each (enumerate ranking)
    (fun '(i, ci) pw =>
       for_each (drop (S i) ranking)
         (fun cj pw =>
            n ← getitem2 pw ci cj; setitem2 pw ci cj (n + 1))
         pw)
    pairwise.

Definition count_preferences (ballots : list RankedBallot)
  (pairwise : gmap Z (gmap Z Z)) : res (gmap Z (gmap Z Z)) :=
  for_each ballots (fun ballot pw => count_ballot (rb_ranking ballot) pw)
    pairwise.

(** [{c: {d: 0 for d in candidates} for c in candidates}] *)
Definition zero_strength (candidates : list Z) : gmap Z (gmap Z Z) :=
  list_to_map
    (map (fun c => (c, list_to_map (map (fun d => (d, 0)) candidates)))
         candidates).

(** The strict-majority graph:
    [if c != d and pairwise[c][d] > pairwise[d][c]:
        strength[c][d] = pairwise[c][d]]. *)
Definition majority_edges (candidates : list Z) (pairwise : gmap Z (gmap Z Z))
  (strength : gmap Z (gmap Z Z)) : res (gmap Z (gmap Z Z)) :=
  for_each candidates
    (fun c s =>
       for_each candidates
         (fun d s =>
            if decide (c ≠ d) then
              pcd ← getitem2 pairwise c d;
              pdc ← getitem2 pairwise d c;
              if decide (pcd > pdc) then
                v ← getitem2 pairwise c d; setitem2 s c d v
              else Ok s
            else Ok s)
         s)
    strength.

(** One step of the relaxation:
    [strength[j][k] = max(strength[j][k], min(strength[j][i], strength[i][k]))]. *)
Definition relax (i j k : Z) (s : gmap Z (gmap Z Z)) : res (gmap Z (gmap Z Z)) :=
  sjk ← getitem2 s j k;
  sji ← getitem2 s j i;
  sik ← getitem2 s i k;
  setitem2 s j k (Z.max sjk (Z.min sji sik)).

(** The triple-nested pass of the source. *)
Definition relaxation_pass (candidates : list Z) (strength : gmap Z (gmap Z Z))
  : res (gmap Z (gmap Z Z)) :=
  for_each candidates
    (fun i s =>
       for_each candidates
         (fun j s =>
            if decide (i ≠ j) then
              for_each candidates
                (fun k s =>
                   if decide (i ≠ k /\ j ≠ k) then relax i j k s else Ok s)
                s
            else Ok s)
         s)
    strength.

(** [all(strength[c][d] >= strength[d][c] for d in candidates if d != c)];
    [all] stops at the first false comparison. *)
Fixpoint beats_all (strength : gmap Z (gmap Z Z)) (c : Z) (ds : list Z)
  : res bool :=
  match ds with
  | [] => Ok true
  | d :: ds' =>
      if decide (d ≠ c) then
        scd ← getitem2 strength c d;
        sdc ← getitem2 strength d c;
        if decide (scd >= sdc) then beats_all strength c ds' else Ok false
      else beats_all strength c ds'
  end.

Definition select_winners (candidates : list Z) (strength : gmap Z (gmap Z Z))
  : res (list Z) :=
  for_each candidates
    (fun c winners =>
       b ← beats_all strength c candidates;
       Ok (if b : bool then winners ++ [c] else winners))
    [].

(** The strength matrix [schulze_winner] holds when it selects the winners,
    computed from the stored ballots as the source does. *)
Definition schulze_strength (candidates : list Z) (pairwise : gmap Z (gmap Z Z))
  : res (gmap Z (gmap Z Z)) :=
  s0 ← majority_edges candidates pairwise (zero_strength candidates);
  relaxation_pass candidates s0.

Record SchulzeResult : Type := {
  sr_winners : list Z;
  sr_audit_trail : gmap Z (gmap Z Z)
}.

(** [candidates] is the list that [list(candidates)] made of the candidate
    set of the stored ballots. *)
Definition schulze_winner (candidates : list Z) (st : Store)
  : res SchulzeResult :=
  match ranked_ballots st with
  | [] => Raise (HTTPException 404 "No ranked ballots submitted.")
  | _ =>
      pairwise ← count_preferences (ranked_ballots st) (init_pairwise candidates);
      strength ← schulze_strength candidates pairwise;
      winners ← select_winners candidates strength;
      Ok {| sr_winners := winners; sr_audit_trail := pairwise |}
  end.

(** *** The audit planner *)

Record AuditPlan : Type := {
  ap_total_ballots : Z;
  ap_risk_limit : float;
  ap_recommended_sample_size : Z;
  ap_method : string
}.

(** [request.total_ballots * request.risk_limit] converts the count and
    multiplies in floating point; [int] raises on an infinite product and
    on NaN. *)
Definition risk_limiting_audit (request : AuditRequest) (st : Store)
  : Store * res AuditPlan :=
  if decide (ar_total_ballots request <= 0) then
    (st, Raise (HTTPException 400 "Invalid total ballot count."))
  else
    (st,
     total ← int_to_float (ar_total_ballots request);
     truncated ← py_int (float_mul total (ar_risk_limit request));
     let sample_size := truncated + 1 in
     Ok {| ap_total_ballots := ar_total_ballots request;
           ap_risk_limit := ar_risk_limit request;
           ap_recommended_sample_size := sample_size;
           ap_method := "Kaplan–Markov (simulated)" |}).

(** ** The service as a transition system *)

(** The requests that write a store; [now] is the clock reading of a cast. *)
Inductive request : Type :=
| CreateVoters (voters : list Voter)
| UpdateVoter (voter_id : Z) (updated_voter : Voter)
| DeleteVoter (voter_id : Z)
| RegisterCandidates (candidates : list Candidate)
| CastVote (now voter_id cand_id : Z)
| CastWeightedVote (now : Z) (request : WeightedVoteRequest)
| SubmitEncryptedBallot (ballot : EncryptedBallot)
| SubmitRankedBallot (ballot : RankedBallot)
| RiskLimitingAudit (request : AuditRequest).

Definition forget {A : Type} (r : Store * res A) : Store * res unit :=
  (r.1, match r.2 with Ok _ => Ok tt | Raise e => Raise e end).

Definition handle (rq : request) (st : Store) : Store * res unit :=
  match rq with
  | CreateVoters voters => create_voters voters st
  | UpdateVoter voter_id v => update_voter voter_id v st
  | DeleteVoter voter_id => delete_voter voter_id st
  | RegisterCandidates cs => register_candidates cs st
  | CastVote now voter_id cand_id => forget (cast_vote now voter_id cand_id st)
  | CastWeightedVote now request => forget (cast_weighted_vote now request st)
  | SubmitEncryptedBallot ballot => forget (submit_encrypted_ballot ballot st)
  | SubmitRankedBallot ballot => forget (submit_ranked_ballot ballot st)
  | RiskLimitingAudit request => forget (risk_limiting_audit request st)
  end.

(** The stores after a sequence of requests, each served in turn whether it
    is accepted or rejected. *)
Definition run (rqs : list request) (st : Store) : Store :=
  fold_left (fun st rq => (handle rq st).1) rqs st.

Definition reachable (st : Store) : Prop :=
  exists rqs, st = run rqs empty_store.

(** ** Vocabulary of the properties *)

(** *** Outcomes and the plurality stores *)

(** The call raised. *)
Definition failed {A : Type} (r : res A) : Prop := exists e, r = Raise e.

(** The Weighted Vote Records stored for a candidate. *)
Definition timeline_of (st : Store) (cand_id : Z) : list VoteRecord :=
  default [] (vote_timeline st !! cand_id).

(** The total weight recorded for a candidate. *)
Definition recorded_weight (st : Store) (cand_id : Z) : Z :=
  foldr Z.add 0 (map vr_weight (timeline_of st cand_id)).

(** The cached tally, 0 for a candidate without one. *)
Definition tally (st : Store) (cand_id : Z) : Z :=
  default 0 (candidate_votes st !! cand_id).

(** The id is a key of [in_memory_candidates]. *)
Definition registered (st : Store) (cand_id : Z) : Prop :=
  is_Some (od_get (in_memory_candidates st) cand_id).

(** The dictionary a timeline query returns for a record. *)
Definition to_entry (r : VoteRecord) : TimelineEntry :=
  {| te_voter_id := vr_voter_id r; te_timestamp := vr_timestamp r;
     te_weight := vr_weight r |}.

(** The timestamp of the record lies in the closed interval. *)
Definition in_range (from_time to_time : Z) (r : VoteRecord) : Prop :=
  from_time <= vr_timestamp r /\ vr_timestamp r <= to_time.

(** The stored encrypted ballots cast for a candidate. *)
Definition matching_ballots (st : Store) (cand_id : Z) : list EncryptedBallot :=
  filter (fun b => eb_candidate_id b = cand_id) (encrypted_ballots st).

(** What every reachable store satisfies: the tally of a candidate is the
    sum of its recorded weights, tallies exist for registered candidates
    only and are at least 1, and [in_memory_candidates] maps each id to a
    candidate of that id, once. *)
Record store_inv (st : Store) : Prop := {
  inv_tally : forall c, tally st c = recorded_weight st c;
  inv_votes_registered :
    forall c, is_Some (candidate_votes st !! c) -> registered st c;
  inv_votes_positive :
    forall c n, candidate_votes st !! c = Some n -> 1 <= n;
  inv_candidate_keys :
    forall k c, (k, c) ∈ in_memory_candidates st ->
                candidate_id c = k /\ od_get (in_memory_candidates st) k = Some c
}.

(** *** Floats and the results built from them *)

(** Neither an infinity nor NaN. *)
Definition is_finite (x : float) : bool :=
  match x with
  | S754_zero _ | S754_finite _ _ _ => true
  | S754_infinity _ | S754_nan => false
  end.

(** [n] is an integer nearest to the fraction [v / d], the even one of the
    two where [v / d] lies halfway between them. *)
Definition nearest_even (v d n : Z) : Prop :=
  2 * Z.abs (n * d - v) <= d /\
  (2 * Z.abs (n * d - v) = d -> Z.even n = true).

(** The plan [risk_limiting_audit] returns with a given sample size. *)
Definition audit_plan (request : AuditRequest) (sample_size : Z) : AuditPlan :=
  {| ap_total_ballots := ar_total_ballots request;
     ap_risk_limit := ar_risk_limit request;
     ap_recommended_sample_size := sample_size;
     ap_method := "Kaplan–Markov (simulated)" |}.

(** The result [differential_privacy_query] returns for a count and the
    integer its noised sum rounds to. *)
Definition dp_result (query : DPQuery) (count rounded : Z) : DPResult :=
  {| dpr_candidate_id := dp_candidate_id query;
     dpr_true_count := count;
     dpr_noisy_count := Z.max 0 rounded;
     dpr_epsilon := dp_epsilon query |}.

(** *** Ballot kinds and the one-vote rule *)

(** The three kinds of ballot, each with its own one-vote marker. *)
Inductive ballot_kind : Type := Plurality | Ranked | Encrypted.

(** The kind and the voter of a submission. *)
Definition submission_of (rq : request) : option (ballot_kind * Z) :=
  match rq with
  | CastVote _ voter_id _ => Some (Plurality, voter_id)
  | CastWeightedVote _ request => Some (Plurality, wv_voter_id request)
  | SubmitRankedBallot ballot => Some (Ranked, rb_voter_id ballot)
  | SubmitEncryptedBallot ballot => Some (Encrypted, eb_voter_id ballot)
  | _ => None
  end.

(** The 409 a handler raises on the marker of its kind. *)
Definition duplicate_error (k : ballot_kind) : exn :=
  match k with
  | Plurality => HTTPException 409 "Voter has already cast a vote."
  | Ranked => HTTPException 409 "Voter has already submitted a ranked ballot."
  | Encrypted =>
      HTTPException 409 "Voter has already submitted an encrypted ballot."
  end.

(** The marker a kind keeps for a voter. *)
Definition has_voted (k : ballot_kind) (v : Z) (st : Store) : Prop :=
  match k with
  | Plurality => voter_voted st !! v = Some true
  | Ranked => v ∈ ranked_voter_set st
  | Encrypted => v ∈ encrypted_voter_set st
  end.

(** The earlier checks of a cast pass: the voter is stored and adult and the
    candidate is registered. *)
Definition cast_admissible (rq : request) (st : Store) : Prop :=
  match rq with
  | CastVote _ v c =>
      (exists voter, in_memory_voters st !! v = Some voter /\ 18 <= voter_age voter)
      /\ registered st c
  | CastWeightedVote _ request =>
      (exists voter, in_memory_voters st !! wv_voter_id request = Some voter
                     /\ 18 <= voter_age voter)
      /\ registered st (wv_candidate_id request)
  | _ => True
  end.

(** The voter and the candidate a plurality cast names. *)
Definition cast_of (rq : request) : option (Z * Z) :=
  match rq with
  | CastVote _ v c => Some (v, c)
  | CastWeightedVote _ request =>
      Some (wv_voter_id request, wv_candidate_id request)
  | _ => None
  end.

(** *** Matrices, rounds of the pass and paths *)

(** The entry [m[c][d]] of a matrix, 0 where the matrix has no such entry. *)
Definition cell (m : gmap Z (gmap Z Z)) (c d : Z) : Z :=
  match m !! c with
  | Some row => default 0 (row !! d)
  | None => 0
  end.

(** Every row and every entry over the candidates is present. *)
Definition complete (cs : list Z) (m : gmap Z (gmap Z Z)) : Prop :=
  forall c, c ∈ cs ->
    exists row, m !! c = Some row /\ forall d, d ∈ cs -> is_Some (row !! d).

(** The relaxation has nothing left to improve through any intermediate. *)
Definition stable (cs : list Z) (m : gmap Z (gmap Z Z)) : Prop :=
  forall i j k, i ∈ cs -> j ∈ cs -> k ∈ cs -> i <> j -> i <> k -> j <> k ->
    Z.min (cell m j i) (cell m i k) <= cell m j k.

(** The two inner loops of the pass, for one intermediate [i]. *)
Definition relax_round (cs : list Z) (i : Z) (s : gmap Z (gmap Z Z))
  : res (gmap Z (gmap Z Z)) :=
  for_each cs
    (fun j s =>
       if decide (i ≠ j) then
         for_each cs
           (fun k s => if decide (i ≠ k /\ j ≠ k) then relax i j k s else Ok s) s
       else Ok s)
    s.

(** What a round through [i] makes of a matrix [s]: off the diagonal and
    away from row and column [i], every entry takes the better of itself
    and the path through [i]. *)
Definition round_of (cs : list Z) (i : Z) (s s' : gmap Z (gmap Z Z)) : Prop :=
  forall a b,
    (a ∈ cs -> b ∈ cs -> a <> i -> b <> i -> a <> b ->
     cell s' a b = Z.max (cell s a b) (Z.min (cell s a i) (cell s i b))) /\
    (~ (a ∈ cs /\ b ∈ cs /\ a <> i /\ b <> i /\ a <> b) ->
     cell s' a b = cell s a b).

(** The entries the two loops have written when the rows [rows] are done
    and, of row [j], the columns [cols]. *)
Definition round_written (cs : list Z) (i : Z) (rows : list Z) (j : Z)
  (cols : list Z) (a b : Z) : Prop :=
  (a ∈ rows /\ b ∈ cs \/ a = j /\ b ∈ cols) /\ a <> i /\ b <> i /\ a <> b.

(** The state of the matrix inside a round that started from [s0]. *)
Definition round_inv (cs : list Z) (i : Z) (s0 : gmap Z (gmap Z Z))
  (rows : list Z) (j : Z) (cols : list Z) (s : gmap Z (gmap Z Z)) : Prop :=
  complete cs s /\
  forall a b,
    (round_written cs i rows j cols a b ->
     cell s a b = Z.max (cell s0 a b) (Z.min (cell s0 a i) (cell s0 i b))) /\
    (~ round_written cs i rows j cols a b -> cell s a b = cell s0 a b).

(** Intermediates already dealt with: nothing improves through them. *)
Definition stable_through (cs done : list Z) (m : gmap Z (gmap Z Z)) : Prop :=
  forall i j k, i ∈ done -> j ∈ cs -> k ∈ cs -> i <> j -> i <> k -> j <> k ->
    Z.min (cell m j i) (cell m i k) <= cell m j k.

(** The strength of the path that leaves [j] and visits the candidates of
    [p] in turn: the weakest of its links in the graph [g]. *)
Fixpoint path_strength (g : gmap Z (gmap Z Z)) (j : Z) (p : list Z) : Z :=
  match p with
  | [] => 0
  | a :: p' =>
      match p' with
      | [] => cell g j a
      | _ :: _ => Z.min (cell g j a) (path_strength g a p')
      end
  end.

(** [p] is a path over the candidates that ends in [k]. *)
Definition path_to (cs : list Z) (k : Z) (p : list Z) : Prop :=
  last p = Some k /\ forall x, x ∈ p -> x ∈ cs.

(** Every entry between distinct candidates is the strength of some path. *)
Definition attained (cs : list Z) (g s : gmap Z (gmap Z Z)) : Prop :=
  forall j k, j ∈ cs -> k ∈ cs -> j <> k ->
    exists p, path_to cs k p /\ path_strength g j p = cell s j k.

(** [s] holds, for every ordered pair of distinct candidates, the strength
    of the strongest path of [g] between them. *)
Definition strongest_paths (cs : list Z) (g s : gmap Z (gmap Z Z)) : Prop :=
  forall j k, j ∈ cs -> k ∈ cs -> j <> k ->
    (forall p, path_to cs k p -> path_strength g j p <= cell s j k) /\
    (exists p, path_to cs k p /\ path_strength g j p = cell s j k).

(** *** The pairwise count, the majority graph and the winners *)

(** [pairwise[ci][cj] += 1] *)
Definition increment (ci cj : Z) (pw : gmap Z (gmap Z Z))
  : res (gmap Z (gmap Z Z)) :=
  n ← getitem2 pw ci cj; setitem2 pw ci cj (n + 1).

(** The counting loops of one ballot, by recursion on the ranking: each
    candidate against those ranked after it. *)
Fixpoint count_tail (ranking : list Z) (pw : gmap Z (gmap Z Z))
  : res (gmap Z (gmap Z Z)) :=
  match ranking with
  | [] => Ok pw
  | ci :: rest =>
      pw' ← for_each rest (fun cj pw => increment ci cj pw) pw;
      count_tail rest pw'
  end.

(** The shape of the pairwise matrix: a row per candidate, holding every
    other candidate and not the candidate itself. *)
Definition pairwise_shape (cs : list Z) (pw : gmap Z (gmap Z Z)) : Prop :=
  forall c, c ∈ cs ->
    exists row, pw !! c = Some row /\ row !! c = None /\
                forall d, d ∈ cs -> d <> c -> is_Some (row !! d).

(** No candidate occurs twice in the ranking. *)
Definition strict_order (ballot : RankedBallot) : Prop :=
  NoDup (rb_ranking ballot).

#[export] Instance strict_order_dec ballot : Decision (strict_order ballot).
Proof. unfold strict_order. apply _. Defined.

(** The weight the strict-majority graph gives the pair [(a, b)]. *)
Definition majority_target (pw : gmap Z (gmap Z Z)) (a b : Z) : Z :=
  if decide (a <> b /\ cell pw a b > cell pw b a) then cell pw a b else 0.

(** The strict-majority graph of a pairwise matrix: an edge from [c] to [d]
    of weight [pairwise[c][d]] where that beats [pairwise[d][c]], and 0
    elsewhere. *)
Definition majority_graph (cs : list Z) (pw g : gmap Z (gmap Z Z)) : Prop :=
  forall c d, c ∈ cs -> d ∈ cs ->
    cell g c d =
      if decide (c <> d /\ cell pw c d > cell pw d c) then cell pw c d else 0.

(** The entries the two loops have visited when the rows [rows] are done
    and, of row [c], the columns [cols]. *)
Definition edge_written (cs rows : list Z) (c : Z) (cols : list Z) (a b : Z)
  : Prop :=
  a ∈ rows /\ b ∈ cs \/ a = c /\ b ∈ cols.

(** The state of the strength matrix inside the loops that enter the edges. *)
Definition edge_inv (cs : list Z) (pw : gmap Z (gmap Z Z)) (rows : list Z)
  (c : Z) (cols : list Z) (s : gmap Z (gmap Z Z)) : Prop :=
  complete cs s /\
  forall a b,
    (edge_written cs rows c cols a b -> cell s a b = majority_target pw a b) /\
    (~ edge_written cs rows c cols a b -> cell s a b = 0).

(** [c] is not beaten: no other candidate has the stronger path. *)
Definition unbeaten (cs : list Z) (s : gmap Z (gmap Z Z)) (c : Z) : Prop :=
  forall d, d ∈ cs -> d <> c -> cell s c d >= cell s d c.

(** The candidate universe of the stored ballots. *)
Definition universe (st : Store) : gset Z := candidate_set (ranked_ballots st).

(** The pairwise count of the stored ballots. *)
Definition pairwise_of (cs : list Z) (st : Store) : res (gmap Z (gmap Z Z)) :=
  count_preferences (ranked_ballots st) (init_pairwise cs).

(** *** Statements that the code does not meet *)

(** [math.floor] of a float. *)
Definition float_floor (x : float) : res Z :=
  match x with
  | S754_zero _ => Ok 0
  | S754_finite s m e => Ok (float_num s m e / float_den e)
  | S754_infinity _ => Raise OverflowError
  | S754_nan => Raise ValueError
  end.

(** The product [total_ballots * risk_limit] of a request. *)
Definition scaled_risk (request : AuditRequest) : res float :=
  total ← int_to_float (ar_total_ballots request);
  Ok (float_mul total (ar_risk_limit request)).

(** The audit planner as the specification words it: a plan for every
    risk limit, with the [floor] of the product. *)
Definition audit_plan_by_floor : Prop :=
  forall (request : AuditRequest) (st : Store),
    0 < ar_total_ballots request ->
    exists plan product n,
      (risk_limiting_audit request st).2 = Ok plan /\
      scaled_risk request = Ok product /\
      float_floor product = Ok n /\
      ap_recommended_sample_size plan = n + 1.

(** What [random.gauss(mu, sigma)] returns in CPython for the standard
    normal deviate [z] it draws, a finite float: [mu + z * sigma]. *)
Definition cpython_gauss (z : float) (mu : Z) (sigma : float) : float :=
  float_add (binary_normalize prec emax mu 0 false) (float_mul z sigma).

(** The noised counter as the specification words it: for every epsilon
    and every draw a result, with the count of the matching ballots and a
    noisy count that is not negative. *)
Definition noised_count_for_every_draw : Prop :=
  forall (z : float) (query : DPQuery) (st : Store),
    is_finite z = true ->
    exists r,
      differential_privacy_query (cpython_gauss z) query st = Ok r /\
      dpr_true_count r =
        Z.of_nat (length (matching_ballots st (dp_candidate_id query))) /\
      0 <= dpr_noisy_count r.

(** The noised counter never failing, for any candidate id and any
    epsilon. *)
Definition noised_counter_never_fails : Prop :=
  forall (z : float) (query : DPQuery) (st : Store),
    is_finite z = true ->
    ~ failed (differential_privacy_query (cpython_gauss z) query st).

(** The one-vote rule as the specification words it: whatever else a second
    submission carries, it is refused as a duplicate. *)
Definition second_submission_is_duplicate : Prop :=
  forall (st : Store) (rq1 rq2 : request) (rqs : list request)
         (k : ballot_kind) (v : Z),
    reachable st ->
    submission_of rq1 = Some (k, v) ->
    submission_of rq2 = Some (k, v) ->
    (handle rq1 st).2 = Ok tt ->
    (handle rq2 (run rqs (handle rq1 st).1)).2 = Raise (duplicate_error k).

(** *** Example requests and stores *)

(** A voter, a candidate and a weight-2 cast, for the examples. *)
Definition voter (id age : Z) : Voter :=
  {| voter_voter_id := id; voter_name := "v"; voter_email := "v@example.org";
     voter_age := age |}.

Definition cand (id : Z) (name : string) : Candidate :=
  {| candidate_id := id; candidate_name := name; candidate_party := None |}.

Definition weighted (now v c : Z) : request :=
  CastWeightedVote now
    {| wv_voter_id := v; wv_candidate_id := c; wv_profile_updated := true |}.

(** The submission of a ranked ballot. *)
Definition ranked (voter_id : Z) (ranking : list Z) : request :=
  SubmitRankedBallot {| rb_voter_id := voter_id; rb_ranking := ranking |}.

(** A well-formed encrypted ballot of voter [v] for candidate [c]. *)
Definition eb (v c : Z) : EncryptedBallot :=
  {| eb_voter_id := v; eb_candidate_id := c;
     eb_ciphertext := "ct"; eb_proof := "zk" |}.

(** The floats of the examples, with the literal that denotes each:
    [0.1] is [0x1.999999999999ap-4], [0.7] is [0x1.6666666666666p-1],
    [1e308] is [0x1.1ccf385ebc8a0p+1023], [1e-320] is the subnormal
    [2024 * 2**-1074], and [0.49999999999999994] is the double just below
    one half. *)
Definition float_0_1 : float := S754_finite false 7205759403792794 (-56).
Definition float_0_7 : float := S754_finite false 6305039478318694 (-53).
Definition float_0_5 : float := S754_finite false 4503599627370496 (-53).
Definition float_minus_0_5 : float := S754_finite true 4503599627370496 (-53).
Definition float_minus_3 : float := S754_finite true 6755399441055744 (-51).
Definition float_1e308 : float := S754_finite false 5010420900022432 971.
Definition float_1e_320 : float := S754_finite false 2024 (-1074).
Definition float_below_half : float :=
  S754_finite false 9007199254740991 (-54).

(** The double [x], positive, lies within half a unit in its last place of
    the decimal [n * 10**k]: it is the double the literal denotes. *)
Definition literal (n k : Z) (x : float) : Prop :=
  match x with
  | S754_finite false m e =>
      valid_binary prec emax x = true /\
      2 * Z.abs (Zpos m * 2 ^ Z.max 0 e * 10 ^ Z.max 0 (- k)
                 - n * 10 ^ Z.max 0 k * 2 ^ Z.max 0 (- e))
        <= 2 ^ Z.max 0 e * 10 ^ Z.max 0 (- k)
  | _ => False
  end.

(** A draw of [-3.0], and one of [0.49999999999999994], whatever the
    scale. *)
Definition gauss_low (mu : Z) (sigma : float) : float := float_minus_3.
Definition gauss_below_half (mu : Z) (sigma : float) : float :=
  float_below_half.

(** A query for a candidate at an epsilon. *)
Definition dp_query (cand_id : Z) (epsilon : float) : DPQuery :=
  {| dp_candidate_id := cand_id; dp_epsilon := epsilon |}.

(** The audit requests of the examples. *)
Definition audit_request (total : Z) (risk : float) : AuditRequest :=
  {| ar_total_ballots := total; ar_risk_limit := risk |}.

Definition audit_1000 : AuditRequest := audit_request 1000 float_0_1.
Definition audit_0 : AuditRequest := audit_request 0 float_0_1.
Definition audit_negative_risk : AuditRequest :=
  audit_request 1 float_minus_0_5.

(** Two encrypted ballots for candidate 7 and one for candidate 8. *)
Definition encrypted_store : Store :=
  run [SubmitEncryptedBallot (eb 1 7); SubmitEncryptedBallot (eb 2 7);
       SubmitEncryptedBallot (eb 3 8)] empty_store.

(** Candidates 1, 2 and 3 with totals 10, 10 and 5. *)
Definition tie_store : Store :=
  run ([RegisterCandidates [cand 1 "A"; cand 2 "B"; cand 3 "C"];
        CreateVoters
          (map (fun i => voter i 30) [1; 2; 3; 4; 5; 6; 7; 8; 9; 10; 11; 12; 13])]
       ++ map (fun i => weighted i i 1) [1; 2; 3; 4; 5]
       ++ map (fun i => weighted i i 2) [6; 7; 8; 9; 10]
       ++ [weighted 11 11 3; weighted 12 12 3; CastVote 13 13 3])
      empty_store.

(** A timeline of candidate 1 with events at 10, 20 and 30. *)
Definition range_store : Store :=
  run [RegisterCandidates [cand 1 "A"];
       CreateVoters [voter 1 30; voter 2 40; voter 3 50];
       CastVote 10 1 1; weighted 20 2 1; CastVote 30 3 1] empty_store.

(** One registered candidate and one stored adult voter. *)
Definition one_voter_store : Store :=
  run [RegisterCandidates [cand 1 "A"]; CreateVoters [voter 1 30]] empty_store.

(** The cyclic election; candidates A, B, C are 1, 2, 3. *)
Definition cycle_store : Store :=
  run [ranked 1 [1; 2; 3]; ranked 2 [2; 3; 1]; ranked 3 [3; 1; 2]] empty_store.

(** Candidate 1 first on every ballot. *)
Definition landslide_store : Store :=
  run [ranked 1 [1; 2; 3]; ranked 2 [1; 3; 2]; ranked 3 [1; 2; 3]] empty_store.

(** A ranking that names candidate 1 twice. *)
Definition repeated_store : Store := run [ranked 1 [1; 1]] empty_store.

(** An empty ranking. *)
Definition blank_store : Store := run [ranked 1 []] empty_store.

(** ** The read-only handlers *)

(** *** voter_routes.py and candidate_routes.py *)

(** [voter = in_memory_voters.get(voter_id)], and the 404 [if not voter]:
    a stored [Voter] is a model object and as such truthy, so the 404 is
    raised just when the id is missing. *)
Definition get_voter_by_id (voter_id : Z) (st : Store) : res Voter :=
  match in_memory_voters st !! voter_id with
  | None =>
      Raise (HTTPException 404
               ("Voter with ID " +:+ pretty voter_id +:+ " not found."))
  | Some voter => Ok voter
  end.

(** [list(in_memory_candidates.values())] *)
Definition list_candidates (st : Store) : list Candidate :=
  od_values (in_memory_candidates st).

(** *** vote_routes.py *)

Record CandidateVotes : Type := {
  cv_candidate_id : Z;
  cv_name : string;
  cv_votes : Z
}.

Definition get_candidate_votes (cand_id : Z) (st : Store) : res CandidateVotes :=
  match od_get (in_memory_candidates st) cand_id with
  | None => Raise (HTTPException 404 "Candidate not found.")
  | Some candidate =>
      Ok {| cv_candidate_id := cand_id;
            cv_name := candidate_name candidate;
            cv_votes := default 0 (candidate_votes st !! cand_id) |}
  end.

(** What [filter_candidates_by_party] ends with: besides the result and the
    404, the [AttributeError] of [candidate.party.lower()] on a candidate
    whose party is [None]. *)
Inductive party_outcome : Type :=
| PartyFound (candidates : list Candidate)
| PartyHTTPException (status_code : Z) (detail : string)
| PartyAttributeError.

(** The list comprehension
    [[candidate for candidate in in_memory_candidates.values()
      if candidate.party.lower() == party_name.lower()]], [None] where
    [.lower()] is called on a missing party.  [lower] is [str.lower]. *)
Fixpoint party_matches (lower : string -> string) (party_name : string)
  (candidates : list Candidate) : option (list Candidate) :=
  match candidates with
  | [] => Some []
  | candidate :: rest =>
      match candidate_party candidate with
      | None => None
      | Some party =>
          let keep := bool_decide (lower party = lower party_name) in
          match party_matches lower party_name rest with
          | None => None
          | Some filtered =>
              Some (if keep then candidate :: filtered else filtered)
          end
      end
  end.

Definition filter_candidates_by_party (lower : string -> string)
  (party_name : string) (st : Store) : party_outcome :=
  match party_matches lower party_name (od_values (in_memory_candidates st)) with
  | None => PartyAttributeError
  | Some [] => PartyHTTPException 404 "No candidates found for this party."
  | Some filtered => PartyFound filtered
  end.

(** [sorted(l, key=key, reverse=True)]: the stable sort by decreasing key,
    items of equal key keeping the order they had.  A stable sort has one
    result; insertion from the right computes it. *)
Fixpoint insert_desc {A : Type} (key : A -> Z) (x : A) (l : list A) : list A :=
  match l with
  | [] => [x]
  | y :: l' =>
      if decide (key x >= key y) then x :: y :: l'
      else y :: insert_desc key x l'
  end.

Definition sorted_desc {A : Type} (key : A -> Z) (l : list A) : list A :=
  foldr (insert_desc key) [] l.

(** The leaderboard; its entries are the dictionaries [get_winner] builds. *)
Definition voting_results (st : Store) : list WinnerEntry :=
  sorted_desc we_votes
    (map (fun c => {| we_candidate_id := candidate_id c;
                      we_name := candidate_name c;
                      we_party := candidate_party c;
                      we_votes := votes_of st c |})
         (od_values (in_memory_candidates st))).

Record TimelineResult : Type := {
  tr_candidate_id : Z;
  tr_name : string;
  tr_timeline : list TimelineEntry
}.

Definition get_vote_timeline (cand_id : Z) (st : Store) : res TimelineResult :=
  match od_get (in_memory_candidates st) cand_id with
  | None => Raise (HTTPException 404 "Candidate not found.")
  | Some candidate =>
      let timeline := default [] (vote_timeline st !! cand_id) in
      Ok {| tr_candidate_id := cand_id;
            tr_name := candidate_name candidate;
            tr_timeline :=
              map (fun r => {| te_voter_id := vr_voter_id r;
                               te_timestamp := vr_timestamp r;
                               te_weight := vr_weight r |}) timeline |}
  end.

(** *** ballot_routes.py *)

Record HomomorphicResult : Type := {
  hr_tally : gmap Z Z;
  hr_proof : string;
  hr_total_ballots : nat
}.

(** [for ballot in encrypted_ballots:
       tally[ballot.candidate_id] = tally.get(ballot.candidate_id, 0) + 1] *)
Definition count_ballots (ballots : list EncryptedBallot) (tally : gmap Z Z)
  : gmap Z Z :=
  fold_left
    (fun (tally : gmap Z Z) ballot =>
       <[eb_candidate_id ballot :=
           default 0 (tally !! eb_candidate_id ballot) + 1]> tally)
    ballots tally.

Definition homomorphic_tally (st : Store) : res HomomorphicResult :=
  match encrypted_ballots st with
  | [] => Raise (HTTPException 404 "No encrypted ballots found.")
  | _ =>
      Ok {| hr_tally := count_ballots (encrypted_ballots st) ∅;
            hr_proof := "simulated-homomorphic-proof";
            hr_total_ballots := length (encrypted_ballots st) |}
  end.

(** ** Vocabulary of the further properties *)

(** The sum of the counts of a tally. *)
Definition tally_total (tally : gmap Z Z) : Z :=
  foldr Z.add 0 (map_to_list tally).*2.

(** What the ballot stores satisfy in every reachable state: the voter set
    of a kind is the set of the voters of its stored ballots, no voter has
    two ballots of the kind, and a stored encrypted ballot has a ciphertext
    and a proof. *)
Record ballot_inv (st : Store) : Prop := {
  binv_encrypted_set :
    encrypted_voter_set st = list_to_set (map eb_voter_id (encrypted_ballots st));
  binv_encrypted_once : NoDup (map eb_voter_id (encrypted_ballots st));
  binv_encrypted_filled :
    forall b, b ∈ encrypted_ballots st ->
              eb_ciphertext b <> "" /\ eb_proof b <> "";
  binv_ranked_set :
    ranked_voter_set st = list_to_set (map rb_voter_id (ranked_ballots st));
  binv_ranked_once : NoDup (map rb_voter_id (ranked_ballots st))
}.

(** What the plurality stores satisfy in every reachable state, besides
    [store_inv]: the marker of a voter is never [False], a record weighs 1
    or 2, the voters with a record are the marked ones, and a voter has one
    record at most, in one timeline. *)
Record vote_inv (st : Store) : Prop := {
  vinv_true : forall v b, voter_voted st !! v = Some b -> b = true;
  vinv_weight :
    forall c r, r ∈ timeline_of st c -> vr_weight r = 1 \/ vr_weight r = 2;
  vinv_marked :
    forall c r, r ∈ timeline_of st c ->
                voter_voted st !! vr_voter_id r = Some true;
  vinv_recorded :
    forall v, voter_voted st !! v = Some true ->
              exists c r, r ∈ timeline_of st c /\ vr_voter_id r = v;
  vinv_once : forall c, NoDup (map vr_voter_id (timeline_of st c));
  vinv_one_candidate :
    forall c c' r r', r ∈ timeline_of st c -> r' ∈ timeline_of st c' ->
                      vr_voter_id r = vr_voter_id r' -> c = c'
}.

(** The dictionary the leaderboard and [get_winner] build for a candidate. *)
Definition entry_of (st : Store) (c : Candidate) : WinnerEntry :=
  {| we_candidate_id := candidate_id c; we_name := candidate_name c;
     we_party := candidate_party c; we_votes := votes_of st c |}.

(** The candidate has a party and it is [party_name] up to case. *)
Definition party_is (lower : string -> string) (party_name : string)
  (c : Candidate) : Prop :=
  match candidate_party c with
  | Some party => lower party = lower party_name
  | None => False
  end.

#[export] Instance party_is_dec lower party_name c :
  Decision (party_is lower party_name c).
Proof. unfold party_is. destruct (candidate_party c); apply _. Defined.

(** The entries [register_candidates] adds for a list of candidates. *)
Definition keyed (candidates : list Candidate) : list (Z * Candidate) :=
  map (fun c => (candidate_id c, c)) candidates.

(** A candidate without a party, for the examples. *)
Definition independent (id : Z) : Candidate :=
  {| candidate_id := id; candidate_name := "I"; candidate_party := None |}.

(** A candidate of a party, for the examples. *)
Definition partisan (id : Z) (party : string) : Candidate :=
  {| candidate_id := id; candidate_name := "P"; candidate_party := Some party |}.

(** The entries [create_voters] stores for a list of voters. *)
Definition enrolled (voters : list Voter) : gmap Z Voter :=
  list_to_map (map (fun v => (voter_voter_id v, v)) voters).

(** [c] stands before [d] in a ranking. *)
Fixpoint before (c d : Z) (ranking : list Z) : bool :=
  match ranking with
  | [] => false
  | x :: rest =>
      bool_decide (x = c) && bool_decide (d ∈ rest) || before c d rest
  end.

(** The ballot ranks both candidates, [c] above [d]. *)
Definition ranks_above (c d : Z) (ballot : RankedBallot) : Prop :=
  before c d (rb_ranking ballot) = true.

#[export] Instance ranks_above_dec c d ballot : Decision (ranks_above c d ballot).
Proof. unfold ranks_above. apply _. Defined.

(** The stored ballots that rank [c] above [d]. *)
Definition preferring (st : Store) (c d : Z) : list RankedBallot :=
  filter (ranks_above c d) (ranked_ballots st).

(** [c] is ranked above every other candidate by more ballots than rank
    that candidate above [c]. *)
Definition condorcet_winner (cs : list Z) (st : Store) (c : Z) : Prop :=
  c ∈ cs /\
  forall d, d ∈ cs -> d <> c ->
    (length (preferring st d c) < length (preferring st c d))%nat.

(** The keys of the pairwise matrix: a row for each candidate and no
    other, holding every other candidate and nothing else. *)
Definition pairwise_keys (cs : list Z) (pw : gmap Z (gmap Z Z)) : Prop :=
  forall c,
    match pw !! c with
    | Some row => c ∈ cs /\ forall d, is_Some (row !! d) <-> d ∈ cs /\ d <> c
    | None => c ∉ cs
    end.

(** The strength of [c] over [d] exceeds that of [d] over [c]. *)
Definition beats (s : gmap Z (gmap Z Z)) (c d : Z) : Prop :=
  cell s c d > cell s d c.

(** Five ballots, most of which rank candidate 1 above 2 and above 3. *)
Definition majority_store : Store :=
  run [ranked 1 [1; 2; 3]; ranked 2 [1; 3; 2]; ranked 3 [2; 1; 3];
       ranked 4 [3; 2; 1]; ranked 5 [1; 2]] empty_store.

(** The number of voters with an entry in [voter_voted]. *)
Definition turnout (st : Store) : Z := Z.of_nat (size (voter_voted st)).

(** The votes of all candidates together lie between the turnout and twice
    the turnout. *)
Definition turnout_inv (st : Store) : Prop :=
  turnout st <= tally_total (candidate_votes st) <= 2 * turnout st.

(** * Properties *)

(** ** Arithmetic of the Python primitives *)

Lemma py_sum_from (l : list Z) (a : Z) :
  fold_left Z.add l a = a + foldr Z.add 0 l.
Proof.
  revert a. induction l as [|x l IH]; intros a; simpl; [lia|].
  rewrite IH. lia.
Qed.

Lemma py_sum_foldr (l : list Z) : py_sum l = foldr Z.add 0 l.
Proof. unfold py_sum. rewrite py_sum_from. lia. Qed.

Lemma py_sum_ones {A : Type} (l : list A) :
  py_sum (map (fun _ => 1) l) = Z.of_nat (length l).
Proof.
  rewrite py_sum_foldr. induction l as [|x l IH]; simpl; [reflexivity|].
  rewrite IH. lia.
Qed.

(** ** The floats of the examples *)

Lemma example_literals :
  literal 1 0 float_one /\ literal 1 (-1) float_0_1 /\
  literal 7 (-1) float_0_7 /\ literal 5 (-1) float_0_5 /\
  literal 5 (-1) (SFopp float_minus_0_5) /\ literal 3 0 (SFopp float_minus_3) /\
  literal 1 308 float_1e308 /\ literal 1 (-320) float_1e_320 /\
  literal 49999999999999994 (-17) float_below_half.
Proof.
  repeat split; try (vm_compute; reflexivity);
    apply Z.leb_le; vm_compute; reflexivity.
Qed.

(** ** Truncation and rounding of a float *)

Lemma float_den_pos (e : Z) : 0 < float_den e.
Proof. unfold float_den. apply Z.pow_pos_nonneg; lia. Qed.

Lemma float_num_nonneg (m : positive) (e : Z) : 0 <= float_num false m e.
Proof.
  unfold float_num, cond_Zopp. apply Z.mul_nonneg_nonneg; [lia|].
  apply Z.pow_nonneg. lia.
Qed.

(** On a float that is not negative, truncation and floor agree. *)
Lemma py_int_floor (m : positive) (e : Z) :
  py_int (S754_finite false m e) = float_floor (S754_finite false m e).
Proof.
  unfold py_int, float_floor. f_equal.
  apply Z.quot_div_nonneg; [apply float_num_nonneg | apply float_den_pos].
Qed.

(** [round_half_even] is rounding to the nearest integer, a tie to the
    even one. *)
Lemma round_half_even_nearest (v d : Z) :
  0 < d -> nearest_even v d (round_half_even v d).
Proof.
  intros Hd. unfold nearest_even, round_half_even.
  pose proof (Z.div_mod v d ltac:(lia)) as Hv.
  pose proof (Z.mod_pos_bound v d Hd) as Hr.
  set (q := v / d) in *. set (r := v mod d) in *.
  destruct (Z.compare_spec (2 * r) d) as [Heq|Hlt|Hgt].
  - destruct (Z.even q) eqn:Hq.
    + replace (q * d - v) with (- r) by lia. split; [lia|]. intros _. exact Hq.
    + replace ((q + 1) * d - v) with (d - r) by lia. split; [lia|]. intros _.
      rewrite Z.even_add, Hq. reflexivity.
  - replace (q * d - v) with (- r) by lia. split; lia.
  - replace ((q + 1) * d - v) with (d - r) by lia. split; lia.
Qed.

(** The nearest integer, with ties to the even one, is unique. *)
Lemma nearest_even_unique (v d n n' : Z) :
  0 < d -> nearest_even v d n -> nearest_even v d n' -> n = n'.
Proof.
  intros Hd [H1 E1] [H2 E2].
  assert (Z.abs (n - n') <= 1) as Hclose by nia.
  destruct (decide (n = n')) as [|Hne]; [assumption|]. exfalso.
  assert (2 * Z.abs (n * d - v) = d /\ 2 * Z.abs (n' * d - v) = d) as [T1 T2]
    by nia.
  specialize (E1 T1). specialize (E2 T2).
  assert (n' = n + 1 \/ n = n' + 1) as [->| ->] by lia.
  - rewrite Z.even_add, E1 in E2. discriminate.
  - rewrite Z.even_add, E2 in E1. discriminate.
Qed.

(** ** The audit planner *)

Lemma risk_limiting_audit_general (request : AuditRequest) (st : Store) :
  (risk_limiting_audit request st).1 = st /\
  ((risk_limiting_audit request st).2 =
     Raise (HTTPException 400 "Invalid total ballot count.") <->
   ar_total_ballots request <= 0) /\
  (0 < ar_total_ballots request ->
   (forall e, int_to_float (ar_total_ballots request) = Raise e ->
      (risk_limiting_audit request st).2 = Raise OverflowError) /\
   (forall total, int_to_float (ar_total_ballots request) = Ok total ->
      match float_mul total (ar_risk_limit request) with
      | S754_nan => (risk_limiting_audit request st).2 = Raise ValueError
      | S754_infinity _ =>
          (risk_limiting_audit request st).2 = Raise OverflowError
      | S754_zero _ =>
          (risk_limiting_audit request st).2 = Ok (audit_plan request 1)
      | S754_finite s m e =>
          (risk_limiting_audit request st).2 =
            Ok (audit_plan request
                  (Z.quot (float_num s m e) (float_den e) + 1)) /\
          (s = false ->
           Z.quot (float_num s m e) (float_den e) =
             float_num s m e / float_den e)
      end)).
Proof.
  unfold risk_limiting_audit.
  destruct (decide (ar_total_ballots request <= 0)) as [Hle|Hgt];
    cbn [fst snd].
  - split; [reflexivity|]. split; [tauto | lia].
  - split; [reflexivity|]. split; [|intros _; split].
    + split; [|lia]. intros H. exfalso. revert H. unfold int_to_float.
      destruct (binary_normalize _ _ _ _ _); simpl; try discriminate;
        match goal with
        | |- context [float_mul ?a ?b] => destruct (float_mul a b)
        end; simpl; discriminate.
    + intros e He. revert He. unfold int_to_float.
      destruct (binary_normalize _ _ _ _ _); simpl; try discriminate.
      reflexivity.
    + intros total Ht. rewrite Ht. simpl.
      destruct (float_mul total (ar_risk_limit request)) as [s|s| |s m e];
        simpl; try reflexivity.
      split; [reflexivity|]. intros ->.
      apply Z.quot_div_nonneg; [apply float_num_nonneg | apply float_den_pos].
Qed.

(** C8, amended. [risk_limiting_audit] never writes a store and raises the
    invalid-ballot-count error if and only if [total_ballots <= 0].
    Otherwise it converts the count to a float and multiplies in floating
    point.  Where the product is finite it returns [int(product) + 1], [int]
    truncating toward zero, which is [floor(product) + 1] for every product
    that is not negative; where the product is infinite, or the count too
    large for a float, it raises [OverflowError], and where the product is
    NaN it raises [ValueError].  1000 ballots at risk limit 0.1 give 101 and
    0 ballots fail; 10 ballots at 0.7 give 8, the product being the float
    [7.0]; 10 ballots at [1e308] raise [OverflowError]; 1 ballot at [-0.5]
    gives 1. *)
Theorem risk_limiting_audit_plan :
  (forall (request : AuditRequest) (st : Store),
     (risk_limiting_audit request st).1 = st /\
     ((risk_limiting_audit request st).2 =
        Raise (HTTPException 400 "Invalid total ballot count.") <->
      ar_total_ballots request <= 0) /\
     (0 < ar_total_ballots request ->
      (forall e, int_to_float (ar_total_ballots request) = Raise e ->
         (risk_limiting_audit request st).2 = Raise OverflowError) /\
      (forall total, int_to_float (ar_total_ballots request) = Ok total ->
         match float_mul total (ar_risk_limit request) with
         | S754_nan => (risk_limiting_audit request st).2 = Raise ValueError
         | S754_infinity _ =>
             (risk_limiting_audit request st).2 = Raise OverflowError
         | S754_zero _ =>
             (risk_limiting_audit request st).2 = Ok (audit_plan request 1)
         | S754_finite s m e =>
             (risk_limiting_audit request st).2 =
               Ok (audit_plan request
                     (Z.quot (float_num s m e) (float_den e) + 1)) /\
             (s = false ->
              Z.quot (float_num s m e) (float_den e) =
                float_num s m e / float_den e)
         end))) /\
  (risk_limiting_audit audit_1000 empty_store).2 =
    Ok (audit_plan audit_1000 101) /\
  (risk_limiting_audit audit_0 empty_store).2 =
    Raise (HTTPException 400 "Invalid total ballot count.") /\
  (risk_limiting_audit (audit_request 10 float_0_7) empty_store).2 =
    Ok (audit_plan (audit_request 10 float_0_7) 8) /\
  (risk_limiting_audit (audit_request 10 float_1e308) empty_store).2 =
    Raise OverflowError /\
  (risk_limiting_audit audit_negative_risk empty_store).2 =
    Ok (audit_plan audit_negative_risk 1).
Proof.
  split; [exact risk_limiting_audit_general|].
  repeat split; vm_compute; reflexivity.
Qed.

(** 1000 ballots at risk limit 0.1: the product is the float [100.0]. *)
Lemma risk_limiting_audit_plan_witness :
  0 < ar_total_ballots audit_1000 /\
  int_to_float 1000 = Ok (S754_finite false 8796093022208000 (-43)) /\
  float_mul (S754_finite false 8796093022208000 (-43)) float_0_1 =
    S754_finite false 7036874417766400 (-46) /\
  (risk_limiting_audit audit_1000 empty_store).2 =
    Ok (audit_plan audit_1000
          (float_num false 7036874417766400 (-46) / float_den (-46) + 1)).
Proof.
  assert (0 < ar_total_ballots audit_1000) as Hpos by (simpl; lia).
  assert (int_to_float (ar_total_ballots audit_1000) =
            Ok (S754_finite false 8796093022208000 (-43))) as Ht
    by (vm_compute; reflexivity).
  assert (float_mul (S754_finite false 8796093022208000 (-43))
            (ar_risk_limit audit_1000) =
            S754_finite false 7036874417766400 (-46)) as Hp
    by (vm_compute; reflexivity).
  split; [exact Hpos|]. split; [exact Ht|]. split; [exact Hp|].
  destruct risk_limiting_audit_plan as [Hgen _].
  destruct (Hgen audit_1000 empty_store) as (_ & _ & Hok).
  destruct (Hok Hpos) as [_ Hplan]. specialize (Hplan _ Ht).
  rewrite Hp in Hplan. destruct Hplan as [Hplan Hfloor].
  rewrite Hplan, (Hfloor eq_refl). reflexivity.
Defined.

(** One ballot at risk limit -0.5: the product is the float [-0.5], and
    [int(-0.5) + 1] is 1 where the floor would give 0. *)
Lemma audit_plan_by_floor_fails : ~ audit_plan_by_floor.
Proof.
  intros H.
  destruct (H audit_negative_risk empty_store)
    as (plan & product & n & Hplan & Hproduct & Hfloor & Hsize);
    [simpl; lia|].
  vm_compute in Hplan. injection Hplan as <-.
  vm_compute in Hproduct. injection Hproduct as <-.
  vm_compute in Hfloor. injection Hfloor as <-.
  vm_compute in Hsize. discriminate.
Qed.

(** ** The noised counter *)

(** The guard [epsilon > 0] keeps the division from a zero divisor. *)
Lemma dp_sigma_total (epsilon : float) :
  exists sigma, dp_sigma epsilon = Ok sigma /\
    (float_gt_zero epsilon = true -> sigma = float_div float_one epsilon) /\
    (float_gt_zero epsilon = false -> sigma = float_one).
Proof.
  unfold dp_sigma. destruct (float_gt_zero epsilon) eqn:E.
  - destruct epsilon as [s|s| |s m e]; try discriminate E;
      (eexists; split; [reflexivity|]; split; [reflexivity | discriminate]).
  - eexists. split; [reflexivity|]. split; [discriminate | reflexivity].
Qed.

Lemma matching_count (query : DPQuery) (st : Store) :
  py_sum (map (fun _ => 1)
            (filter (fun b => eb_candidate_id b = dp_candidate_id query)
                    (encrypted_ballots st))) =
    Z.of_nat (length (matching_ballots st (dp_candidate_id query))).
Proof. apply py_sum_ones. Qed.

Lemma no_matching_ballots (st : Store) (cand_id : Z) :
  (forall b, b ∈ encrypted_ballots st -> eb_candidate_id b <> cand_id) ->
  matching_ballots st cand_id = [].
Proof.
  unfold matching_ballots. intros Hnone.
  induction (encrypted_ballots st) as [|b l IH]; [reflexivity|].
  rewrite filter_cons. destruct (decide _) as [Heq|_].
  - exfalso. apply (Hnone b); [left | exact Heq].
  - apply IH. intros b' Hb'. apply Hnone. right. exact Hb'.
Qed.

(** The handler from the scale on. *)
Lemma differential_privacy_query_unfold gauss query st sigma :
  dp_sigma (dp_epsilon query) = Ok sigma ->
  differential_privacy_query gauss query st =
    (count_as_float ←
       int_to_float
         (Z.of_nat (length (matching_ballots st (dp_candidate_id query))));
     rounded ← py_round (float_add count_as_float (gauss 0 sigma));
     Ok (dp_result query
           (Z.of_nat (length (matching_ballots st (dp_candidate_id query))))
           rounded)).
Proof.
  intros Hsigma. unfold differential_privacy_query.
  rewrite Hsigma, matching_count. reflexivity.
Qed.

Lemma differential_privacy_query_general
  (gauss : Z -> float -> float) (query : DPQuery) (st : Store) :
  let count :=
    Z.of_nat (length (matching_ballots st (dp_candidate_id query))) in
  exists sigma,
    dp_sigma (dp_epsilon query) = Ok sigma /\
    (float_gt_zero (dp_epsilon query) = true ->
     sigma = float_div float_one (dp_epsilon query)) /\
    (float_gt_zero (dp_epsilon query) = false -> sigma = float_one) /\
    (forall e, int_to_float count = Raise e ->
       differential_privacy_query gauss query st = Raise OverflowError) /\
    (forall c, int_to_float count = Ok c ->
       match float_add c (gauss 0 sigma) with
       | S754_nan =>
           differential_privacy_query gauss query st = Raise ValueError
       | S754_infinity _ =>
           differential_privacy_query gauss query st = Raise OverflowError
       | S754_zero _ =>
           differential_privacy_query gauss query st =
             Ok (dp_result query count 0)
       | S754_finite s m e =>
           exists n,
             nearest_even (float_num s m e) (float_den e) n /\
             differential_privacy_query gauss query st =
               Ok (dp_result query count n)
       end) /\
    (forall r, differential_privacy_query gauss query st = Ok r ->
       dpr_true_count r = count /\ 0 <= dpr_noisy_count r).
Proof.
  intros count.
  destruct (dp_sigma_total (dp_epsilon query)) as (sigma & Hsigma & Hpos & Hneg).
  exists sigma. split; [exact Hsigma|]. split; [exact Hpos|].
  split; [exact Hneg|].
  rewrite (differential_privacy_query_unfold gauss query st sigma Hsigma).
  fold count. split; [|split].
  - intros e He. revert He. unfold int_to_float.
    destruct (binary_normalize _ _ _ _ _); simpl; try discriminate.
    reflexivity.
  - intros c Hc. rewrite Hc. simpl.
    destruct (float_add c (gauss 0 sigma)) as [s|s| |s m e]; simpl;
      try reflexivity.
    eexists. split; [|reflexivity].
    apply round_half_even_nearest, float_den_pos.
  - intros r. destruct (int_to_float count) as [c|e]; simpl; [|discriminate].
    destruct (py_round _) as [n|e]; simpl; [|discriminate].
    intros [= <-]. simpl. split; [reflexivity | apply Z.le_max_l].
Qed.

(** C9, amended. For every candidate id, every epsilon and every drawn
    noise, [differential_privacy_query] counts the stored encrypted ballots
    for the candidate and draws the noise with standard deviation
    [1.0 / epsilon] when [epsilon > 0] and [1.0] otherwise.  It returns
    exactly when the floating-point sum [true_count + noise] is finite, and
    then with that count as [true_count] and with
    [noisy_count = max(0, round(true_count + noise))], which is never
    negative, [round] taking the sum to the nearest integer and a tie to the
    even one.  On an infinite sum it raises [OverflowError] and on NaN
    [ValueError].  With two ballots and a draw of [-3.0] the noisy count is
    0; with one ballot and a draw of [0.49999999999999994] the sum is the
    float [1.5] and the noisy count 2; at [epsilon = 1e-320], where
    [1.0 / epsilon] is infinite, the draw [0 + 1.0 * sigma] ends in
    [OverflowError]. *)
Theorem differential_privacy_query_result :
  (forall (gauss : Z -> float -> float) (query : DPQuery) (st : Store),
     let count :=
       Z.of_nat (length (matching_ballots st (dp_candidate_id query))) in
     exists sigma,
       dp_sigma (dp_epsilon query) = Ok sigma /\
       (float_gt_zero (dp_epsilon query) = true ->
        sigma = float_div float_one (dp_epsilon query)) /\
       (float_gt_zero (dp_epsilon query) = false -> sigma = float_one) /\
       (forall e, int_to_float count = Raise e ->
          differential_privacy_query gauss query st = Raise OverflowError) /\
       (forall c, int_to_float count = Ok c ->
          match float_add c (gauss 0 sigma) with
          | S754_nan =>
              differential_privacy_query gauss query st = Raise ValueError
          | S754_infinity _ =>
              differential_privacy_query gauss query st = Raise OverflowError
          | S754_zero _ =>
              differential_privacy_query gauss query st =
                Ok (dp_result query count 0)
          | S754_finite s m e =>
              exists n,
                nearest_even (float_num s m e) (float_den e) n /\
                differential_privacy_query gauss query st =
                  Ok (dp_result query count n)
          end) /\
       (forall r, differential_privacy_query gauss query st = Ok r ->
          dpr_true_count r = count /\ 0 <= dpr_noisy_count r)) /\
  differential_privacy_query gauss_low (dp_query 7 float_0_5) encrypted_store =
    Ok (dp_result (dp_query 7 float_0_5) 2 (-1)) /\
  differential_privacy_query gauss_below_half (dp_query 8 float_0_5)
    encrypted_store = Ok (dp_result (dp_query 8 float_0_5) 1 2) /\
  differential_privacy_query (cpython_gauss float_one)
    (dp_query 7 float_1e_320) encrypted_store = Raise OverflowError.
Proof.
  split; [exact differential_privacy_query_general|].
  repeat split; vm_compute; reflexivity.
Qed.

(** Two ballots for candidate 7 and a draw of -3: the sum is the float
    [-1.0] and the count is clamped to 0. *)
Lemma differential_privacy_query_result_witness :
  int_to_float 2 = Ok (S754_finite false 4503599627370496 (-51)) /\
  exists r,
    differential_privacy_query gauss_low (dp_query 7 float_0_5)
      encrypted_store = Ok r /\
    dpr_true_count r = 2 /\ dpr_noisy_count r = 0.
Proof.
  assert (int_to_float 2 = Ok (S754_finite false 4503599627370496 (-51)))
    as Hc by (vm_compute; reflexivity).
  split; [exact Hc|].
  destruct differential_privacy_query_result as [Hgen _].
  destruct (Hgen gauss_low (dp_query 7 float_0_5) encrypted_store)
    as (sigma & _ & _ & _ & _ & Hsum & Hok).
  destruct (differential_privacy_query gauss_low (dp_query 7 float_0_5)
              encrypted_store) as [r|e] eqn:Hr;
    [|vm_compute in Hr; discriminate].
  exists r. split; [reflexivity|].
  destruct (Hok r eq_refl) as [Hcount _].
  split; [rewrite Hcount; vm_compute; reflexivity|].
  vm_compute in Hr. injection Hr as <-. reflexivity.
Defined.

(** Every draw fails where [1.0 / epsilon] is infinite. *)
Lemma infinite_scale_fails (z : float) (query : DPQuery) (st : Store) :
  float_gt_zero (dp_epsilon query) = true ->
  float_div float_one (dp_epsilon query) = S754_infinity false ->
  failed (differential_privacy_query (cpython_gauss z) query st).
Proof.
  intros Hgt Hinf.
  destruct (dp_sigma_total (dp_epsilon query)) as (sigma & Hsigma & Hpos & _).
  rewrite (differential_privacy_query_unfold _ query st sigma Hsigma).
  rewrite (Hpos Hgt), Hinf.
  destruct (int_to_float _) as [c|e] eqn:Hc; simpl; [|eexists; reflexivity].
  assert (c <> S754_infinity false /\ c <> S754_infinity true) as [Hc1 Hc2].
  { revert Hc. unfold int_to_float.
    destruct (binary_normalize _ _ _ _ _); simpl; try discriminate;
      intros [= <-]; split; discriminate. }
  unfold cpython_gauss.
  change (binary_normalize prec emax 0 0 false) with (S754_zero false).
  destruct z as [sz|sz| |sz mz ez], c as [sc|[|]| |sc mc ec];
    try contradiction; simpl; try (eexists; reflexivity);
    destruct sz; simpl; eexists; reflexivity.
Qed.

(** C10, amended. [differential_privacy_query] checks neither the candidate
    id nor epsilon: it raises no HTTP error, and its one division is
    guarded.  For a candidate no stored encrypted ballot is for, registered
    or not, and every epsilon, zero, negative and NaN included, it returns,
    with [true_count = 0], exactly when the drawn noise is finite.  It fails
    only in the arithmetic, with [OverflowError] or [ValueError], and does
    so for every draw [mu + z * sigma] when [1.0 / epsilon] overflows to
    infinity, as at [epsilon = 1e-320]. *)
Theorem differential_privacy_query_validates_nothing :
  (forall (gauss : Z -> float -> float) (query : DPQuery) (st : Store),
     (forall e, differential_privacy_query gauss query st = Raise e ->
                e = OverflowError \/ e = ValueError) /\
     (forall r, differential_privacy_query gauss query st = Ok r ->
                dpr_candidate_id r = dp_candidate_id query) /\
     ((forall b, b ∈ encrypted_ballots st ->
                 eb_candidate_id b <> dp_candidate_id query) ->
      exists sigma,
        dp_sigma (dp_epsilon query) = Ok sigma /\
        (is_finite (gauss 0 sigma) = true ->
         exists n, differential_privacy_query gauss query st =
                     Ok (dp_result query 0 n)) /\
        (is_finite (gauss 0 sigma) = false ->
         failed (differential_privacy_query gauss query st)))) /\
  (forall (z : float) (query : DPQuery) (st : Store),
     float_gt_zero (dp_epsilon query) = true ->
     float_div float_one (dp_epsilon query) = S754_infinity false ->
     failed (differential_privacy_query (cpython_gauss z) query st)) /\
  differential_privacy_query gauss_low (dp_query 99 float_zero) encrypted_store
    = Ok (dp_result (dp_query 99 float_zero) 0 (-3)) /\
  differential_privacy_query gauss_low (dp_query 99 float_minus_0_5)
    encrypted_store = Ok (dp_result (dp_query 99 float_minus_0_5) 0 (-3)) /\
  differential_privacy_query gauss_low (dp_query 99 S754_nan) encrypted_store
    = Ok (dp_result (dp_query 99 S754_nan) 0 (-3)) /\
  float_gt_zero float_1e_320 = true /\
  float_div float_one float_1e_320 = S754_infinity false.
Proof.
  split; [|split; [exact infinite_scale_fails|
                   repeat split; vm_compute; reflexivity]].
  intros gauss query st.
  destruct (dp_sigma_total (dp_epsilon query)) as (sigma & Hsigma & _).
  rewrite (differential_privacy_query_unfold gauss query st sigma Hsigma).
  split; [|split].
  - intros e. unfold int_to_float.
    destruct (binary_normalize _ _ _ _ _); simpl;
      try match goal with
          | |- context [float_add ?a ?b] => destruct (float_add a b)
          end; simpl; try discriminate;
      intros [= <-]; first [left; reflexivity | right; reflexivity].
  - intros r. destruct (int_to_float _) as [c|e]; simpl; [|discriminate].
    destruct (py_round _) as [n|e]; simpl; [|discriminate].
    intros [= <-]. reflexivity.
  - intros Hnone. exists sigma. split; [exact Hsigma|].
    rewrite (no_matching_ballots st _ Hnone).
    change (int_to_float (Z.of_nat (length (@nil EncryptedBallot))))
      with (@Ok float (S754_zero false)).
    simpl. destruct (gauss 0 sigma) as [s|s| |s m e]; simpl.
    + split; [intros _; destruct s; eexists; reflexivity | discriminate].
    + split; [discriminate | intros _; eexists; reflexivity].
    + split; [discriminate | intros _; eexists; reflexivity].
    + split; [intros _; eexists; reflexivity | discriminate].
Qed.

(** A candidate nobody voted for, at epsilon 0 and a draw of -3. *)
Lemma differential_privacy_query_validates_nothing_witness :
  (forall b, b ∈ encrypted_ballots encrypted_store -> eb_candidate_id b <> 99) /\
  exists n,
    differential_privacy_query gauss_low (dp_query 99 float_zero)
      encrypted_store = Ok (dp_result (dp_query 99 float_zero) 0 n).
Proof.
  assert (forall b, b ∈ encrypted_ballots encrypted_store ->
                    eb_candidate_id b <> 99) as Hnone.
  { intros b Hb. vm_compute in Hb.
    repeat (apply elem_of_cons in Hb as [->|Hb]; [simpl; lia|]).
    apply elem_of_nil in Hb. contradiction. }
  split; [exact Hnone|].
  destruct differential_privacy_query_validates_nothing as [Hgen _].
  destruct (Hgen gauss_low (dp_query 99 float_zero) encrypted_store)
    as (_ & _ & Hret).
  destruct (Hret Hnone) as (sigma & _ & Hfin & _).
  apply Hfin. reflexivity.
Defined.

(** At [epsilon = 1e-320] the scale [1.0 / epsilon] is infinite and the
    draw [0 + 1.0 * sigma] with it: [round] raises [OverflowError]. *)
Lemma noised_count_for_every_draw_fails : ~ noised_count_for_every_draw.
Proof.
  intros H.
  destruct (H float_one (dp_query 7 float_1e_320) encrypted_store eq_refl)
    as (r & Hr & _).
  vm_compute in Hr. discriminate.
Qed.

(** The same input raises: the handler does fail. *)
Lemma noised_counter_never_fails_is_false : ~ noised_counter_never_fails.
Proof.
  intros H.
  apply (H float_one (dp_query 99 float_1e_320) empty_store eq_refl).
  exists OverflowError. vm_compute. reflexivity.
Qed.

(** ** The insertion-ordered dictionary *)

Section OrderedDict.
Context {V : Type}.
Implicit Types (d : list (Z * V)) (k : Z) (v : V).

Lemma od_mem_spec d k : od_mem d k = true <-> is_Some (od_get d k).
Proof. unfold od_mem. apply bool_decide_eq_true. Qed.

Lemma od_get_elem d k v : od_get d k = Some v -> (k, v) ∈ d.
Proof.
  induction d as [|[k' v'] d IH]; simpl; [discriminate|].
  destruct (decide (k' = k)) as [->|Hne].
  - intros [= ->]. left.
  - intros H. right. exact (IH H).
Qed.

Lemma od_set_fresh d k v : od_get d k = None -> od_set d k v = d ++ [(k, v)].
Proof.
  induction d as [|[k' v'] d IH]; simpl; [reflexivity|].
  destruct (decide (k' = k)) as [->|Hne]; [discriminate|].
  intros H. rewrite (IH H). reflexivity.
Qed.

Lemma od_get_app d d' k :
  od_get (d ++ d') k =
    match od_get d k with Some v => Some v | None => od_get d' k end.
Proof.
  induction d as [|[k' v'] d IH]; simpl; [reflexivity|].
  destruct (decide (k' = k)); [reflexivity | exact IH].
Qed.
End OrderedDict.

(** ** Invariants of the plurality stores *)

Lemma store_inv_empty : store_inv empty_store.
Proof.
  split.
  - intros c. reflexivity.
  - intros c [n Hn]. unfold empty_store in Hn. simpl in Hn.
    rewrite lookup_empty in Hn. discriminate.
  - intros c n Hn. simpl in Hn. rewrite lookup_empty in Hn. discriminate.
  - intros k c Hin. simpl in Hin. apply elem_of_nil in Hin. contradiction.
Qed.

Lemma store_inv_set_voters f st : store_inv st -> store_inv (set_voters f st).
Proof. intros [H1 H2 H3 H4]. split; assumption. Qed.

Lemma create_voters_inv voters st :
  store_inv st -> store_inv (create_voters voters st).1.
Proof.
  revert st. induction voters as [|voter rest IH]; intros st Hinv; simpl.
  - exact Hinv.
  - destruct (decide _); [exact Hinv|].
    apply IH, store_inv_set_voters, Hinv.
Qed.

Lemma store_inv_add_candidate candidate st :
  store_inv st ->
  od_mem (in_memory_candidates st) (candidate_id candidate) = false ->
  store_inv
    (set_candidates (fun d => od_set d (candidate_id candidate) candidate) st).
Proof.
  intros [H1 H2 H3 H4] Hfresh.
  assert (od_get (in_memory_candidates st) (candidate_id candidate) = None)
    as Hnone.
  { destruct (od_get _ _) eqn:E; [|reflexivity].
    assert (od_mem (in_memory_candidates st) (candidate_id candidate) = true)
      as Hmem by (apply od_mem_spec; rewrite E; eauto).
    congruence. }
  split.
  - exact H1.
  - intros c Hc. specialize (H2 c Hc). unfold registered in *. simpl.
    rewrite (od_set_fresh _ _ _ Hnone), od_get_app.
    destruct H2 as [x ->]. eauto.
  - exact H3.
  - intros k c. simpl. rewrite (od_set_fresh _ _ _ Hnone).
    intros Hin. apply elem_of_app in Hin as [Hin|Hin].
    + destruct (H4 k c Hin) as [Hk Hget]. split; [exact Hk|].
      rewrite od_get_app, Hget. reflexivity.
    + apply list_elem_of_singleton in Hin. injection Hin as -> ->.
      split; [reflexivity|]. rewrite od_get_app, Hnone. simpl.
      destruct (decide _); [reflexivity | contradiction].
Qed.

Lemma register_candidates_inv candidates st :
  store_inv st -> store_inv (register_candidates candidates st).1.
Proof.
  revert st. induction candidates as [|candidate rest IH]; intros st Hinv; simpl.
  - exact Hinv.
  - destruct (od_mem _ _) eqn:E; [exact Hinv|].
    apply IH, store_inv_add_candidate; assumption.
Qed.

Lemma tally_record_vote now v c w st c' :
  tally (record_vote now v c w st) c' =
    if decide (c = c') then tally st c + w else tally st c'.
Proof.
  unfold tally. simpl. destruct (decide (c = c')) as [->|Hne].
  - rewrite lookup_insert_eq. reflexivity.
  - rewrite lookup_insert_ne by exact Hne. reflexivity.
Qed.

Lemma recorded_weight_record_vote now v c w st c' :
  recorded_weight (record_vote now v c w st) c' =
    if decide (c = c') then recorded_weight st c + w else recorded_weight st c'.
Proof.
  unfold recorded_weight, timeline_of. simpl.
  destruct (decide (c = c')) as [->|Hne].
  - rewrite lookup_insert_eq. simpl. rewrite map_app, foldr_app. simpl.
    generalize (map vr_weight (default [] (vote_timeline st !! c'))).
    intros l. induction l as [|x l IH]; simpl; lia.
  - rewrite lookup_insert_ne by exact Hne. reflexivity.
Qed.

Lemma record_vote_inv now v c w st :
  store_inv st -> registered st c -> 1 <= w ->
  store_inv (record_vote now v c w st).
Proof.
  intros [H1 H2 H3 H4] Hreg Hw. split.
  - intros c'. rewrite tally_record_vote, recorded_weight_record_vote.
    destruct (decide (c = c')); rewrite H1; reflexivity.
  - intros c'. simpl. destruct (decide (c = c')) as [<-|Hne].
    + intros _. exact Hreg.
    + rewrite lookup_insert_ne by exact Hne. apply H2.
  - intros c' n. simpl. destruct (decide (c = c')) as [<-|Hne].
    + rewrite lookup_insert_eq. intros [= <-].
      destruct (candidate_votes st !! c) as [m|] eqn:E; simpl.
      * specialize (H3 c m E). lia.
      * lia.
    + rewrite lookup_insert_ne by exact Hne. apply H3.
  - exact H4.
Qed.

Lemma check_cast_registered v c st :
  check_cast v c st = Ok tt -> registered st c.
Proof.
  unfold check_cast. destruct (in_memory_voters st !! v); [|discriminate].
  destruct (_ <? 18); [discriminate|].
  destruct (od_mem _ c) eqn:E; simpl; [|discriminate].
  intros _. apply od_mem_spec. exact E.
Qed.

Lemma cast_vote_inv now v c st :
  store_inv st -> store_inv (cast_vote now v c st).1.
Proof.
  intros Hinv. unfold cast_vote.
  destruct (check_cast v c st) as [[]|e] eqn:E; [|exact Hinv].
  apply record_vote_inv; [exact Hinv | exact (check_cast_registered _ _ _ E) | lia].
Qed.

Lemma cast_weighted_vote_inv now request st :
  store_inv st -> store_inv (cast_weighted_vote now request st).1.
Proof.
  intros Hinv. unfold cast_weighted_vote.
  destruct (check_cast _ _ st) as [[]|e] eqn:E; [|exact Hinv].
  apply record_vote_inv; [exact Hinv | exact (check_cast_registered _ _ _ E) |].
  destruct (wv_profile_updated request); lia.
Qed.

Lemma handle_inv rq st : store_inv st -> store_inv (handle rq st).1.
Proof.
  intros Hinv. destruct rq; simpl.
  - apply create_voters_inv, Hinv.
  - unfold update_voter. destruct (decide _); [|exact Hinv].
    apply store_inv_set_voters, Hinv.
  - unfold delete_voter. destruct (decide _); [|exact Hinv].
    apply store_inv_set_voters, Hinv.
  - apply register_candidates_inv, Hinv.
  - apply cast_vote_inv, Hinv.
  - apply cast_weighted_vote_inv, Hinv.
  - unfold submit_encrypted_ballot. destruct Hinv.
    repeat (destruct (decide _)); split; assumption.
  - unfold submit_ranked_ballot. destruct Hinv.
    destruct (decide _); split; assumption.
  - unfold risk_limiting_audit. destruct (decide _); exact Hinv.
Qed.

Lemma run_inv rqs st : store_inv st -> store_inv (run rqs st).
Proof.
  revert st. induction rqs as [|rq rqs IH]; intros st Hinv; simpl.
  - exact Hinv.
  - apply IH, handle_inv, Hinv.
Qed.

Lemma reachable_inv st : reachable st -> store_inv st.
Proof. intros [rqs ->]. apply run_inv, store_inv_empty. Qed.

(** C4. After every sequence of requests, casts accepted or rejected among
    them, and for every candidate id [c], the stored tally
    [candidate_votes[c]] (0 if absent) is the sum of the weights of the
    records of [vote_timeline[c]]. *)
Theorem tally_is_sum_of_recorded_weights (rqs : list request) (c : Z) :
  default 0 (candidate_votes (run rqs empty_store) !! c) =
    foldr Z.add 0
      (map vr_weight (default [] (vote_timeline (run rqs empty_store) !! c))).
Proof.
  apply (inv_tally _ (run_inv rqs empty_store store_inv_empty) c).
Qed.

(** ** The plurality winner *)

Lemma py_max_upper (l : list Z) (d x : Z) : x ∈ l -> x <= py_max l d.
Proof.
  destruct l as [|v vs]; simpl; [intros H; apply elem_of_nil in H; contradiction|].
  assert (forall vs a, a <= fold_left Z.max vs a /\
                       forall y, y ∈ vs -> y <= fold_left Z.max vs a) as Hfold.
  { clear. induction vs as [|z vs IH]; intros a; simpl.
    - split; [lia|]. intros y Hy. apply elem_of_nil in Hy. contradiction.
    - destruct (IH (Z.max a z)) as [H1 H2]. split; [lia|].
      intros y Hy. apply elem_of_cons in Hy as [->|Hy]; [lia | exact (H2 y Hy)]. }
  destruct (Hfold vs v) as [H1 H2].
  intros Hx. apply elem_of_cons in Hx as [->|Hx]; [exact H1 | exact (H2 x Hx)].
Qed.

Lemma py_max_attained (l : list Z) (d : Z) : l <> [] -> py_max l d ∈ l.
Proof.
  destruct l as [|v vs]; [congruence|]. intros _. simpl.
  assert (forall vs a, fold_left Z.max vs a = a \/ fold_left Z.max vs a ∈ vs)
    as Hfold.
  { clear. induction vs as [|z vs IH]; intros a; simpl; [left; reflexivity|].
    destruct (IH (Z.max a z)) as [H|H].
    - rewrite H. destruct (Z.max_spec a z) as [[_ ->]|[_ ->]];
        [right; left | left; reflexivity].
    - right. right. exact H. }
  destruct (Hfold vs v) as [->|H]; [left | right; exact H].
Qed.

Lemma elem_of_values (m : gmap Z Z) (x : Z) :
  x ∈ (map_to_list m).*2 <-> exists k, m !! k = Some x.
Proof.
  rewrite list_elem_of_fmap. split.
  - intros [[k y] [-> Hin]]. exists k. apply elem_of_map_to_list. exact Hin.
  - intros [k Hk]. exists (k, x). split; [reflexivity|].
    apply elem_of_map_to_list. exact Hk.
Qed.

Lemma get_winner_on_reachable (st : Store) :
  reachable st ->
  (failed (get_winner st) <-> forall c, recorded_weight st c = 0) /\
  (failed (get_winner st) ->
   get_winner st = Raise (HTTPException 404 "No votes have been cast yet.")) /\
  ((exists c, recorded_weight st c <> 0) ->
   exists r,
     get_winner st = Ok r /\
     (forall c, recorded_weight st c <= wr_max_votes r) /\
     (exists c, registered st c /\ recorded_weight st c = wr_max_votes r) /\
     (forall c, (exists w, w ∈ wr_winners r /\ we_candidate_id w = c) <->
                registered st c /\ recorded_weight st c = wr_max_votes r) /\
     (forall w, w ∈ wr_winners r -> we_votes w = wr_max_votes r)).
Proof.
  intros Hreach. pose proof (reachable_inv st Hreach) as [Ht Hr Hp Hk].
  assert (candidate_votes st = ∅ <-> forall c, recorded_weight st c = 0) as Hempty.
  { split.
    - intros He c. rewrite <- Ht. unfold tally. rewrite He, lookup_empty.
      reflexivity.
    - intros Hz. apply map_empty. intros c.
      destruct (candidate_votes st !! c) as [n|] eqn:E; [|reflexivity].
      specialize (Hp c n E). specialize (Hz c). rewrite <- Ht in Hz.
      unfold tally in Hz. rewrite E in Hz. simpl in Hz. lia. }
  unfold get_winner. destruct (decide (candidate_votes st = ∅)) as [He|Hne].
  - split; [|split].
    + split; [intros _; apply Hempty, He | intros _; eexists; reflexivity].
    + reflexivity.
    + intros [c Hc]. exfalso. apply Hc. apply Hempty, He.
  - set (m := py_max (map_to_list (candidate_votes st)).*2 0).
    assert (forall c, recorded_weight st c = tally st c) as Ht' by (intros; symmetry; apply Ht).
    assert (exists k, candidate_votes st !! k = Some m) as [kmax Hkmax].
    { apply elem_of_values. apply py_max_attained.
      intros Hnil. apply Hne. apply map_to_list_empty_iff.
      apply fmap_nil_inv in Hnil. exact Hnil. }
    assert (forall c, tally st c <= m) as Hupper.
    { intros c. unfold tally.
      destruct (candidate_votes st !! c) as [n|] eqn:E; simpl.
      - apply py_max_upper. apply elem_of_values. eauto.
      - specialize (Hp _ _ Hkmax). lia. }
    split; [|split].
    + split; [intros [e He]; discriminate|].
      intros Hz. exfalso. apply Hne, Hempty, Hz.
    + intros [e He]. discriminate.
    + intros _. eexists. split; [reflexivity|]. simpl. fold m.
      split; [intros c; rewrite Ht'; apply Hupper|].
      split.
      { exists kmax. split; [apply Hr; eauto|].
        rewrite Ht'. unfold tally. rewrite Hkmax. reflexivity. }
      split.
      * intros c. split.
        -- intros (w & Hw & Hid). apply list_elem_of_fmap in Hw as (cd & -> & Hcd).
           apply list_elem_of_filter in Hcd as [Hvotes Hcd]. simpl in Hid.
           unfold od_values in Hcd. apply list_elem_of_fmap in Hcd as ([k cd'] & -> & Hin).
           simpl in *. destruct (Hk _ _ Hin) as [Hkey Hget].
           subst c. rewrite Hkey. split; [unfold registered; eauto|].
           rewrite Ht'. unfold votes_of in Hvotes. rewrite Hkey in Hvotes.
           exact Hvotes.
        -- intros [[cd Hcd] Hw]. pose proof (od_get_elem _ _ _ Hcd) as Hin.
           destruct (Hk _ _ Hin) as [Hkey _].
           eexists. split.
           ++ apply list_elem_of_fmap. exists cd. split; [reflexivity|].
              apply list_elem_of_filter. split.
              ** unfold votes_of. rewrite Hkey. rewrite Ht' in Hw. exact Hw.
              ** unfold od_values. apply list_elem_of_fmap. exists (c, cd).
                 split; [reflexivity | exact Hin].
           ++ simpl. exact Hkey.
      * intros w Hw. apply list_elem_of_fmap in Hw as (cd & -> & Hcd).
        apply list_elem_of_filter in Hcd as [Hvotes _]. simpl. exact Hvotes.
Qed.

Lemma tie_store_reachable : reachable tie_store.
Proof. eexists. reflexivity. Qed.

(** C6. On every reachable store, [get_winner] fails, and then with the
    no-votes-cast error, if and only if no candidate has any recorded
    weight; otherwise it returns the maximum recorded weight and exactly the
    registered candidates whose recorded weight equals it.  With totals
    A=10, B=10, C=5 (A, B, C being 1, 2, 3) it returns A and B and
    [max_votes = 10]. *)
Theorem get_winner_returns_the_maxima :
  (forall st : Store,
     reachable st ->
     (failed (get_winner st) <-> forall c, recorded_weight st c = 0) /\
     (failed (get_winner st) ->
      get_winner st = Raise (HTTPException 404 "No votes have been cast yet.")) /\
     ((exists c, recorded_weight st c <> 0) ->
      exists r,
        get_winner st = Ok r /\
        (forall c, recorded_weight st c <= wr_max_votes r) /\
        (exists c, registered st c /\ recorded_weight st c = wr_max_votes r) /\
        (forall c, (exists w, w ∈ wr_winners r /\ we_candidate_id w = c) <->
                   registered st c /\ recorded_weight st c = wr_max_votes r) /\
        (forall w, w ∈ wr_winners r -> we_votes w = wr_max_votes r))) /\
  (reachable tie_store /\
   recorded_weight tie_store 1 = 10 /\
   recorded_weight tie_store 2 = 10 /\
   recorded_weight tie_store 3 = 5 /\
   exists r,
     get_winner tie_store = Ok r /\
     map we_candidate_id (wr_winners r) = [1; 2] /\
     wr_max_votes r = 10).
Proof.
  split; [exact get_winner_on_reachable|].
  split; [exact tie_store_reachable|].
  split; [vm_compute; reflexivity|].
  split; [vm_compute; reflexivity|].
  split; [vm_compute; reflexivity|].
  destruct (get_winner tie_store) as [r|e] eqn:E; vm_compute in E; [|discriminate].
  injection E as <-. eexists. split; [reflexivity|]. split; reflexivity.
Qed.

(** The tie of candidates 1 and 2 at 10. *)
Lemma get_winner_returns_the_maxima_witness :
  (reachable tie_store /\ exists c, recorded_weight tie_store c <> 0) /\
  exists r,
    get_winner tie_store = Ok r /\
    (forall c, (exists w, w ∈ wr_winners r /\ we_candidate_id w = c) <->
               registered tie_store c /\
               recorded_weight tie_store c = wr_max_votes r).
Proof.
  assert (exists c, recorded_weight tie_store c <> 0) as Hsome
    by (exists 1; vm_compute; discriminate).
  split; [split; [exact tie_store_reachable | exact Hsome]|].
  destruct get_winner_returns_the_maxima as [Hgen _].
  destruct (Hgen tie_store tie_store_reachable) as (_ & _ & Hok).
  destruct (Hok Hsome) as (r & Hr & _ & _ & Hset & _).
  exists r. split; [exact Hr | exact Hset].
Defined.

(** ** The time-range query *)

(** C7. For every registered candidate and all timestamps [from_time] and
    [to_time], [get_votes_in_range] returns, in stored order, exactly the
    events of the candidate's timeline whose timestamp [t] satisfies
    [from_time <= t <= to_time], and a [total_weight] that is the sum of the
    weights of exactly those events. *)
Theorem get_votes_in_range_closed_interval
  (st : Store) (cand_id from_time to_time : Z) :
  registered st cand_id ->
  exists r,
    get_votes_in_range cand_id from_time to_time st = Ok r /\
    rr_votes_in_range r =
      filter (fun e => from_time <= te_timestamp e /\ te_timestamp e <= to_time)
             (map to_entry (timeline_of st cand_id)) /\
    rr_votes_in_range r `sublist_of` map to_entry (timeline_of st cand_id) /\
    (forall e, e ∈ rr_votes_in_range r <->
               e ∈ map to_entry (timeline_of st cand_id) /\
               from_time <= te_timestamp e <= to_time) /\
    rr_total_weight r = foldr Z.add 0 (map te_weight (rr_votes_in_range r)) /\
    rr_total_weight r =
      foldr Z.add 0
        (map vr_weight
           (filter (in_range from_time to_time) (timeline_of st cand_id))).
Proof.
  intros [candidate Hc]. unfold get_votes_in_range. rewrite Hc.
  eexists. split; [reflexivity|]. simpl. fold (timeline_of st cand_id).
  set (tl := timeline_of st cand_id).
  assert (map to_entry (filter (in_range from_time to_time) tl) =
          filter (fun e => from_time <= te_timestamp e /\ te_timestamp e <= to_time)
                 (map to_entry tl)) as Hswap.
  { induction tl as [|x tl IH]; [reflexivity|]. simpl.
    rewrite !filter_cons. unfold in_range at 1. simpl.
    destruct (decide _); simpl; rewrite <- IH; reflexivity. }
  split; [exact Hswap|].
  split; [unfold in_range, to_entry in Hswap; rewrite Hswap; apply sublist_filter|].
  split.
  { intros e. unfold in_range, to_entry in Hswap. rewrite Hswap.
    rewrite list_elem_of_filter. tauto. }
  split; [apply py_sum_foldr|].
  rewrite py_sum_foldr. f_equal. rewrite map_map. reflexivity.
Qed.

(** Events at 10, 20 and 30, queried over [20, 25]. *)
Lemma get_votes_in_range_closed_interval_witness :
  registered range_store 1 /\
  map vr_timestamp (timeline_of range_store 1) = [10; 20; 30] /\
  exists r,
    get_votes_in_range 1 20 25 range_store = Ok r /\
    rr_votes_in_range r =
      [{| te_voter_id := 2; te_timestamp := 20; te_weight := 2 |}] /\
    rr_total_weight r = 2.
Proof.
  assert (registered range_store 1) as Hreg by (vm_compute; eauto).
  split; [exact Hreg|]. split; [vm_compute; reflexivity|].
  destruct (get_votes_in_range_closed_interval range_store 1 20 25 Hreg)
    as (r & Hr & Hlist & _ & _ & Hsum & _).
  exists r. split; [exact Hr|].
  assert (rr_votes_in_range r =
          [{| te_voter_id := 2; te_timestamp := 20; te_weight := 2 |}]) as Hval.
  { rewrite Hlist. vm_compute. reflexivity. }
  split; [exact Hval|]. rewrite Hsum, Hval. reflexivity.
Defined.

(** ** One ballot per voter and kind *)

Lemma has_voted_handle k v rq st :
  has_voted k v st -> has_voted k v (handle rq st).1.
Proof.
  intros H.
  destruct rq as [voters| | |candidates|now voter_id cand_id|now wr| | |]; simpl.
  - clear -H. revert st H. induction voters as [|x l IH]; intros st H; simpl;
      [exact H|]. destruct (decide _); [exact H|]. apply IH.
    destruct k; exact H.
  - unfold update_voter. destruct (decide _); destruct k; exact H.
  - unfold delete_voter. destruct (decide _); destruct k; exact H.
  - clear -H. revert st H. induction candidates as [|x l IH]; intros st H; simpl;
      [exact H|]. destruct (od_mem _ _); [exact H|]. apply IH.
    destruct k; exact H.
  - unfold cast_vote. destruct (check_cast _ _ _); [|exact H].
    destruct k; simpl in *; try exact H.
    destruct (decide (voter_id = v)) as [->|Hne];
      [apply lookup_insert_eq | rewrite lookup_insert_ne by exact Hne; exact H].
  - unfold cast_weighted_vote. destruct (check_cast _ _ _); [|exact H].
    destruct k; simpl in *; try exact H.
    destruct (decide (wv_voter_id wr = v)) as [->|Hne];
      [apply lookup_insert_eq | rewrite lookup_insert_ne by exact Hne; exact H].
  - unfold submit_encrypted_ballot. repeat (destruct (decide _)); try exact H.
    destruct k; simpl in *; try exact H. set_solver.
  - unfold submit_ranked_ballot. destruct (decide _); try exact H.
    destruct k; simpl in *; try exact H. set_solver.
  - unfold risk_limiting_audit. destruct (decide _); exact H.
Qed.

Lemma has_voted_run k v rqs st : has_voted k v st -> has_voted k v (run rqs st).
Proof.
  revert st. induction rqs as [|rq rqs IH]; intros st H; simpl; [exact H|].
  apply IH, has_voted_handle, H.
Qed.

Lemma accepted_marks rq k v st :
  submission_of rq = Some (k, v) -> (handle rq st).2 = Ok tt ->
  has_voted k v (handle rq st).1.
Proof.
  destruct rq; simpl; try discriminate; intros [= <- <-].
  - unfold cast_vote. destruct (check_cast _ _ _); simpl; [|discriminate].
    intros _. apply lookup_insert_eq.
  - unfold cast_weighted_vote. destruct (check_cast _ _ _); simpl; [|discriminate].
    intros _. apply lookup_insert_eq.
  - unfold submit_encrypted_ballot. repeat (destruct (decide _)); simpl;
      try discriminate. intros _. set_solver.
  - unfold submit_ranked_ballot. destruct (decide _); simpl; try discriminate.
    intros _. set_solver.
Qed.

Lemma check_cast_voted v c st :
  voter_voted st !! v = Some true ->
  failed (check_cast v c st) /\
  ((exists voter, in_memory_voters st !! v = Some voter /\ 18 <= voter_age voter) ->
   registered st c ->
   check_cast v c st = Raise (duplicate_error Plurality)).
Proof.
  intros Hv. unfold check_cast. rewrite Hv. simpl.
  destruct (in_memory_voters st !! v) as [voter|] eqn:E.
  - destruct (voter_age voter <? 18) eqn:Hage.
    + split; [eexists; reflexivity|]. intros (voter' & [= <-] & Hadult).
      apply Z.ltb_lt in Hage. lia.
    + destruct (od_mem _ c) eqn:Hmem; simpl.
      * split; [eexists; reflexivity | reflexivity].
      * split; [eexists; reflexivity|]. intros _ Hreg.
        apply od_mem_spec in Hreg. congruence.
  - split; [eexists; reflexivity|]. intros (voter' & [=] & _).
Qed.

Lemma marked_refused rq k v st :
  submission_of rq = Some (k, v) -> has_voted k v st ->
  (handle rq st).1 = st /\ failed (handle rq st).2 /\
  (k <> Plurality -> (handle rq st).2 = Raise (duplicate_error k)) /\
  (cast_admissible rq st -> (handle rq st).2 = Raise (duplicate_error k)).
Proof.
  destruct rq as [| | | |now v0 c0|now wr| | |]; simpl; try discriminate;
    intros [= <- <-] Hv; simpl in Hv.
  - unfold cast_vote. destruct (check_cast_voted v0 c0 st Hv)
      as [[e He] Hdup]. rewrite He. simpl.
    split; [reflexivity|]. split; [eexists; reflexivity|].
    split; [congruence|]. intros [Hvoter Hreg].
    rewrite (Hdup Hvoter Hreg) in He. injection He as <-. reflexivity.
  - unfold cast_weighted_vote.
    destruct (check_cast_voted (wv_voter_id wr) (wv_candidate_id wr) st Hv)
      as [[e He] Hdup]. rewrite He. simpl.
    split; [reflexivity|]. split; [eexists; reflexivity|].
    split; [congruence|]. intros [Hvoter Hreg].
    rewrite (Hdup Hvoter Hreg) in He. injection He as <-. reflexivity.
  - unfold submit_encrypted_ballot. destruct (decide _); [|contradiction].
    simpl. split; [reflexivity|]. split; [eexists; reflexivity|].
    split; reflexivity.
  - unfold submit_ranked_ballot. destruct (decide _); [|contradiction].
    simpl. split; [reflexivity|]. split; [eexists; reflexivity|].
    split; reflexivity.
Qed.

(** Markers of the other kinds are not written by a submission. *)
Lemma other_kinds_untouched rq k v k' v' st :
  submission_of rq = Some (k, v) -> k' <> k ->
  (has_voted k' v' (handle rq st).1 <-> has_voted k' v' st).
Proof.
  destruct rq; simpl; try discriminate; intros [= <- <-] Hk.
  - unfold cast_vote. destruct (check_cast _ _ _); [|reflexivity].
    destruct k'; [contradiction | reflexivity | reflexivity].
  - unfold cast_weighted_vote. destruct (check_cast _ _ _); [|reflexivity].
    destruct k'; [contradiction | reflexivity | reflexivity].
  - unfold submit_encrypted_ballot. repeat (destruct (decide _)); try reflexivity.
    destruct k'; [reflexivity | reflexivity | contradiction].
  - unfold submit_ranked_ballot. destruct (decide _); try reflexivity.
    destruct k'; [reflexivity | contradiction | reflexivity].
Qed.

(** The error of a cast by a marked voter: that of the first check that
    fails, the duplicate check being the last. *)
Lemma check_cast_marked v c st :
  voter_voted st !! v = Some true ->
  (in_memory_voters st !! v = None ->
   check_cast v c st = Raise (HTTPException 404 "Voter not found.")) /\
  (forall voter, in_memory_voters st !! v = Some voter ->
     (voter_age voter < 18 ->
      check_cast v c st =
        Raise (HTTPException 403 "Voter must be at least 18 years old.")) /\
     (18 <= voter_age voter -> ~ registered st c ->
      check_cast v c st = Raise (HTTPException 404 "Candidate not found.")) /\
     (18 <= voter_age voter -> registered st c ->
      check_cast v c st = Raise (duplicate_error Plurality))).
Proof.
  intros Hv. unfold check_cast. rewrite Hv. simpl. split.
  - intros ->. reflexivity.
  - intros voter ->. split; [|split].
    + intros Hage. apply Z.ltb_lt in Hage. rewrite Hage. reflexivity.
    + intros Hage Hreg. apply Z.ltb_ge in Hage. rewrite Hage.
      destruct (od_mem _ c) eqn:Hmem; [|reflexivity].
      exfalso. apply Hreg. apply od_mem_spec. exact Hmem.
    + intros Hage Hreg. apply Z.ltb_ge in Hage. rewrite Hage.
      apply od_mem_spec in Hreg. rewrite Hreg. reflexivity.
Qed.

(** The answer to a cast that does not pass its checks is the error of
    the checks. *)
Lemma refused_cast rq v c st :
  cast_of rq = Some (v, c) -> failed (check_cast v c st) ->
  (handle rq st).2 = check_cast v c st.
Proof.
  destruct rq as [| | | |now v0 c0|now wr| | |]; simpl; try discriminate;
    intros [= <- <-] [e He].
  - unfold cast_vote. rewrite He. reflexivity.
  - unfold cast_weighted_vote. rewrite He. reflexivity.
Qed.

(** The stores a submission of a kind leaves as they were: those the
    handlers of the other kinds consult. *)
Lemma submission_frame rq k v st :
  submission_of rq = Some (k, v) ->
  (k <> Plurality ->
   in_memory_voters (handle rq st).1 = in_memory_voters st /\
   in_memory_candidates (handle rq st).1 = in_memory_candidates st /\
   voter_voted (handle rq st).1 = voter_voted st) /\
  (k <> Encrypted ->
   encrypted_voter_set (handle rq st).1 = encrypted_voter_set st) /\
  (k <> Ranked -> ranked_voter_set (handle rq st).1 = ranked_voter_set st).
Proof.
  destruct rq as [| | | |now v0 c0|now wr|b|b|]; simpl; try discriminate;
    intros [= <- <-].
  - unfold cast_vote. destruct (check_cast v0 c0 st); simpl;
      (split; [intros H; contradiction | split; reflexivity]).
  - unfold cast_weighted_vote. destruct (check_cast _ _ st); simpl;
      (split; [intros H; contradiction | split; reflexivity]).
  - unfold submit_encrypted_ballot. repeat (destruct (decide _)); simpl;
      (split; [intros _; repeat split; reflexivity|]);
      (split; [intros H; contradiction | reflexivity]).
  - unfold submit_ranked_ballot. destruct (decide _); simpl;
      (split; [intros _; repeat split; reflexivity|]);
      (split; [reflexivity | intros H; contradiction]).
Qed.

(** The answer to a submission depends on the stores of its kind only. *)
Lemma answer_frame rq k v st st' :
  submission_of rq = Some (k, v) ->
  (k = Plurality ->
   in_memory_voters st' = in_memory_voters st /\
   in_memory_candidates st' = in_memory_candidates st /\
   voter_voted st' = voter_voted st) ->
  (k = Encrypted -> encrypted_voter_set st' = encrypted_voter_set st) ->
  (k = Ranked -> ranked_voter_set st' = ranked_voter_set st) ->
  (handle rq st').2 = (handle rq st).2.
Proof.
  destruct rq as [| | | |now v0 c0|now wr|b|b|]; simpl; try discriminate;
    intros [= <- <-] Hp He Hr.
  - destruct (Hp eq_refl) as (H1 & H2 & H3).
    assert (check_cast v0 c0 st' = check_cast v0 c0 st) as Hcheck
      by (unfold check_cast; rewrite H1, H2, H3; reflexivity).
    unfold cast_vote. rewrite Hcheck.
    destruct (check_cast v0 c0 st); reflexivity.
  - destruct (Hp eq_refl) as (H1 & H2 & H3).
    assert (check_cast (wv_voter_id wr) (wv_candidate_id wr) st' =
            check_cast (wv_voter_id wr) (wv_candidate_id wr) st) as Hcheck
      by (unfold check_cast; rewrite H1, H2, H3; reflexivity).
    unfold cast_weighted_vote. rewrite Hcheck.
    destruct (check_cast _ _ st); reflexivity.
  - unfold submit_encrypted_ballot. rewrite (He eq_refl).
    repeat (destruct (decide _)); reflexivity.
  - unfold submit_ranked_ballot. rewrite (Hr eq_refl).
    destruct (decide _); reflexivity.
Qed.

(** A submission of one kind does not change the answer to a submission
    of another kind. *)
Lemma other_kinds_answer rq rq' k v k' v' st :
  submission_of rq = Some (k, v) -> submission_of rq' = Some (k', v') ->
  k' <> k ->
  (handle rq' (handle rq st).1).2 = (handle rq' st).2.
Proof.
  intros Hrq Hrq' Hk.
  destruct (submission_frame rq k v st Hrq) as (Hp & He & Hr).
  apply (answer_frame rq' k' v'); [exact Hrq' | | |].
  - intros ->. apply Hp. congruence.
  - intros ->. apply He. congruence.
  - intros ->. apply Hr. congruence.
Qed.

(** C5, amended. Once a submission of a voter for a ballot kind has been
    accepted, every later submission of that voter for that kind fails and
    leaves every store unchanged, whatever was served in between.  The error
    is the duplicate-ballot error for a ranked and for an encrypted ballot,
    and for a plurality vote whenever the checks made before it pass (the
    voter is still stored and adult, the candidate is registered);
    otherwise the plurality cast fails with the error of the first of those
    checks that fails: 404 for a voter no longer stored, 403 for one under
    18, 404 for a candidate that is not registered.  The kinds are
    independent: a submission of one kind neither writes the marker of
    another kind nor changes the answer to a submission of another kind. *)
Theorem second_submission_is_refused
  (st : Store) (rq1 rq2 : request) (rqs : list request)
  (k : ballot_kind) (v : Z) :
  submission_of rq1 = Some (k, v) ->
  submission_of rq2 = Some (k, v) ->
  (handle rq1 st).2 = Ok tt ->
  let st2 := run rqs (handle rq1 st).1 in
  (handle rq2 st2).1 = st2 /\
  failed (handle rq2 st2).2 /\
  (k <> Plurality -> (handle rq2 st2).2 = Raise (duplicate_error k)) /\
  (cast_admissible rq2 st2 -> (handle rq2 st2).2 = Raise (duplicate_error k)) /\
  (forall k' v', k' <> k ->
     (has_voted k' v' (handle rq1 st).1 <-> has_voted k' v' st)) /\
  (forall c, cast_of rq2 = Some (v, c) ->
     (in_memory_voters st2 !! v = None ->
      (handle rq2 st2).2 = Raise (HTTPException 404 "Voter not found.")) /\
     (forall voter, in_memory_voters st2 !! v = Some voter ->
        (voter_age voter < 18 ->
         (handle rq2 st2).2 =
           Raise (HTTPException 403 "Voter must be at least 18 years old.")) /\
        (18 <= voter_age voter -> ~ registered st2 c ->
         (handle rq2 st2).2 =
           Raise (HTTPException 404 "Candidate not found.")) /\
        (18 <= voter_age voter -> registered st2 c ->
         (handle rq2 st2).2 = Raise (duplicate_error Plurality)))) /\
  (forall (rq rq' : request) (k1 k2 : ballot_kind) (v1 v2 : Z) (st0 : Store),
     submission_of rq = Some (k1, v1) -> submission_of rq' = Some (k2, v2) ->
     k2 <> k1 ->
     (handle rq' (handle rq st0).1).2 = (handle rq' st0).2).
Proof.
  intros H1 H2 Hok st2.
  assert (has_voted k v st2) as Hv.
  { apply has_voted_run. exact (accepted_marks rq1 k v st H1 Hok). }
  destruct (marked_refused rq2 k v st2 H2 Hv) as (Ha & Hb & Hc & Hd).
  split; [exact Ha|]. split; [exact Hb|]. split; [exact Hc|].
  split; [exact Hd|]. split; [|split].
  - intros k' v' Hk. apply (other_kinds_untouched rq1 k v k' v' st H1 Hk).
  - intros c Hcast.
    assert (k = Plurality) as ->.
    { destruct rq2; simpl in Hcast, H2; try discriminate; congruence. }
    simpl in Hv.
    destruct (check_cast_voted v c st2 Hv) as [Hfail _].
    rewrite (refused_cast rq2 v c st2 Hcast Hfail).
    exact (check_cast_marked v c st2 Hv).
  - intros rq rq' k1 k2 v1 v2 st0. apply other_kinds_answer.
Qed.

(** Voter 1 votes, is deleted, and casts again: the second cast is refused
    and the stores stay as they were. *)
Lemma second_submission_is_refused_witness :
  (handle (CastVote 100 1 1) one_voter_store).2 = Ok tt /\
  let st2 := run [DeleteVoter 1] (handle (CastVote 100 1 1) one_voter_store).1 in
  (handle (weighted 200 1 1) st2).1 = st2 /\
  failed (handle (weighted 200 1 1) st2).2.
Proof.
  assert ((handle (CastVote 100 1 1) one_voter_store).2 = Ok tt) as Hok
    by (vm_compute; reflexivity).
  split; [exact Hok|].
  destruct (second_submission_is_refused one_voter_store (CastVote 100 1 1)
              (weighted 200 1 1) [DeleteVoter 1] Plurality 1
              eq_refl eq_refl Hok) as (Ha & Hb & _).
  split; [exact Ha | exact Hb].
Defined.

(** Voter 1 votes for candidate 1 and then casts for the unknown candidate
    99: the answer is 404, candidate not found, and not the duplicate
    error. *)
Lemma second_submission_is_duplicate_fails : ~ second_submission_is_duplicate.
Proof.
  intros H.
  specialize (H one_voter_store (CastVote 100 1 1) (CastVote 200 1 99) []
                Plurality 1).
  assert ((handle (CastVote 200 1 99)
             (run [] (handle (CastVote 100 1 1) one_voter_store).1)).2 =
          Raise (HTTPException 404 "Candidate not found.")) as Hval
    by (vm_compute; reflexivity).
  rewrite H in Hval.
  - discriminate.
  - eexists. reflexivity.
  - reflexivity.
  - reflexivity.
  - vm_compute. reflexivity.
Qed.

(** ** Loops *)

Section Loops.
Context {A S : Type}.
Implicit Types (l : list A) (body : A -> S -> res S).

(** The loop rule: [P done s] relates the state to the items already
    visited. *)
Lemma for_each_ind (P : list A -> S -> Prop) l body s :
  P [] s ->
  (forall done x rest s, l = done ++ x :: rest -> P done s ->
     exists s', body x s = Ok s' /\ P (done ++ [x]) s') ->
  exists s', for_each l body s = Ok s' /\ P l s'.
Proof.
  intros Hstart Hstep.
  assert (forall rest done s, l = done ++ rest -> P done s ->
            exists s', for_each rest body s = Ok s' /\ P l s') as Hgen.
  { induction rest as [|x rest IH]; intros done s0 Hl HP; simpl.
    - exists s0. split; [reflexivity|]. rewrite Hl, app_nil_r. exact HP.
    - destruct (Hstep done x rest s0 Hl HP) as (s1 & Hbody & HP1).
      rewrite Hbody. simpl. apply (IH (done ++ [x])); [|exact HP1].
      rewrite <- app_assoc. exact Hl. }
  apply (Hgen l [] s); [reflexivity | exact Hstart].
Qed.

Lemma for_each_inv (P : S -> Prop) l body s :
  P s ->
  (forall x s, x ∈ l -> P s -> exists s', body x s = Ok s' /\ P s') ->
  exists s', for_each l body s = Ok s' /\ P s'.
Proof.
  intros Hstart Hstep.
  apply (for_each_ind (fun _ => P)); [exact Hstart|].
  intros done x rest s0 -> HP. apply Hstep; [|exact HP].
  apply elem_of_app. right. left.
Qed.

End Loops.

Lemma NoDup_split_notin {A : Type} (done rest : list A) (x : A) :
  NoDup (done ++ x :: rest) -> x ∉ done.
Proof.
  intros H Hin. apply NoDup_app in H as (_ & H & _).
  apply (H x Hin). left.
Qed.

(** ** Matrices as nested dictionaries *)

Section Matrix.
Implicit Types (m : gmap Z (gmap Z Z)) (cs : list Z).

Lemma getitem2_complete cs m c d :
  complete cs m -> c ∈ cs -> d ∈ cs -> getitem2 m c d = Ok (cell m c d).
Proof.
  intros Hm Hc Hd. destruct (Hm c Hc) as (row & Hrow & Hcells).
  destruct (Hcells d Hd) as [v Hv].
  unfold getitem2, getitem, cell. rewrite Hrow. simpl. rewrite Hv. reflexivity.
Qed.

Lemma setitem2_complete cs m c d v :
  complete cs m -> c ∈ cs ->
  exists m', setitem2 m c d v = Ok m' /\ complete cs m' /\
    (cell m' c d = v) /\
    (forall a b, (a, b) <> (c, d) -> cell m' a b = cell m a b).
Proof.
  intros Hm Hc. destruct (Hm c Hc) as (row & Hrow & Hcells).
  unfold setitem2, getitem. rewrite Hrow. simpl. eexists. split; [reflexivity|].
  split; [|split].
  - intros a Ha. destruct (decide (a = c)) as [->|Hne].
    + rewrite lookup_insert_eq. eexists. split; [reflexivity|].
      intros b Hb. destruct (decide (b = d)) as [->|Hbd].
      * rewrite lookup_insert_eq. eauto.
      * rewrite lookup_insert_ne by congruence. apply Hcells, Hb.
    + rewrite lookup_insert_ne by congruence. apply Hm, Ha.
  - unfold cell. rewrite !lookup_insert_eq. reflexivity.
  - intros a b Hab. unfold cell. destruct (decide (a = c)) as [->|Hne].
    + rewrite lookup_insert_eq, Hrow.
      rewrite lookup_insert_ne by congruence. reflexivity.
    + rewrite lookup_insert_ne by congruence. reflexivity.
Qed.

Lemma setitem2_same cs m c d :
  complete cs m -> c ∈ cs -> d ∈ cs -> setitem2 m c d (cell m c d) = Ok m.
Proof.
  intros Hm Hc Hd. destruct (Hm c Hc) as (row & Hrow & Hcells).
  destruct (Hcells d Hd) as [v Hv].
  unfold setitem2, getitem, cell. rewrite Hrow. simpl. rewrite Hv. simpl.
  f_equal. rewrite (insert_id row d v Hv). apply insert_id, Hrow.
Qed.
End Matrix.

(** ** One relaxation step *)

Lemma relax_complete cs s i j k :
  complete cs s -> i ∈ cs -> j ∈ cs -> k ∈ cs ->
  exists s', relax i j k s = Ok s' /\ complete cs s' /\
    cell s' j k = Z.max (cell s j k) (Z.min (cell s j i) (cell s i k)) /\
    (forall a b, (a, b) <> (j, k) -> cell s' a b = cell s a b).
Proof.
  intros Hs Hi Hj Hk. unfold relax.
  rewrite !(getitem2_complete cs) by assumption. simpl.
  apply setitem2_complete; assumption.
Qed.

Lemma relax_stable cs s i j k :
  complete cs s -> i ∈ cs -> j ∈ cs -> k ∈ cs ->
  Z.min (cell s j i) (cell s i k) <= cell s j k ->
  relax i j k s = Ok s.
Proof.
  intros Hs Hi Hj Hk Hle. unfold relax.
  rewrite !(getitem2_complete cs) by assumption. simpl.
  rewrite Z.max_l by exact Hle. apply (setitem2_same cs); assumption.
Qed.

(** A stable matrix is a fixed point of the whole pass. *)
Lemma relaxation_pass_stable cs s :
  complete cs s -> stable cs s -> relaxation_pass cs s = Ok s.
Proof.
  intros Hs Hst. unfold relaxation_pass.
  destruct (for_each_inv (fun s' => s' = s) cs
    (fun i s0 => for_each cs (fun j s1 =>
       if decide (i ≠ j) then
         for_each cs (fun k s2 =>
           if decide (i ≠ k /\ j ≠ k) then relax i j k s2 else Ok s2) s1
       else Ok s1) s0) s eq_refl) as (s' & Hrun & ->); [|exact Hrun].
  intros i ? Hi ->.
  apply (for_each_inv (fun s' => s' = s)); [reflexivity|].
  intros j ? Hj ->. destruct (decide (i ≠ j)) as [Hij|_]; [|eauto].
  apply (for_each_inv (fun s' => s' = s)); [reflexivity|].
  intros k ? Hk ->. destruct (decide (i ≠ k /\ j ≠ k)) as [[Hik Hjk]|_]; [|eauto].
  exists s. split; [|reflexivity].
  apply (relax_stable cs); try assumption. apply Hst; assumption.
Qed.

(** ** One round of the pass *)

Lemma relaxation_pass_rounds cs s :
  relaxation_pass cs s = for_each cs (relax_round cs) s.
Proof. reflexivity. Qed.

Section Round.
Variables (cs : list Z) (i : Z) (s0 : gmap Z (gmap Z Z)).
Hypothesis (Hnodup : NoDup cs) (Hi : i ∈ cs) (Hs0 : complete cs s0).

Lemma inv_ext rows j cols rows' j' cols' s :
  (forall a b, round_written cs i rows j cols a b <-> round_written cs i rows' j' cols' a b) ->
  round_inv cs i s0 rows j cols s -> round_inv cs i s0 rows' j' cols' s.
Proof.
  intros Heq [Hc Hcells]. split; [exact Hc|]. intros a b.
  destruct (Hcells a b) as [H1 H2]. rewrite <- (Heq a b). split; assumption.
Qed.

Lemma inner_step rows j cols k rest s :
  cs = cols ++ k :: rest -> j ∈ cs -> j ∉ rows -> i <> j ->
  round_inv cs i s0 rows j cols s ->
  exists s',
    (if decide (i ≠ k /\ j ≠ k) then relax i j k s else Ok s) = Ok s' /\
    round_inv cs i s0 rows j (cols ++ [k]) s'.
Proof.
  intros Hcs Hj Hjrows Hij [Hc Hcells].
  assert (k ∈ cs) as Hk by (rewrite Hcs; apply elem_of_app; right; left).
  assert (k ∉ cols) as Hkcols
    by (apply (NoDup_split_notin cols rest); rewrite <- Hcs; exact Hnodup).
  destruct (decide (i ≠ k /\ j ≠ k)) as [[Hik Hjk]|Hno].
  - destruct (relax_complete cs s i j k Hc Hi Hj Hk) as (s' & Hrun & Hc' & Hjk' & Hoth).
    exists s'. split; [exact Hrun|]. split; [exact Hc'|].
    assert (cell s j k = cell s0 j k) as E1.
    { apply Hcells. unfold round_written. intros [[[? _]|[_ ?]] _]; contradiction. }
    assert (cell s j i = cell s0 j i) as E2.
    { apply Hcells. unfold round_written. tauto. }
    assert (cell s i k = cell s0 i k) as E3.
    { apply Hcells. unfold round_written. tauto. }
    intros a b. destruct (decide ((a, b) = (j, k))) as [[= -> ->]|Hab].
    + split.
      * intros _. rewrite Hjk', E1, E2, E3. reflexivity.
      * intros Hw. exfalso. apply Hw. unfold round_written.
        split; [right; split; [reflexivity|apply elem_of_app; right; left]|].
        repeat split; congruence.
    + rewrite (Hoth a b Hab). destruct (Hcells a b) as [H1 H2]. split.
      * intros Hw. apply H1. unfold round_written in *.
        destruct Hw as [[Hw|[-> Hw]] Hrest]; [tauto|].
        apply elem_of_app in Hw as [Hw|Hw]; [tauto|].
        apply list_elem_of_singleton in Hw. subst b. congruence.
      * intros Hw. apply H2. intros Hw'. apply Hw. unfold round_written in *.
        destruct Hw' as [[Hw'|[-> Hw']] Hrest]; [tauto|].
        split; [right; split; [reflexivity|apply elem_of_app; left; exact Hw']|].
        exact Hrest.
  - exists s. split; [reflexivity|]. split; [exact Hc|].
    intros a b. destruct (Hcells a b) as [H1 H2]. split.
    + intros Hw. apply H1. unfold round_written in *.
      destruct Hw as [[Hw|[-> Hw]] Hrest]; [tauto|].
      apply elem_of_app in Hw as [Hw|Hw]; [tauto|].
      apply list_elem_of_singleton in Hw. subst b. exfalso. apply Hno.
      destruct Hrest as (? & ? & ?). split; congruence.
    + intros Hw. apply H2. intros Hw'. apply Hw. unfold round_written in *.
      destruct Hw' as [[Hw'|[-> Hw']] Hrest]; [tauto|].
      split; [right; split; [reflexivity|apply elem_of_app; left; exact Hw']|].
      exact Hrest.
Qed.

Lemma middle_step rows j rest s :
  cs = rows ++ j :: rest ->
  round_inv cs i s0 rows j [] s ->
  exists s',
    (if decide (i ≠ j) then
       for_each cs
         (fun k s => if decide (i ≠ k /\ j ≠ k) then relax i j k s else Ok s) s
     else Ok s) = Ok s' /\
    round_inv cs i s0 (rows ++ [j]) j [] s'.
Proof.
  intros Hcs Hinv.
  assert (j ∈ cs) as Hj by (rewrite Hcs; apply elem_of_app; right; left).
  assert (j ∉ rows) as Hjrows
    by (apply (NoDup_split_notin rows rest); rewrite <- Hcs; exact Hnodup).
  destruct (decide (i ≠ j)) as [Hij|Hij].
  - destruct (for_each_ind (fun cols s => round_inv cs i s0 rows j cols s) cs
      (fun k s => if decide (i ≠ k /\ j ≠ k) then relax i j k s else Ok s) s Hinv)
      as (s' & Hrun & Hinv').
    { intros cols k rest' s1 Hcs' Hinv1.
      apply (inner_step rows j cols k rest'); assumption. }
    exists s'. split; [exact Hrun|]. revert Hinv'. apply inv_ext.
    intros a b. unfold round_written. rewrite elem_of_app, list_elem_of_singleton.
    split.
    + intros [[[? ?]|[-> ?]] ?]; tauto.
    + intros [[[[?| ->] ?]|[_ Hnil]] ?]; [tauto | tauto |].
      apply elem_of_nil in Hnil. contradiction.
  - exists s. split; [reflexivity|]. revert Hinv. apply inv_ext.
    assert (i = j) as <- by (destruct (decide (i = j)); [assumption | contradiction]).
    intros a b. unfold round_written. rewrite elem_of_app, list_elem_of_singleton.
    split.
    + intros [[[? ?]|[_ Hnil]] ?]; [tauto|].
      apply elem_of_nil in Hnil. contradiction.
    + intros [[[[?| ->] ?]|[_ Hnil]] ?]; [tauto | tauto |].
      apply elem_of_nil in Hnil. contradiction.
Qed.

Lemma relax_round_spec :
  exists s', relax_round cs i s0 = Ok s' /\ complete cs s' /\ round_of cs i s0 s'.
Proof.
  unfold relax_round.
  destruct (for_each_ind (fun rows s => round_inv cs i s0 rows i [] s) cs
    (fun j s =>
       if decide (i ≠ j) then
         for_each cs
           (fun k s => if decide (i ≠ k /\ j ≠ k) then relax i j k s else Ok s) s
       else Ok s) s0) as (s' & Hrun & [Hc Hcells]).
  - split; [exact Hs0|]. intros a b. split; [|reflexivity].
    unfold round_written. intros [[[Hnil _]|[-> Hnil]] ?];
      apply elem_of_nil in Hnil; contradiction.
  - intros rows j rest s Hcs Hinv.
    destruct (middle_step rows j rest s Hcs) as (s' & Hrun & Hinv').
    + revert Hinv. apply inv_ext. intros a b. unfold round_written. split.
      * intros [[?|[_ Hnil]] ?]; [tauto|]. apply elem_of_nil in Hnil. contradiction.
      * intros [[?|[_ Hnil]] ?]; [tauto|]. apply elem_of_nil in Hnil. contradiction.
    + exists s'. split; [exact Hrun|]. revert Hinv'. apply inv_ext.
      intros a b. unfold round_written. split.
      * intros [[?|[_ Hnil]] ?]; [tauto|]. apply elem_of_nil in Hnil. contradiction.
      * intros [[?|[_ Hnil]] ?]; [tauto|]. apply elem_of_nil in Hnil. contradiction.
  - exists s'. split; [exact Hrun|]. split; [exact Hc|].
    intros a b. destruct (Hcells a b) as [H1 H2]. split.
    + intros Ha Hb Hai Hbi Hab. apply H1. unfold round_written. tauto.
    + intros Hno. apply H2. unfold round_written. intros [[[? ?]|[_ Hnil]] ?]; [tauto|].
      apply elem_of_nil in Hnil. contradiction.
Qed.
End Round.

(** ** Paths and their strength *)

Lemma path_strength_cons g j a p :
  p <> [] -> path_strength g j (a :: p) = Z.min (cell g j a) (path_strength g a p).
Proof. destruct p; [congruence | reflexivity]. Qed.

Lemma path_strength_app g j p1 p2 m :
  last p1 = Some m -> p2 <> [] ->
  path_strength g j (p1 ++ p2) =
    Z.min (path_strength g j p1) (path_strength g m p2).
Proof.
  revert j. induction p1 as [|a p1 IH]; intros j Hlast Hp2; [discriminate|].
  destruct p1 as [|b p1].
  - injection Hlast as ->. simpl app. rewrite path_strength_cons by exact Hp2.
    reflexivity.
  - change ((a :: b :: p1) ++ p2) with (a :: (b :: p1) ++ p2).
    rewrite path_strength_cons by discriminate.
    rewrite (IH a) by (try exact Hp2; exact Hlast).
    rewrite (path_strength_cons g j a (b :: p1)) by discriminate. lia.
Qed.

Lemma path_to_app cs m k p1 p2 :
  path_to cs m p1 -> path_to cs k p2 -> path_to cs k (p1 ++ p2).
Proof.
  intros [_ H1] [Hlast H2]. split.
  - rewrite last_app, Hlast. reflexivity.
  - intros x Hx. apply elem_of_app in Hx as [Hx|Hx]; [apply H1 | apply H2]; exact Hx.
Qed.

Lemma path_to_nonempty cs k p : path_to cs k p -> p <> [].
Proof. intros [Hlast _] ->. discriminate. Qed.

(** Names the matrix entries that occur, which leaves plain integer
    arithmetic. *)
Ltac name_cells :=
  repeat match goal with
  | |- context [cell ?m ?a ?b] =>
      let x := fresh "x" in set (x := cell m a b) in *; clearbody x
  | H : context [cell ?m ?a ?b] |- _ =>
      let x := fresh "x" in set (x := cell m a b) in *; clearbody x
  end.

Lemma relax_arith a b c d e f g :
  Z.min a d <= g -> Z.min a e <= b -> Z.min c d <= f ->
  Z.min (Z.max a (Z.min b c)) (Z.max d (Z.min e f)) <= Z.max g (Z.min b f).
Proof.
  intros H1 H2 H3.
  destruct (Z.max_spec a (Z.min b c)) as [[? ->]|[? ->]];
    destruct (Z.max_spec d (Z.min e f)) as [[? ->]|[? ->]];
    destruct (Z.le_ge_cases b f); destruct (Z.le_ge_cases a d); lia.
Qed.

Section Rounds.
Variables (cs : list Z) (i : Z) (s s' : gmap Z (gmap Z Z)).
Hypothesis (Hi : i ∈ cs) (Hround : round_of cs i s s').

Lemma round_cell a b :
  a ∈ cs -> b ∈ cs -> a <> i -> b <> i -> a <> b ->
  cell s' a b = Z.max (cell s a b) (Z.min (cell s a i) (cell s i b)).
Proof. apply Hround. Qed.

Lemma round_row b : cell s' i b = cell s i b.
Proof. apply Hround. intros (_ & _ & H & _). congruence. Qed.

Lemma round_column a : cell s' a i = cell s a i.
Proof. apply Hround. intros (_ & _ & _ & H & _). congruence. Qed.

Lemma round_grows a b : cell s a b <= cell s' a b.
Proof.
  destruct (Hround a b) as [H1 H2].
  destruct (decide (a ∈ cs /\ b ∈ cs /\ a <> i /\ b <> i /\ a <> b))
    as [(? & ? & ? & ? & ?)|Hno].
  - rewrite H1 by assumption. lia.
  - rewrite H2 by exact Hno. lia.
Qed.

Lemma round_stable_through done :
  (forall x, x ∈ done -> x ∈ cs) ->
  stable_through cs done s -> stable_through cs (done ++ [i]) s'.
Proof.
  intros Hdone Hst i0 j k Hi0 Hj Hk Hij Hik Hjk.
  assert (i0 ∈ cs) as Hi0cs.
  { apply elem_of_app in Hi0 as [Hi0|Hi0]; [apply Hdone, Hi0|].
    apply list_elem_of_singleton in Hi0. subst i0. exact Hi. }
  destruct (decide (i0 = i)) as [->|Hne].
  - rewrite round_column, round_row, (round_cell j k) by congruence.
    name_cells; lia.
  - assert (i0 ∈ done) as Hd.
    { apply elem_of_app in Hi0 as [Hi0|Hi0]; [exact Hi0|].
      apply list_elem_of_singleton in Hi0. contradiction. }
    destruct (decide (j = i)) as [->|Hji]; [|destruct (decide (k = i)) as [->|Hki]].
    + rewrite !round_row, (round_cell i0 k) by congruence.
      pose proof (Hst i0 i k Hd Hi Hk Hij Hik Hjk).
      name_cells; lia.
    + rewrite !round_column, (round_cell j i0) by congruence.
      pose proof (Hst i0 j i Hd Hj Hi Hij Hik Hjk).
      name_cells; lia.
    + rewrite (round_cell j k), (round_cell j i0), (round_cell i0 k)
        by congruence.
      pose proof (Hst i0 j k Hd Hj Hk Hij Hik Hjk).
      pose proof (Hst i0 j i Hd Hj Hi Hij Hne Hji).
      pose proof (Hst i0 i k Hd Hi Hk Hne Hik (not_eq_sym Hki)).
      apply relax_arith; assumption.
Qed.
End Rounds.

Lemma round_attained cs g i s s' :
  i ∈ cs -> round_of cs i s s' -> attained cs g s -> attained cs g s'.
Proof.
  intros Hi Hround Hat j k Hj Hk Hjk.
  destruct (decide (j <> i /\ k <> i)) as [[Hji Hki]|Hno].
  - rewrite (round_cell cs i s s' Hround j k) by assumption.
    destruct (Z.max_spec (cell s j k) (Z.min (cell s j i) (cell s i k)))
      as [[_ ->]|[_ ->]]; [|apply Hat; assumption].
    destruct (Hat j i Hj Hi Hji) as (p1 & Hp1 & E1).
    destruct (Hat i k Hi Hk (not_eq_sym Hki)) as (p2 & Hp2 & E2).
    exists (p1 ++ p2). split; [exact (path_to_app cs i k p1 p2 Hp1 Hp2)|].
    rewrite (path_strength_app g j p1 p2 i);
      [rewrite E1, E2; reflexivity | apply Hp1 | exact (path_to_nonempty cs k p2 Hp2)].
  - destruct (Hround j k) as [_ H2]. rewrite H2 by tauto. apply Hat; assumption.
Qed.

Lemma attained_refl cs g : attained cs g g.
Proof.
  intros j k Hj Hk _. exists [k]. split; [|reflexivity].
  split; [reflexivity|]. intros x Hx. apply list_elem_of_singleton in Hx.
  subst x. exact Hk.
Qed.

(** In a stable matrix that dominates the graph no path beats its entry. *)
Lemma stable_bounds_paths cs g s :
  stable cs s -> (forall a b, cell g a b <= cell s a b) ->
  forall p j k, j ∈ cs -> k ∈ cs -> j <> k -> path_to cs k p ->
    path_strength g j p <= cell s j k.
Proof.
  intros Hst Hge. induction p as [|a p IH]; intros j k Hj Hk Hjk [Hlast Hin];
    [discriminate|].
  destruct p as [|b p].
  - injection Hlast as ->. simpl. apply Hge.
  - rewrite path_strength_cons by discriminate.
    assert (a ∈ cs) as Ha by (apply Hin; left).
    assert (path_to cs k (b :: p)) as Hrest.
    { split; [exact Hlast|]. intros x Hx. apply Hin. right. exact Hx. }
    destruct (decide (a = k)) as [->|Hak].
    + pose proof (Hge j k). lia.
    + pose proof (IH a k Ha Hk Hak Hrest) as Hr.
      destruct (decide (a = j)) as [->|Haj]; [lia|].
      pose proof (Hst a j k Ha Hj Hk Haj Hak Hjk).
      pose proof (Hge j a). name_cells. lia.
Qed.

(** ** The whole pass *)

Lemma relaxation_pass_closure cs g :
  NoDup cs -> complete cs g ->
  exists s,
    relaxation_pass cs g = Ok s /\ complete cs s /\ stable cs s /\
    (forall a b, cell g a b <= cell s a b) /\ attained cs g s.
Proof.
  intros Hnodup Hg. rewrite relaxation_pass_rounds.
  destruct (for_each_ind
    (fun done s => complete cs s /\ stable_through cs done s /\
                   (forall a b, cell g a b <= cell s a b) /\ attained cs g s)
    cs (relax_round cs) g) as (s & Hrun & Hc & Hst & Hge & Hat).
  - split; [exact Hg|]. split; [|split].
    + intros i j k Hi. apply elem_of_nil in Hi. contradiction.
    + intros a b. lia.
    + apply attained_refl.
  - intros done i rest s Hcs (Hc & Hst & Hge & Hat).
    assert (i ∈ cs) as Hi by (rewrite Hcs; apply elem_of_app; right; left).
    destruct (relax_round_spec cs i s Hnodup Hi Hc) as (s' & Hrun & Hc' & Hround).
    exists s'. split; [exact Hrun|]. split; [exact Hc'|]. split; [|split].
    + apply (round_stable_through cs i s s' Hi Hround); [|exact Hst].
      intros x Hx. rewrite Hcs. apply elem_of_app. left. exact Hx.
    + intros a b. pose proof (Hge a b).
      pose proof (round_grows cs i s s' Hround a b). lia.
    + exact (round_attained cs g i s s' Hi Hround Hat).
  - exists s. split; [exact Hrun|]. split; [exact Hc|].
    split; [|split; assumption].
    intros i j k Hi. apply Hst. exact Hi.
Qed.

Lemma relaxation_pass_strongest cs g s :
  NoDup cs -> complete cs g -> relaxation_pass cs g = Ok s ->
  relaxation_pass cs s = Ok s /\ strongest_paths cs g s.
Proof.
  intros Hnodup Hg Hrun.
  destruct (relaxation_pass_closure cs g Hnodup Hg) as (s' & Hrun' & Hc & Hst & Hge & Hat).
  rewrite Hrun in Hrun'. injection Hrun' as <-.
  split; [exact (relaxation_pass_stable cs s Hc Hst)|].
  intros j k Hj Hk Hjk. split.
  - intros p Hp. exact (stable_bounds_paths cs g s Hst Hge p j k Hj Hk Hjk Hp).
  - apply Hat; assumption.
Qed.

(** ** The dictionary comprehensions and the candidate set *)

Lemma lookup_comprehension {V : Type} (f : Z -> V) (cs : list Z) (c : Z) :
  (list_to_map (map (fun c => (c, f c)) cs) : gmap Z V) !! c =
    if decide (c ∈ cs) then Some (f c) else None.
Proof.
  induction cs as [|x cs IH]; cbn [map].
  - rewrite list_to_map_nil, lookup_empty.
    destruct (decide (c ∈ [])) as [H|_]; [|reflexivity].
    apply elem_of_nil in H. contradiction.
  - rewrite list_to_map_cons. cbn [fst snd].
    destruct (decide (x = c)) as [->|Hne].
    + rewrite lookup_insert_eq.
      destruct (decide (c ∈ c :: cs)) as [_|H]; [reflexivity|].
      exfalso. apply H. left.
    + rewrite lookup_insert_ne by exact Hne. rewrite IH.
      destruct (decide (c ∈ cs)) as [H|H], (decide (c ∈ x :: cs)) as [H'|H'];
        try reflexivity.
      * exfalso. apply H'. right. exact H.
      * exfalso. apply elem_of_cons in H' as [->|H']; [congruence | contradiction].
Qed.

Lemma init_pairwise_shape cs : pairwise_shape cs (init_pairwise cs).
Proof.
  intros c Hc. unfold init_pairwise.
  rewrite (lookup_comprehension
             (fun c => list_to_map (map (fun d => (d, 0))
                                        (filter (fun d => d ≠ c) cs)))).
  destruct (decide (c ∈ cs)) as [_|?]; [|contradiction].
  eexists. split; [reflexivity|]. split.
  - rewrite (lookup_comprehension (fun _ => 0)).
    destruct (decide _) as [H|_]; [|reflexivity].
    apply list_elem_of_filter in H as [H _]. congruence.
  - intros d Hd Hdc. rewrite (lookup_comprehension (fun _ => 0)).
    destruct (decide _) as [_|H]; [eauto|].
    exfalso. apply H. apply list_elem_of_filter. split; assumption.
Qed.

Lemma zero_strength_complete cs : complete cs (zero_strength cs).
Proof.
  intros c Hc. unfold zero_strength.
  rewrite (lookup_comprehension
             (fun c => list_to_map (map (fun d => (d, 0)) cs))).
  destruct (decide (c ∈ cs)) as [_|?]; [|contradiction].
  eexists. split; [reflexivity|]. intros d Hd.
  rewrite (lookup_comprehension (fun _ => 0)).
  destruct (decide _) as [_|?]; [eauto | contradiction].
Qed.

Lemma zero_strength_cell cs a b : cell (zero_strength cs) a b = 0.
Proof.
  unfold cell, zero_strength.
  rewrite (lookup_comprehension
             (fun c => list_to_map (map (fun d => (d, 0)) cs))).
  destruct (decide (a ∈ cs)); [|reflexivity].
  rewrite (lookup_comprehension (fun _ => 0)).
  destruct (decide _); reflexivity.
Qed.

Lemma elem_of_candidate_set ballots c :
  c ∈ candidate_set ballots <->
  exists ballot, ballot ∈ ballots /\ c ∈ rb_ranking ballot.
Proof.
  unfold candidate_set.
  assert (forall (s : gset Z),
            c ∈ fold_left (fun (s : gset Z) ballot =>
                             s ∪ list_to_set (rb_ranking ballot)) ballots s <->
            c ∈ s \/ exists ballot, ballot ∈ ballots /\ c ∈ rb_ranking ballot)
    as Hgen.
  { induction ballots as [|b bs IH]; intros s; simpl.
    - split; [tauto|]. intros [H|(b & Hb & _)]; [exact H|].
      apply elem_of_nil in Hb. contradiction.
    - rewrite IH, elem_of_union, elem_of_list_to_set. split.
      + intros [[H|H]|(b' & Hb' & Hc)]; [tauto | |].
        * right. exists b. split; [left | exact H].
        * right. exists b'. split; [right; exact Hb' | exact Hc].
      + intros [H|(b' & Hb' & Hc)]; [tauto|].
        apply elem_of_cons in Hb' as [->|Hb']; [tauto|].
        right. exists b'. split; assumption. }
  rewrite Hgen. split; [|tauto].
  intros [H|H]; [|exact H]. apply not_elem_of_empty in H. contradiction.
Qed.

Lemma listing_elements (s : gset Z) : listing (elements s) s.
Proof.
  split; [apply NoDup_elements|]. intros c. apply elem_of_elements.
Qed.

(** Every list the set may be turned into is among the permutations of
    one of them. *)
Lemma listing_permutations cs (s : gset Z) :
  listing cs s -> cs ∈ permutations (elements s).
Proof.
  intros [Hnodup Hmem]. apply permutations_Permutation.
  apply NoDup_Permutation; [apply NoDup_elements | exact Hnodup|].
  intros c. rewrite Hmem. apply elem_of_elements.
Qed.

(** ** Counting the preferences of a ballot *)

Lemma count_ballot_tail ranking pw : count_ballot ranking pw = count_tail ranking pw.
Proof.
  unfold count_ballot, enumerate.
  assert (forall rest pre pw,
    for_each (imap (fun i x => ((length pre + i)%nat, x)) rest)
      (fun '(i, ci) pw =>
         for_each (drop (S i) (pre ++ rest))
           (fun cj pw => n ← getitem2 pw ci cj; setitem2 pw ci cj (n + 1)) pw)
      pw = count_tail rest pw) as Hgen.
  { induction rest as [|ci rest IH]; intros pre pw0; [reflexivity|].
    rewrite imap_cons. simpl for_each. simpl count_tail.
    replace (drop (S (length pre + 0)) (pre ++ ci :: rest)) with rest.
    2:{ rewrite Nat.add_0_r. change (pre ++ ci :: rest) with (pre ++ [ci] ++ rest).
        rewrite app_assoc. rewrite drop_app_length'; [reflexivity|].
        rewrite length_app. simpl. lia. }
    fold (increment ci).
    destruct (for_each rest _ pw0) as [pw1|e]; simpl; [|reflexivity].
    rewrite <- (IH (pre ++ [ci]) pw1).
    rewrite <- (app_assoc pre [ci] rest). simpl.
    f_equal. apply imap_ext. intros i x _. simpl.
    rewrite length_app. simpl. f_equal. lia. }
  apply (Hgen ranking [] pw).
Qed.

Section Counting.
Variable cs : list Z.

Lemma increment_ok pw ci cj :
  pairwise_shape cs pw -> ci ∈ cs -> cj ∈ cs -> ci <> cj ->
  exists pw', increment ci cj pw = Ok pw' /\ pairwise_shape cs pw'.
Proof.
  intros Hpw Hci Hcj Hne. destruct (Hpw ci Hci) as (row & Hrow & Hdiag & Hcells).
  destruct (Hcells cj Hcj (not_eq_sym Hne)) as [n Hn].
  unfold increment, getitem2, setitem2, getitem. rewrite Hrow. simpl.
  rewrite Hn. simpl. eexists. split; [reflexivity|].
  intros c Hc. destruct (decide (c = ci)) as [->|Hcne].
  - rewrite lookup_insert_eq. eexists. split; [reflexivity|]. split.
    + rewrite lookup_insert_ne by congruence. exact Hdiag.
    + intros d Hd Hdc. destruct (decide (d = cj)) as [->|Hdne].
      * rewrite lookup_insert_eq. eauto.
      * rewrite lookup_insert_ne by congruence. apply Hcells; assumption.
  - rewrite lookup_insert_ne by congruence. apply Hpw, Hc.
Qed.

Lemma increment_diagonal pw c :
  pairwise_shape cs pw -> c ∈ cs -> increment c c pw = Raise (KeyError c).
Proof.
  intros Hpw Hc. destruct (Hpw c Hc) as (row & Hrow & Hdiag & _).
  unfold increment, getitem2, getitem. rewrite Hrow. simpl. rewrite Hdiag.
  reflexivity.
Qed.

Lemma increments_ok pw ci rest :
  pairwise_shape cs pw -> ci ∈ cs -> (forall x, x ∈ rest -> x ∈ cs) ->
  ci ∉ rest ->
  exists pw', for_each rest (fun cj pw => increment ci cj pw) pw = Ok pw' /\
              pairwise_shape cs pw'.
Proof.
  intros Hpw Hci Hin Hnot.
  apply (for_each_inv (pairwise_shape cs)); [exact Hpw|].
  intros cj pw0 Hcj Hpw0. apply increment_ok; [exact Hpw0 | exact Hci | |].
  - apply Hin, Hcj.
  - intros ->. contradiction.
Qed.

Lemma increments_repeat pw ci rest :
  pairwise_shape cs pw -> ci ∈ cs -> (forall x, x ∈ rest -> x ∈ cs) ->
  ci ∈ rest ->
  for_each rest (fun cj pw => increment ci cj pw) pw = Raise (KeyError ci).
Proof.
  intros Hpw Hci. revert pw Hpw.
  induction rest as [|d rest IH]; intros pw Hpw Hin Hmem;
    [apply elem_of_nil in Hmem; contradiction|].
  simpl. destruct (decide (d = ci)) as [->|Hne].
  - rewrite (increment_diagonal pw ci Hpw Hci). reflexivity.
  - destruct (increment_ok pw ci d Hpw Hci) as (pw' & Hrun & Hpw');
      [apply Hin; left | congruence |].
    rewrite Hrun. simpl. apply IH; [exact Hpw' | |].
    + intros x Hx. apply Hin. right. exact Hx.
    + apply elem_of_cons in Hmem as [->|Hmem]; [congruence | exact Hmem].
Qed.

Lemma count_tail_strict pw ranking :
  pairwise_shape cs pw -> (forall x, x ∈ ranking -> x ∈ cs) -> NoDup ranking ->
  exists pw', count_tail ranking pw = Ok pw' /\ pairwise_shape cs pw'.
Proof.
  revert pw. induction ranking as [|ci rest IH]; intros pw Hpw Hin Hnd; simpl.
  - eauto.
  - apply NoDup_cons in Hnd as [Hnot Hnd].
    destruct (increments_ok pw ci rest Hpw) as (pw' & Hrun & Hpw');
      [apply Hin; left | intros x Hx; apply Hin; right; exact Hx | exact Hnot |].
    rewrite Hrun. simpl. apply IH; [exact Hpw' | | exact Hnd].
    intros x Hx. apply Hin. right. exact Hx.
Qed.

Lemma count_tail_repeat pw ranking :
  pairwise_shape cs pw -> (forall x, x ∈ ranking -> x ∈ cs) -> ~ NoDup ranking ->
  exists x, x ∈ ranking /\ count_tail ranking pw = Raise (KeyError x).
Proof.
  revert pw. induction ranking as [|ci rest IH]; intros pw Hpw Hin Hdup; simpl.
  - exfalso. apply Hdup. constructor.
  - assert (ci ∈ cs) as Hci by (apply Hin; left).
    assert (forall x, x ∈ rest -> x ∈ cs) as Hrest
      by (intros x Hx; apply Hin; right; exact Hx).
    destruct (decide (ci ∈ rest)) as [Hmem|Hnot].
    + exists ci. split; [left|].
      rewrite (increments_repeat pw ci rest Hpw Hci Hrest Hmem). reflexivity.
    + destruct (increments_ok pw ci rest Hpw Hci Hrest Hnot) as (pw' & Hrun & Hpw').
      rewrite Hrun. simpl.
      destruct (IH pw' Hpw' Hrest) as (x & Hx & Hraise).
      * intros Hnd. apply Hdup. apply NoDup_cons. split; assumption.
      * exists x. split; [right; exact Hx | exact Hraise].
Qed.

Lemma count_preferences_strict ballots pw :
  pairwise_shape cs pw ->
  (forall b x, b ∈ ballots -> x ∈ rb_ranking b -> x ∈ cs) ->
  Forall strict_order ballots ->
  exists pw', count_preferences ballots pw = Ok pw' /\ pairwise_shape cs pw'.
Proof.
  intros Hpw Hin Hall. unfold count_preferences.
  apply (for_each_inv (pairwise_shape cs)); [exact Hpw|].
  intros b pw0 Hb Hpw0. rewrite count_ballot_tail.
  apply count_tail_strict; [exact Hpw0 | intros x; apply Hin, Hb |].
  rewrite Forall_forall in Hall. apply Hall, Hb.
Qed.

Lemma count_preferences_repeat ballots pw :
  pairwise_shape cs pw ->
  (forall b x, b ∈ ballots -> x ∈ rb_ranking b -> x ∈ cs) ->
  ~ Forall strict_order ballots ->
  exists x, count_preferences ballots pw = Raise (KeyError x).
Proof.
  unfold count_preferences. revert pw.
  induction ballots as [|b bs IH]; intros pw Hpw Hin Hnot; simpl.
  - exfalso. apply Hnot. constructor.
  - rewrite count_ballot_tail.
    assert (forall x, x ∈ rb_ranking b -> x ∈ cs) as Hb
      by (intros x; apply Hin; left).
    destruct (NoDup_dec (rb_ranking b)) as [Hnd|Hdup].
    + destruct (count_tail_strict pw _ Hpw Hb Hnd) as (pw' & Hrun & Hpw').
      rewrite Hrun. simpl. apply IH; [exact Hpw' | |].
      * intros b' x Hb'. apply Hin. right. exact Hb'.
      * intros Hall. apply Hnot. constructor; assumption.
    + destruct (count_tail_repeat pw _ Hpw Hb Hdup) as (x & _ & Hraise).
      exists x. rewrite Hraise. reflexivity.
Qed.
End Counting.

(** ** The strict-majority graph *)

Lemma getitem2_shape cs pw c d :
  pairwise_shape cs pw -> c ∈ cs -> d ∈ cs -> c <> d ->
  getitem2 pw c d = Ok (cell pw c d).
Proof.
  intros Hpw Hc Hd Hne. destruct (Hpw c Hc) as (row & Hrow & _ & Hcells).
  destruct (Hcells d Hd (not_eq_sym Hne)) as [n Hn].
  unfold getitem2, getitem, cell. rewrite Hrow. simpl. rewrite Hn. reflexivity.
Qed.

Section MajorityEdges.
Variables (cs : list Z) (pw : gmap Z (gmap Z Z)).
Hypothesis (Hnodup : NoDup cs) (Hpw : pairwise_shape cs pw).

Lemma edge_step rows c cols d rest s :
  cs = cols ++ d :: rest -> c ∈ cs -> c ∉ rows ->
  edge_inv cs pw rows c cols s ->
  exists s',
    (if decide (c ≠ d) then
       pcd ← getitem2 pw c d;
       pdc ← getitem2 pw d c;
       if decide (pcd > pdc) then v ← getitem2 pw c d; setitem2 s c d v
       else Ok s
     else Ok s) = Ok s' /\
    edge_inv cs pw rows c (cols ++ [d]) s'.
Proof.
  intros Hcs Hc Hcrows [Hcomp Hcells].
  assert (d ∈ cs) as Hd by (rewrite Hcs; apply elem_of_app; right; left).
  assert (d ∉ cols) as Hdcols
    by (apply (NoDup_split_notin cols rest); rewrite <- Hcs; exact Hnodup).
  assert (cell s c d = 0) as Hzero.
  { apply Hcells. unfold edge_written. intros [[? _]|[_ ?]]; contradiction. }
  assert (forall s',
            complete cs s' -> cell s' c d = majority_target pw c d ->
            (forall a b, (a, b) <> (c, d) -> cell s' a b = cell s a b) ->
            edge_inv cs pw rows c (cols ++ [d]) s') as Hclose.
  { intros s' Hcomp' Hcd Hoth. split; [exact Hcomp'|]. intros a b.
    destruct (decide ((a, b) = (c, d))) as [[= -> ->]|Hab].
    - split; [intros _; exact Hcd|]. intros Hw. exfalso. apply Hw.
      right. split; [reflexivity | apply elem_of_app; right; left].
    - rewrite (Hoth a b Hab). destruct (Hcells a b) as [H1 H2]. split.
      + intros [Hw|[-> Hw]]; [apply H1; left; exact Hw|].
        apply elem_of_app in Hw as [Hw|Hw]; [apply H1; right; tauto|].
        apply list_elem_of_singleton in Hw. subst b. congruence.
      + intros Hw. apply H2. intros [Hw'|[-> Hw']]; apply Hw;
          [left; exact Hw'|].
        right. split; [reflexivity | apply elem_of_app; left; exact Hw']. }
  destruct (decide (c ≠ d)) as [Hne|Heq].
  - rewrite (getitem2_shape cs pw c d), (getitem2_shape cs pw d c)
      by (try assumption; congruence).
    simpl. destruct (decide (cell pw c d > cell pw d c)) as [Hgt|Hle].
    + simpl.
      destruct (setitem2_complete cs s c d (cell pw c d) Hcomp Hc)
        as (s' & Hrun & Hcomp' & Hcd & Hoth).
      exists s'. split; [exact Hrun|]. apply Hclose; [exact Hcomp' | | exact Hoth].
      rewrite Hcd. unfold majority_target.
      destruct (decide _) as [_|Hno]; [reflexivity | tauto].
    + exists s. split; [reflexivity|]. apply Hclose; [exact Hcomp | | reflexivity].
      rewrite Hzero. unfold majority_target.
      destruct (decide _) as [[_ ?]|_]; [contradiction | reflexivity].
  - exists s. split; [reflexivity|]. apply Hclose; [exact Hcomp | | reflexivity].
    rewrite Hzero. unfold majority_target.
    destruct (decide _) as [[? _]|_]; [contradiction | reflexivity].
Qed.

Lemma majority_edges_spec :
  exists g, majority_edges cs pw (zero_strength cs) = Ok g /\
            complete cs g /\ majority_graph cs pw g.
Proof.
  unfold majority_edges.
  destruct (for_each_ind (fun rows s => edge_inv cs pw rows 0 [] s) cs
    (fun c s =>
       for_each cs
         (fun d s =>
            if decide (c ≠ d) then
              pcd ← getitem2 pw c d;
              pdc ← getitem2 pw d c;
              if decide (pcd > pdc) then v ← getitem2 pw c d; setitem2 s c d v
              else Ok s
            else Ok s) s)
    (zero_strength cs)) as (g & Hrun & Hcomp & Hcells).
  - split; [apply zero_strength_complete|]. intros a b.
    split; [|intros _; apply zero_strength_cell].
    intros [[Hnil _]|[_ Hnil]]; apply elem_of_nil in Hnil; contradiction.
  - intros rows c rest s Hcs [Hcomp Hcells].
    assert (c ∈ cs) as Hc by (rewrite Hcs; apply elem_of_app; right; left).
    assert (c ∉ rows) as Hcrows
      by (apply (NoDup_split_notin rows rest); rewrite <- Hcs; exact Hnodup).
    destruct (for_each_ind (fun cols s => edge_inv cs pw rows c cols s) cs
      (fun d s =>
         if decide (c ≠ d) then
           pcd ← getitem2 pw c d;
           pdc ← getitem2 pw d c;
           if decide (pcd > pdc) then v ← getitem2 pw c d; setitem2 s c d v
           else Ok s
         else Ok s) s) as (s' & Hrun & Hcomp' & Hcells').
    + split; [exact Hcomp|]. intros a b. destruct (Hcells a b) as [H1 H2].
      split.
      * intros [Hw|[_ Hnil]]; [apply H1; left; exact Hw|].
        apply elem_of_nil in Hnil. contradiction.
      * intros Hw. apply H2. intros [Hw'|[_ Hnil]]; [apply Hw; left; exact Hw'|].
        apply elem_of_nil in Hnil. contradiction.
    + intros cols d rest' s1 Hcs' Hinv1.
      apply (edge_step rows c cols d rest'); assumption.
    + exists s'. split; [exact Hrun|]. split; [exact Hcomp'|].
      intros a b. destruct (Hcells' a b) as [H1 H2]. split.
      * intros [[Hw Hb]|[_ Hnil]]; [|apply elem_of_nil in Hnil; contradiction].
        apply H1. apply elem_of_app in Hw as [Hw|Hw]; [left; tauto|].
        apply list_elem_of_singleton in Hw. right. tauto.
      * intros Hw. apply H2. intros [[Hw' Hb]|[-> Hw']]; apply Hw; left.
        -- split; [apply elem_of_app; left; exact Hw' | exact Hb].
        -- split; [apply elem_of_app; right; left | exact Hw'].
  - exists g. split; [exact Hrun|]. split; [exact Hcomp|].
    intros c d Hc Hd. apply Hcells. left. split; assumption.
Qed.
End MajorityEdges.

(** ** Selecting the winners *)

Lemma beats_all_spec cs s c ds :
  complete cs s -> c ∈ cs -> (forall d, d ∈ ds -> d ∈ cs) ->
  exists b, beats_all s c ds = Ok b /\
            (b = true <-> forall d, d ∈ ds -> d <> c -> cell s c d >= cell s d c).
Proof.
  intros Hcomp Hc. induction ds as [|d ds IH]; intros Hin; simpl.
  - exists true. split; [reflexivity|]. split; [|reflexivity].
    intros _ d Hd. apply elem_of_nil in Hd. contradiction.
  - assert (d ∈ cs) as Hd by (apply Hin; left).
    destruct IH as (b & Hb & Hiff); [intros x Hx; apply Hin; right; exact Hx|].
    destruct (decide (d ≠ c)) as [Hne|Heq].
    + rewrite (getitem2_complete cs s c d), (getitem2_complete cs s d c)
        by assumption.
      simpl. destruct (decide (cell s c d >= cell s d c)) as [Hge|Hlt].
      * exists b. split; [exact Hb|]. rewrite Hiff. split.
        -- intros H x Hx Hxc. apply elem_of_cons in Hx as [->|Hx];
             [exact Hge | apply H; assumption].
        -- intros H x Hx. apply H. right. exact Hx.
      * exists false. split; [reflexivity|]. split; [discriminate|].
        intros H. exfalso. apply Hlt. apply H; [left | exact Hne].
    + exists b. split; [exact Hb|]. rewrite Hiff. split.
      * intros H x Hx Hxc. apply elem_of_cons in Hx as [->|Hx];
          [contradiction | apply H; assumption].
      * intros H x Hx. apply H. right. exact Hx.
Qed.

Lemma select_winners_spec cs s :
  complete cs s ->
  exists winners,
    select_winners cs s = Ok winners /\ winners `sublist_of` cs /\
    forall c, c ∈ winners <-> c ∈ cs /\ unbeaten cs s c.
Proof.
  intros Hcomp. unfold select_winners.
  destruct (for_each_ind
    (fun done winners =>
       winners `sublist_of` done /\
       forall c, c ∈ winners <-> c ∈ done /\ unbeaten cs s c)
    cs
    (fun c winners =>
       b ← beats_all s c cs; Ok (if b : bool then winners ++ [c] else winners))
    []) as (winners & Hrun & Hsub & Hmem).
  - split; [constructor|]. intros c. split; [|tauto].
    intros H. apply elem_of_nil in H. contradiction.
  - intros done c rest winners Hcs [Hsub Hmem].
    assert (c ∈ cs) as Hc by (rewrite Hcs; apply elem_of_app; right; left).
    destruct (beats_all_spec cs s c cs Hcomp Hc) as (b & Hb & Hiff); [tauto|].
    rewrite Hb. simpl. eexists. split; [reflexivity|].
    destruct b.
    + split; [apply sublist_app; [exact Hsub | reflexivity]|].
      intros x. rewrite !elem_of_app, Hmem, list_elem_of_singleton. split.
      * intros [[? ?]| ->]; [tauto|]. split; [tauto|].
        exact (proj1 Hiff eq_refl).
      * intros [[?| ->] ?]; tauto.
    + split; [apply sublist_inserts_r; exact Hsub|].
      intros x. rewrite elem_of_app, Hmem, list_elem_of_singleton. split.
      * tauto.
      * intros [[?| ->] Hun]; [tauto|]. exfalso.
        pose proof (proj2 Hiff Hun). discriminate.
  - exists winners. split; [exact Hrun|]. split; assumption.
Qed.

(** ** The resolver as a whole *)

Section Resolver.
Variables (st : Store) (cs : list Z).
Hypothesis Hcs : listing cs (universe st).

Lemma rankings_within :
  forall b x, b ∈ ranked_ballots st -> x ∈ rb_ranking b -> x ∈ cs.
Proof.
  intros b x Hb Hx. apply Hcs. apply elem_of_candidate_set.
  exists b. split; assumption.
Qed.

Lemma pairwise_of_strict :
  Forall strict_order (ranked_ballots st) ->
  exists pw, pairwise_of cs st = Ok pw /\ pairwise_shape cs pw.
Proof.
  intros Hall. apply count_preferences_strict;
    [apply init_pairwise_shape | apply rankings_within | exact Hall].
Qed.

Lemma pairwise_of_repeat :
  ~ Forall strict_order (ranked_ballots st) ->
  exists x, pairwise_of cs st = Raise (KeyError x).
Proof.
  intros Hnot. apply (count_preferences_repeat cs);
    [apply init_pairwise_shape | apply rankings_within | exact Hnot].
Qed.

Lemma pairwise_of_ok pw :
  pairwise_of cs st = Ok pw ->
  Forall strict_order (ranked_ballots st) /\ pairwise_shape cs pw.
Proof.
  intros Hpw.
  destruct (decide (Forall strict_order (ranked_ballots st))) as [Hall|Hnot].
  - split; [exact Hall|].
    destruct (pairwise_of_strict Hall) as (pw' & Hpw' & Hshape).
    rewrite Hpw in Hpw'. injection Hpw' as <-. exact Hshape.
  - destruct (pairwise_of_repeat Hnot) as (x & Hx).
    rewrite Hpw in Hx. discriminate.
Qed.
End Resolver.

(** The resolver from the pairwise matrix on, which cannot fail. *)
Lemma schulze_from_pairwise cs pw :
  NoDup cs -> pairwise_shape cs pw ->
  exists g s winners,
    majority_edges cs pw (zero_strength cs) = Ok g /\
    complete cs g /\ majority_graph cs pw g /\
    relaxation_pass cs g = Ok s /\ complete cs s /\
    schulze_strength cs pw = Ok s /\
    select_winners cs s = Ok winners /\ winners `sublist_of` cs /\
    forall c, c ∈ winners <-> c ∈ cs /\ unbeaten cs s c.
Proof.
  intros Hnodup Hshape.
  destruct (majority_edges_spec cs pw Hnodup Hshape) as (g & Hg & Hgc & Hgm).
  destruct (relaxation_pass_closure cs g Hnodup Hgc) as (s & Hs & Hsc & _).
  destruct (select_winners_spec cs s Hsc) as (ws & Hws & Hsub & Hmem).
  exists g, s, ws. unfold schulze_strength. rewrite Hg. simpl.
  repeat split; try assumption; apply Hmem; assumption.
Qed.

Lemma schulze_winner_unfold cs st :
  ranked_ballots st <> [] ->
  schulze_winner cs st =
    (pairwise ← pairwise_of cs st;
     strength ← schulze_strength cs pairwise;
     winners ← select_winners cs strength;
     Ok {| sr_winners := winners; sr_audit_trail := pairwise |}).
Proof.
  unfold schulze_winner. destruct (ranked_ballots st) eqn:E; [congruence|].
  intros _. unfold pairwise_of. rewrite E. reflexivity.
Qed.

(** The lists a concrete universe may be turned into. *)
Lemma listing_cases cs (s : gset Z) (ls : list (list Z)) :
  permutations (elements s) = ls -> listing cs s -> cs ∈ ls.
Proof. intros <-. apply listing_permutations. Qed.

(** C1. For every set of stored ranked ballots, and whatever list the
    candidate set is turned into, the strength matrix that the single
    triple-nested pass of [schulze_winner] produces from the strict-majority
    pairwise graph is the stable fixed point of the relaxation: a further
    pass returns the very same matrix, no entry can be improved through any
    intermediate, and every entry between distinct candidates is the max-min
    strength of the strongest path between them (it bounds every path and
    is attained by one).  The matrix is produced whenever no ranking repeats
    a candidate. *)
Theorem single_pass_is_the_closure (st : Store) (cs : list Z) :
  listing cs (universe st) ->
  (Forall strict_order (ranked_ballots st) ->
   exists pw s, pairwise_of cs st = Ok pw /\ schulze_strength cs pw = Ok s) /\
  (forall pw s,
     pairwise_of cs st = Ok pw ->
     schulze_strength cs pw = Ok s ->
     exists g,
       majority_edges cs pw (zero_strength cs) = Ok g /\
       majority_graph cs pw g /\
       relaxation_pass cs g = Ok s /\
       relaxation_pass cs s = Ok s /\
       stable cs s /\
       strongest_paths cs g s).
Proof.
  intros Hcs. pose proof (proj1 Hcs) as Hnodup. split.
  - intros Hall. destruct (pairwise_of_strict st cs Hcs Hall) as (pw & Hpw & Hshape).
    destruct (schulze_from_pairwise cs pw Hnodup Hshape)
      as (g & s & ws & _ & _ & _ & _ & _ & Hs & _).
    exists pw, s. split; assumption.
  - intros pw s Hpw Hs. destruct (pairwise_of_ok st cs Hcs pw Hpw) as [_ Hshape].
    destruct (schulze_from_pairwise cs pw Hnodup Hshape)
      as (g & s' & ws & Hg & Hgc & Hgm & Hpass & Hsc & Hs' & _).
    rewrite Hs in Hs'. injection Hs' as <-.
    destruct (relaxation_pass_closure cs g Hnodup Hgc)
      as (s' & Hpass' & _ & Hst & _).
    rewrite Hpass in Hpass'. injection Hpass' as <-.
    destruct (relaxation_pass_strongest cs g s Hnodup Hgc Hpass) as [Hfix Hstrong].
    exists g. repeat split; try assumption; apply Hstrong; assumption.
Qed.

(** The cyclic election: A has no majority over C, and the path through B
    gives strength 2. *)
Lemma single_pass_is_the_closure_witness :
  (listing [1; 2; 3] (universe cycle_store) /\
   Forall strict_order (ranked_ballots cycle_store)) /\
  exists pw s g,
    pairwise_of [1; 2; 3] cycle_store = Ok pw /\
    schulze_strength [1; 2; 3] pw = Ok s /\
    majority_edges [1; 2; 3] pw (zero_strength [1; 2; 3]) = Ok g /\
    cell g 1 3 = 0 /\ cell s 1 3 = 2 /\
    relaxation_pass [1; 2; 3] s = Ok s.
Proof.
  assert (listing [1; 2; 3] (universe cycle_store)) as Hcs.
  { split; [apply (bool_decide_unpack _); vm_compute; exact I|].
    intros c. rewrite <- elem_of_elements.
    replace (elements (universe cycle_store)) with [3; 2; 1]
      by (vm_compute; reflexivity).
    rewrite !elem_of_cons. split.
    - intros [->|[->|[->|H]]]; [tauto | tauto | tauto |].
      apply elem_of_nil in H. contradiction.
    - intros [->|[->|[->|H]]]; [tauto | tauto | tauto |].
      apply elem_of_nil in H. contradiction. }
  assert (Forall strict_order (ranked_ballots cycle_store)) as Hall.
  { apply (bool_decide_unpack _). vm_compute. exact I. }
  split; [split; assumption|].
  destruct (single_pass_is_the_closure cycle_store [1; 2; 3] Hcs) as [Hex Hprop].
  destruct (Hex Hall) as (pw & s & Hpw & Hs).
  destruct (Hprop pw s Hpw Hs) as (g & Hg & _ & Hpass & Hfix & _).
  exists pw, s, g. split; [exact Hpw|]. split; [exact Hs|]. split; [exact Hg|].
  assert (pairwise_of [1; 2; 3] cycle_store = Ok pw ->
          majority_edges [1; 2; 3] pw (zero_strength [1; 2; 3]) = Ok g ->
          relaxation_pass [1; 2; 3] g = Ok s ->
          cell g 1 3 = 0 /\ cell s 1 3 = 2) as Hval.
  { clear. intros Hpw Hg Hs. vm_compute in Hpw. injection Hpw as <-.
    vm_compute in Hg. injection Hg as <-.
    vm_compute in Hs. injection Hs as <-. split; vm_compute; reflexivity. }
  destruct (Hval Hpw Hg Hpass) as [H1 H2].
  split; [exact H1|]. split; [exact H2 | exact Hfix].
Defined.

Lemma schulze_winner_general (st : Store) (cs : list Z) :
  ranked_ballots st <> [] ->
  listing cs (universe st) ->
  ((exists r, schulze_winner cs st = Ok r) <->
   Forall strict_order (ranked_ballots st)) /\
  (forall r,
     schulze_winner cs st = Ok r ->
     exists s,
       pairwise_of cs st = Ok (sr_audit_trail r) /\
       schulze_strength cs (sr_audit_trail r) = Ok s /\
       complete cs s /\
       sr_winners r `sublist_of` cs /\
       forall c, c ∈ sr_winners r <->
                 c ∈ cs /\
                 forall d, d ∈ cs -> d <> c -> cell s c d >= cell s d c).
Proof.
  intros Hne Hcs. rewrite (schulze_winner_unfold cs st Hne).
  pose proof (proj1 Hcs) as Hnodup.
  destruct (pairwise_of cs st) as [pw|e] eqn:Hpw; simpl.
  - destruct (pairwise_of_ok st cs Hcs pw Hpw) as [Hall Hshape].
    destruct (schulze_from_pairwise cs pw Hnodup Hshape)
      as (g & s & ws & _ & _ & _ & _ & Hsc & Hs & Hws & Hsub & Hmem).
    rewrite Hs. simpl. rewrite Hws. simpl. split.
    + split; [intros _; exact Hall | intros _; eexists; reflexivity].
    + intros r [= <-]. simpl. exists s.
      repeat split; try assumption; apply Hmem; assumption.
  - split.
    + split; [intros [r Hr]; discriminate|]. intros Hall.
      destruct (pairwise_of_strict st cs Hcs Hall) as (pw & Hpw' & _).
      rewrite Hpw in Hpw'. discriminate.
    + intros r Hr. discriminate.
Qed.

(** The two example elections, whatever list the candidate set becomes. *)
Lemma cycle_election (cs : list Z) :
  listing cs (universe cycle_store) ->
  exists r,
    schulze_winner cs cycle_store = Ok r /\
    cell (sr_audit_trail r) 1 2 = 2 /\ cell (sr_audit_trail r) 2 1 = 1 /\
    cell (sr_audit_trail r) 2 3 = 2 /\ cell (sr_audit_trail r) 3 2 = 1 /\
    cell (sr_audit_trail r) 3 1 = 2 /\ cell (sr_audit_trail r) 1 3 = 1 /\
    forall c, c ∈ sr_winners r <-> c = 1 \/ c = 2 \/ c = 3.
Proof.
  intros Hcs.
  apply (listing_cases cs _ [[3; 2; 1]; [2; 3; 1]; [2; 1; 3];
                              [3; 1; 2]; [1; 3; 2]; [1; 2; 3]]) in Hcs;
    [|vm_compute; reflexivity].
  repeat (apply elem_of_cons in Hcs as [->|Hcs]);
    [..|apply elem_of_nil in Hcs; contradiction];
    (destruct (schulze_winner _ cycle_store) as [r|e] eqn:E; vm_compute in E;
       [|discriminate]);
    injection E as <-; (eexists; split; [reflexivity|]);
    repeat (split; [vm_compute; reflexivity|]);
    intros c; cbn [sr_winners]; rewrite !elem_of_cons, elem_of_nil; tauto.
Qed.

Lemma landslide_election (cs : list Z) :
  listing cs (universe landslide_store) ->
  exists r, schulze_winner cs landslide_store = Ok r /\ sr_winners r = [1].
Proof.
  intros Hcs.
  apply (listing_cases cs _ [[3; 2; 1]; [2; 3; 1]; [2; 1; 3];
                              [3; 1; 2]; [1; 3; 2]; [1; 2; 3]]) in Hcs;
    [|vm_compute; reflexivity].
  repeat (apply elem_of_cons in Hcs as [->|Hcs]);
    [..|apply elem_of_nil in Hcs; contradiction];
    (destruct (schulze_winner _ landslide_store) as [r|e] eqn:E;
       vm_compute in E; [|discriminate]);
    injection E as <-; eexists; split; reflexivity.
Qed.

(** C2. For every non-empty set of ranked ballots, and whatever list the
    candidate set is turned into, the winners [schulze_winner] returns are
    exactly the candidates [c] of the universe with
    [strength[c][d] >= strength[d][c]] for every other candidate [d] of the
    universe, in the order of that list, next to the pairwise matrix; it
    returns just when no ranking repeats a candidate.  For the ballots
    [A,B,C], [B,C,A], [C,A,B] (A, B, C being 1, 2, 3) the audit trail has
    A>B=2, B>A=1, B>C=2, C>B=1, C>A=2, A>C=1 and all three win; for
    [A,B,C], [A,C,B], [A,B,C] the sole winner is A. *)
Theorem schulze_winner_returns_the_unbeaten :
  (forall (st : Store) (cs : list Z),
     ranked_ballots st <> [] ->
     listing cs (universe st) ->
     ((exists r, schulze_winner cs st = Ok r) <->
      Forall strict_order (ranked_ballots st)) /\
     (forall r,
        schulze_winner cs st = Ok r ->
        exists s,
          pairwise_of cs st = Ok (sr_audit_trail r) /\
          schulze_strength cs (sr_audit_trail r) = Ok s /\
          complete cs s /\
          sr_winners r `sublist_of` cs /\
          forall c, c ∈ sr_winners r <->
                    c ∈ cs /\
                    forall d, d ∈ cs -> d <> c -> cell s c d >= cell s d c)) /\
  (forall cs,
     listing cs (universe cycle_store) ->
     exists r,
       schulze_winner cs cycle_store = Ok r /\
       cell (sr_audit_trail r) 1 2 = 2 /\ cell (sr_audit_trail r) 2 1 = 1 /\
       cell (sr_audit_trail r) 2 3 = 2 /\ cell (sr_audit_trail r) 3 2 = 1 /\
       cell (sr_audit_trail r) 3 1 = 2 /\ cell (sr_audit_trail r) 1 3 = 1 /\
       forall c, c ∈ sr_winners r <-> c = 1 \/ c = 2 \/ c = 3) /\
  (forall cs,
     listing cs (universe landslide_store) ->
     exists r, schulze_winner cs landslide_store = Ok r /\ sr_winners r = [1]).
Proof.
  split; [exact schulze_winner_general|].
  split; [exact cycle_election | exact landslide_election].
Qed.

(** The cyclic election, listed as [elements] lists it. *)
Lemma schulze_winner_returns_the_unbeaten_witness :
  (ranked_ballots cycle_store <> [] /\
   listing (elements (universe cycle_store)) (universe cycle_store)) /\
  exists r, schulze_winner (elements (universe cycle_store)) cycle_store = Ok r /\
            forall c, c ∈ sr_winners r <-> c = 1 \/ c = 2 \/ c = 3.
Proof.
  assert (ranked_ballots cycle_store <> []) as Hne by (vm_compute; discriminate).
  pose proof (listing_elements (universe cycle_store)) as Hcs.
  split; [split; assumption|].
  destruct schulze_winner_returns_the_unbeaten as (_ & Hcycle & _).
  destruct (Hcycle _ Hcs) as (r & Hr & _ & _ & _ & _ & _ & _ & Hw).
  exists r. split; [exact Hr | exact Hw].
Defined.

(** C3. [submit_ranked_ballot] accepts the ballot of voter 1 with ranking
    [1, 1]; on the store that holds it the ballot set is non-empty, the
    candidate list can only be [1], and [schulze_winner] does not return:
    counting the preferences raises [KeyError(1)], the row of a candidate
    in the pairwise matrix having no entry for the candidate itself.  A
    ballot with an empty ranking is harmless: the resolver returns no winner
    and an empty audit trail. *)
Theorem schulze_winner_fails_on_a_repeated_candidate :
  submit_ranked_ballot {| rb_voter_id := 1; rb_ranking := [1; 1] |} empty_store
    = (repeated_store, Ok 1%nat) /\
  ranked_ballots repeated_store <> [] /\
  permutations (elements (universe repeated_store)) = [[1]] /\
  schulze_winner [1] repeated_store = Raise (KeyError 1) /\
  permutations (elements (universe blank_store)) = [[]] /\
  schulze_winner [] blank_store = Ok {| sr_winners := []; sr_audit_trail := ∅ |}.
Proof.
  split; [reflexivity|]. split; [vm_compute; discriminate|].
  repeat split; vm_compute; reflexivity.
Qed.

(** * Further properties of the handlers *)

(** ** The homomorphic tally *)

Lemma tally_total_perm (l1 l2 : list Z) :
  l1 ≡ₚ l2 -> foldr Z.add 0 l1 = foldr Z.add 0 l2.
Proof. induction 1; simpl; lia. Qed.

Lemma tally_total_insert_fresh (tally : gmap Z Z) (k v : Z) :
  tally !! k = None -> tally_total (<[k := v]> tally) = v + tally_total tally.
Proof.
  intros Hk. unfold tally_total.
  rewrite (tally_total_perm _ (v :: (map_to_list tally).*2)); [reflexivity|].
  change (v :: (map_to_list tally).*2) with (((k, v) :: map_to_list tally).*2).
  apply fmap_Permutation. apply map_to_list_insert. exact Hk.
Qed.

Lemma tally_total_bump (tally : gmap Z Z) (k : Z) :
  tally_total (<[k := default 0 (tally !! k) + 1]> tally) = tally_total tally + 1.
Proof.
  destruct (tally !! k) as [v|] eqn:Hk; simpl.
  - rewrite <- (insert_delete_eq tally k (v + 1)).
    rewrite tally_total_insert_fresh by apply lookup_delete_eq.
    rewrite <- (insert_delete_id tally k v Hk) at 2.
    rewrite tally_total_insert_fresh by apply lookup_delete_eq. lia.
  - rewrite tally_total_insert_fresh by exact Hk. lia.
Qed.

Lemma count_ballots_lookup ballots (tally : gmap Z Z) (c : Z) :
  default 0 (count_ballots ballots tally !! c) =
    default 0 (tally !! c)
    + Z.of_nat (length (filter (fun b => eb_candidate_id b = c) ballots)).
Proof.
  revert tally. induction ballots as [|b ballots IH]; intros tally; simpl.
  - lia.
  - unfold count_ballots in *. simpl. rewrite IH. rewrite filter_cons.
    destruct (decide (eb_candidate_id b = c)) as [->|Hne].
    + rewrite lookup_insert_eq. simpl. lia.
    + rewrite lookup_insert_ne by exact Hne. lia.
Qed.

Lemma count_ballots_keys ballots (tally : gmap Z Z) (c : Z) :
  is_Some (count_ballots ballots tally !! c) <->
  is_Some (tally !! c) \/ exists b, b ∈ ballots /\ eb_candidate_id b = c.
Proof.
  revert tally. induction ballots as [|b ballots IH]; intros tally; simpl.
  - split; [tauto|]. intros [H|(b & Hb & _)]; [exact H|].
    apply elem_of_nil in Hb. contradiction.
  - unfold count_ballots in *. simpl. rewrite IH. split.
    + intros [H|(b' & Hb' & Hc)].
      * destruct (decide (eb_candidate_id b = c)) as [Heq|Hne].
        -- right. exists b. split; [left | exact Heq].
        -- left. rewrite lookup_insert_ne in H by exact Hne. exact H.
      * right. exists b'. split; [right; exact Hb' | exact Hc].
    + intros [H|(b' & Hb' & Hc)].
      * left. destruct (decide (eb_candidate_id b = c)) as [->|Hne].
        -- rewrite lookup_insert_eq. eauto.
        -- rewrite lookup_insert_ne by exact Hne. exact H.
      * apply elem_of_cons in Hb' as [->|Hb'].
        -- left. rewrite Hc, lookup_insert_eq. eauto.
        -- right. exists b'. split; assumption.
Qed.

Lemma count_ballots_total ballots (tally : gmap Z Z) :
  tally_total (count_ballots ballots tally) =
    tally_total tally + Z.of_nat (length ballots).
Proof.
  revert tally. induction ballots as [|b ballots IH]; intros tally; simpl.
  - lia.
  - unfold count_ballots in *. simpl. rewrite IH, tally_total_bump. lia.
Qed.

(** X1. [homomorphic_tally] fails, with the 404 for no ballots, exactly
    when no encrypted ballot is stored.  Otherwise it returns the number of
    stored ballots and a tally that holds for each candidate the number of
    stored ballots naming it, has an entry for exactly the candidates some
    ballot names, and sums to the number of ballots. *)
Theorem homomorphic_tally_counts (st : Store) :
  (failed (homomorphic_tally st) <-> encrypted_ballots st = []) /\
  (encrypted_ballots st <> [] ->
   exists r,
     homomorphic_tally st = Ok r /\
     hr_total_ballots r = length (encrypted_ballots st) /\
     (forall c, default 0 (hr_tally r !! c) =
                Z.of_nat (length (matching_ballots st c))) /\
     (forall c, is_Some (hr_tally r !! c) <->
                exists b, b ∈ encrypted_ballots st /\ eb_candidate_id b = c) /\
     tally_total (hr_tally r) = Z.of_nat (hr_total_ballots r)).
Proof.
  unfold homomorphic_tally.
  destruct (encrypted_ballots st) as [|b bs] eqn:E.
  - split; [split; [reflexivity | intros _; eexists; reflexivity]|].
    intros H. congruence.
  - split; [split; [intros [e He]; discriminate | discriminate]|].
    intros _. eexists. split; [reflexivity|]. cbn [hr_total_ballots hr_tally].
    split; [reflexivity|]. split; [|split].
    + intros c. rewrite count_ballots_lookup, lookup_empty.
      unfold matching_ballots. rewrite E. simpl. lia.
    + intros c. rewrite count_ballots_keys, lookup_empty. split.
      * intros [[x Hx]|H]; [discriminate | exact H].
      * intros H. right. exact H.
    + rewrite count_ballots_total. unfold tally_total.
      rewrite map_to_list_empty. simpl. lia.
Qed.

Lemma homomorphic_tally_counts_witness :
  encrypted_ballots encrypted_store <> [] /\
  exists r,
    homomorphic_tally encrypted_store = Ok r /\
    default 0 (hr_tally r !! 7) = 2 /\ hr_tally r !! 9 = None /\
    tally_total (hr_tally r) = 3.
Proof.
  assert (encrypted_ballots encrypted_store <> []) as Hne
    by (vm_compute; discriminate).
  split; [exact Hne|].
  destruct (homomorphic_tally_counts encrypted_store) as [_ Hok].
  destruct (Hok Hne) as (r & Hr & Hlen & Hcount & Hkeys & Htotal).
  exists r. split; [exact Hr|]. split; [|split].
  - rewrite Hcount. vm_compute. reflexivity.
  - destruct (hr_tally r !! 9) eqn:E9; [|reflexivity]. exfalso.
    destruct (proj1 (Hkeys 9)) as (b & Hb & Hc); [eauto|].
    vm_compute in Hb.
    repeat (apply elem_of_cons in Hb as [->|Hb]; [simpl in Hc; lia|]).
    apply elem_of_nil in Hb. contradiction.
  - rewrite Htotal, Hlen. vm_compute. reflexivity.
Defined.

(** X2. On a store where [homomorphic_tally] returns, whenever
    [differential_privacy_query] returns, its [true_count] for a candidate
    is the entry of that candidate in the homomorphic tally, 0 where the
    tally has none, and lies between 0 and [total_ballots]. *)
Theorem noised_counter_agrees_with_tally
  (gauss : Z -> float -> float) (query : DPQuery) (st : Store)
  (h : HomomorphicResult) (r : DPResult) :
  homomorphic_tally st = Ok h ->
  differential_privacy_query gauss query st = Ok r ->
  dpr_true_count r = default 0 (hr_tally h !! dp_candidate_id query) /\
  0 <= dpr_true_count r <= Z.of_nat (hr_total_ballots h).
Proof.
  intros Hh Hr.
  destruct (differential_privacy_query_general gauss query st)
    as (sigma & _ & _ & _ & _ & _ & Hok).
  destruct (Hok r Hr) as [-> _].
  assert (hr_tally h = count_ballots (encrypted_ballots st) ∅ /\
          hr_total_ballots h = length (encrypted_ballots st)) as [-> ->].
  { unfold homomorphic_tally in Hh.
    destruct (encrypted_ballots st) as [|b bs]; [discriminate|].
    injection Hh as <-. split; reflexivity. }
  rewrite count_ballots_lookup, lookup_empty. unfold matching_ballots.
  split; [simpl; lia|].
  pose proof (length_filter
                (fun b => eb_candidate_id b = dp_candidate_id query)
                (encrypted_ballots st)). lia.
Qed.

Lemma noised_counter_agrees_with_tally_witness :
  exists h r,
    homomorphic_tally encrypted_store = Ok h /\
    differential_privacy_query gauss_low (dp_query 7 float_one)
      encrypted_store = Ok r /\
    dpr_true_count r = default 0 (hr_tally h !! 7).
Proof.
  destruct (homomorphic_tally encrypted_store) as [h|e] eqn:Hh;
    [|vm_compute in Hh; discriminate].
  destruct (differential_privacy_query gauss_low (dp_query 7 float_one)
              encrypted_store) as [r|e] eqn:Hr;
    [|vm_compute in Hr; discriminate].
  exists h, r. split; [reflexivity|]. split; [reflexivity|].
  exact (proj1 (noised_counter_agrees_with_tally gauss_low
                  (dp_query 7 float_one) encrypted_store h r Hh Hr)).
Defined.

(** ** The ballot stores *)

Lemma ballot_inv_empty : ballot_inv empty_store.
Proof.
  split; simpl.
  - reflexivity.
  - constructor.
  - intros b Hb. apply elem_of_nil in Hb. contradiction.
  - reflexivity.
  - constructor.
Qed.

Lemma create_voters_ballots voters st :
  ballot_inv st -> ballot_inv (create_voters voters st).1.
Proof.
  revert st. induction voters as [|x l IH]; intros st H; simpl; [exact H|].
  destruct (decide _); [exact H|]. apply IH. destruct H. split; assumption.
Qed.

Lemma register_candidates_ballots candidates st :
  ballot_inv st -> ballot_inv (register_candidates candidates st).1.
Proof.
  revert st. induction candidates as [|x l IH]; intros st H; simpl; [exact H|].
  destruct (od_mem _ _); [exact H|]. apply IH. destruct H. split; assumption.
Qed.

Lemma submit_encrypted_ballot_inv ballot st :
  ballot_inv st -> ballot_inv (submit_encrypted_ballot ballot st).1.
Proof.
  intros [H1 H2 H3 H4 H5]. unfold submit_encrypted_ballot.
  destruct (decide (eb_voter_id ballot ∈ encrypted_voter_set st)) as [Hin|Hnot];
    [split; assumption|].
  destruct (decide (eb_ciphertext ballot = "" \/ eb_proof ballot = ""))
    as [Hbad|Hgood]; [split; assumption|].
  split; simpl; try assumption.
  - rewrite map_app, list_to_set_app_L, <- H1. simpl.
    rewrite union_empty_r_L. reflexivity.
  - rewrite map_app. apply NoDup_app. split; [exact H2|]. split.
    + intros v Hv Hv'. apply list_elem_of_singleton in Hv'. subst v.
      apply Hnot. rewrite H1. apply elem_of_list_to_set. exact Hv.
    + apply NoDup_singleton.
  - intros b Hb. apply elem_of_app in Hb as [Hb|Hb]; [apply H3, Hb|].
    apply list_elem_of_singleton in Hb. subst b. tauto.
Qed.

Lemma submit_ranked_ballot_inv ballot st :
  ballot_inv st -> ballot_inv (submit_ranked_ballot ballot st).1.
Proof.
  intros [H1 H2 H3 H4 H5]. unfold submit_ranked_ballot.
  destruct (decide (rb_voter_id ballot ∈ ranked_voter_set st)) as [Hin|Hnot];
    [split; assumption|].
  split; simpl; try assumption.
  - rewrite map_app, list_to_set_app_L, <- H4. simpl.
    rewrite union_empty_r_L. reflexivity.
  - rewrite map_app. apply NoDup_app. split; [exact H5|]. split.
    + intros v Hv Hv'. apply list_elem_of_singleton in Hv'. subst v.
      apply Hnot. rewrite H4. apply elem_of_list_to_set. exact Hv.
    + apply NoDup_singleton.
Qed.

Lemma handle_ballot_inv rq st : ballot_inv st -> ballot_inv (handle rq st).1.
Proof.
  intros H. destruct rq; simpl.
  - apply create_voters_ballots, H.
  - unfold update_voter. destruct (decide _); [|exact H].
    destruct H. split; assumption.
  - unfold delete_voter. destruct (decide _); [|exact H].
    destruct H. split; assumption.
  - apply register_candidates_ballots, H.
  - unfold cast_vote. destruct (check_cast _ _ _); [|exact H].
    destruct H. split; assumption.
  - unfold cast_weighted_vote. destruct (check_cast _ _ _); [|exact H].
    destruct H. split; assumption.
  - apply submit_encrypted_ballot_inv, H.
  - apply submit_ranked_ballot_inv, H.
  - unfold risk_limiting_audit. destruct (decide _); exact H.
Qed.

Lemma reachable_ballot_inv st : reachable st -> ballot_inv st.
Proof.
  intros [rqs ->]. generalize ballot_inv_empty. generalize empty_store.
  induction rqs as [|rq rqs IH]; intros st H; simpl; [exact H|].
  apply IH, handle_ballot_inv, H.
Qed.

(** X3. In every reachable store no voter has two encrypted ballots,
    [encrypted_voter_set] is the set of the voters of the stored encrypted
    ballots and has as many members as there are ballots, and every stored
    ballot has a non-empty ciphertext and a non-empty proof. *)
Theorem encrypted_store_one_ballot_per_voter (st : Store) :
  reachable st ->
  NoDup (map eb_voter_id (encrypted_ballots st)) /\
  (forall v, v ∈ encrypted_voter_set st <->
             exists b, b ∈ encrypted_ballots st /\ eb_voter_id b = v) /\
  size (encrypted_voter_set st) = length (encrypted_ballots st) /\
  (forall b, b ∈ encrypted_ballots st ->
             eb_ciphertext b <> "" /\ eb_proof b <> "").
Proof.
  intros Hreach. destruct (reachable_ballot_inv st Hreach) as [H1 H2 H3 _ _].
  split; [exact H2|]. split; [|split; [|exact H3]].
  - intros v. rewrite H1, elem_of_list_to_set, list_elem_of_fmap. split.
    + intros (b & -> & Hb). eauto.
    + intros (b & Hb & <-). eauto.
  - rewrite H1, size_list_to_set by exact H2. apply length_map.
Qed.

Lemma encrypted_store_one_ballot_per_voter_witness :
  reachable encrypted_store /\
  size (encrypted_voter_set encrypted_store) = 3%nat.
Proof.
  assert (reachable encrypted_store) as Hreach by (eexists; reflexivity).
  split; [exact Hreach|].
  destruct (encrypted_store_one_ballot_per_voter encrypted_store Hreach)
    as (_ & _ & Hsize & _).
  rewrite Hsize. reflexivity.
Defined.

(** X4. In every reachable store no voter has two ranked ballots, and
    [ranked_voter_set] is the set of the voters of the stored ranked ballots
    and has as many members as there are ballots. *)
Theorem ranked_store_one_ballot_per_voter (st : Store) :
  reachable st ->
  NoDup (map rb_voter_id (ranked_ballots st)) /\
  (forall v, v ∈ ranked_voter_set st <->
             exists b, b ∈ ranked_ballots st /\ rb_voter_id b = v) /\
  size (ranked_voter_set st) = length (ranked_ballots st).
Proof.
  intros Hreach. destruct (reachable_ballot_inv st Hreach) as [_ _ _ H4 H5].
  split; [exact H5|]. split.
  - intros v. rewrite H4, elem_of_list_to_set, list_elem_of_fmap. split.
    + intros (b & -> & Hb). eauto.
    + intros (b & Hb & <-). eauto.
  - rewrite H4, size_list_to_set by exact H5. apply length_map.
Qed.

Lemma ranked_store_one_ballot_per_voter_witness :
  reachable cycle_store /\ size (ranked_voter_set cycle_store) = 3%nat.
Proof.
  assert (reachable cycle_store) as Hreach by (eexists; reflexivity).
  split; [exact Hreach|].
  destruct (ranked_store_one_ballot_per_voter cycle_store Hreach)
    as (_ & _ & Hsize).
  rewrite Hsize. reflexivity.
Defined.

(** ** The vote records *)

Lemma vote_inv_empty : vote_inv empty_store.
Proof.
  split; unfold timeline_of; simpl.
  - intros v b H. rewrite lookup_empty in H. discriminate.
  - intros c r. rewrite lookup_empty. simpl. intros H.
    apply elem_of_nil in H. contradiction.
  - intros c r. rewrite lookup_empty. simpl. intros H.
    apply elem_of_nil in H. contradiction.
  - intros v H. rewrite lookup_empty in H. discriminate.
  - intros c. rewrite lookup_empty. constructor.
  - intros c c' r r'. rewrite lookup_empty. simpl. intros H.
    apply elem_of_nil in H. contradiction.
Qed.

Lemma timeline_record_vote now v c w st c' :
  timeline_of (record_vote now v c w st) c' =
    if decide (c = c')
    then timeline_of st c ++ [{| vr_voter_id := v; vr_timestamp := now;
                                 vr_weight := w |}]
    else timeline_of st c'.
Proof.
  unfold timeline_of. simpl. destruct (decide (c = c')) as [->|Hne].
  - rewrite lookup_insert_eq. reflexivity.
  - rewrite lookup_insert_ne by exact Hne. reflexivity.
Qed.

Lemma record_vote_vote_inv now v c w st :
  vote_inv st -> voter_voted st !! v <> Some true -> w = 1 \/ w = 2 ->
  vote_inv (record_vote now v c w st).
Proof.
  intros [H1 H2 H3 H4 H5 H6] Hfresh Hw.
  assert (forall c' r, r ∈ timeline_of st c' -> vr_voter_id r <> v) as Hnew.
  { intros c' r Hr Heq. apply Hfresh. rewrite <- Heq. exact (H3 c' r Hr). }
  assert (forall c' r,
            r ∈ timeline_of (record_vote now v c w st) c' ->
            r ∈ timeline_of st c' \/
            (c' = c /\ r = {| vr_voter_id := v; vr_timestamp := now;
                              vr_weight := w |})) as Hsplit.
  { intros c' r. rewrite timeline_record_vote.
    destruct (decide (c = c')) as [->|Hne]; [|tauto].
    rewrite elem_of_app, list_elem_of_singleton. tauto. }
  split.
  - intros v' b. simpl. destruct (decide (v = v')) as [->|Hne].
    + rewrite lookup_insert_eq. congruence.
    + rewrite lookup_insert_ne by exact Hne. apply H1.
  - intros c' r Hr. destruct (Hsplit c' r Hr) as [Hold|[_ ->]];
      [exact (H2 c' r Hold) | exact Hw].
  - intros c' r Hr. simpl. destruct (Hsplit c' r Hr) as [Hold|[_ ->]].
    + rewrite lookup_insert_ne by (apply not_eq_sym, (Hnew c' r Hold)).
      exact (H3 c' r Hold).
    + apply lookup_insert_eq.
  - intros v'. simpl. destruct (decide (v = v')) as [<-|Hne].
    + intros _. exists c. eexists. rewrite timeline_record_vote.
      destruct (decide (c = c)); [|contradiction].
      split; [apply elem_of_app; right; left | reflexivity].
    + rewrite lookup_insert_ne by exact Hne. intros Hv'.
      destruct (H4 v' Hv') as (c' & r & Hr & Hid). exists c', r.
      split; [|exact Hid]. rewrite timeline_record_vote.
      destruct (decide (c = c')) as [->|_]; [|exact Hr].
      apply elem_of_app. left. exact Hr.
  - intros c'. rewrite timeline_record_vote.
    destruct (decide (c = c')) as [->|_]; [|apply H5].
    rewrite map_app. apply NoDup_app. split; [apply H5|]. split.
    + intros x Hx Hx'. apply list_elem_of_singleton in Hx'. simpl in Hx'.
      subst x. apply list_elem_of_fmap in Hx as (r & Hid & Hr).
      exact (Hnew c' r Hr (eq_sym Hid)).
    + apply NoDup_singleton.
  - intros c1 c2 r1 r2 Hr1 Hr2 Hid.
    destruct (Hsplit c1 r1 Hr1) as [Ho1|[-> ->]],
             (Hsplit c2 r2 Hr2) as [Ho2|[-> ->]].
    + exact (H6 c1 c2 r1 r2 Ho1 Ho2 Hid).
    + exfalso. exact (Hnew c1 r1 Ho1 Hid).
    + exfalso. exact (Hnew c2 r2 Ho2 (eq_sym Hid)).
    + reflexivity.
Qed.

Lemma check_cast_unmarked v c st :
  vote_inv st -> check_cast v c st = Ok tt -> voter_voted st !! v <> Some true.
Proof.
  intros _. unfold check_cast. destruct (in_memory_voters st !! v); [|discriminate].
  destruct (_ <? 18); [discriminate|]. destruct (negb _); [discriminate|].
  intros H Hv. rewrite Hv in H. discriminate.
Qed.

Lemma handle_vote_inv rq st : vote_inv st -> vote_inv (handle rq st).1.
Proof.
  intros H. destruct rq as [voters| | |cands|now v c|now wr|b|b|ar]; simpl.
  - clear -H. revert st H. induction voters as [|x l IH]; intros st H; simpl;
      [exact H|]. destruct (decide _); [exact H|]. apply IH.
    destruct H. split; assumption.
  - unfold update_voter. destruct (decide _); [|exact H].
    destruct H. split; assumption.
  - unfold delete_voter. destruct (decide _); [|exact H].
    destruct H. split; assumption.
  - clear -H. revert st H. induction cands as [|x l IH]; intros st H; simpl;
      [exact H|]. destruct (od_mem _ _); [exact H|]. apply IH.
    destruct H. split; assumption.
  - unfold cast_vote. destruct (check_cast v c st) as [[]|e] eqn:E; [|exact H].
    apply record_vote_vote_inv;
      [exact H | exact (check_cast_unmarked v c st H E) | tauto].
  - unfold cast_weighted_vote.
    destruct (check_cast _ _ st) as [[]|e] eqn:E; [|exact H].
    apply record_vote_vote_inv;
      [exact H | exact (check_cast_unmarked _ _ st H E) |].
    destruct (wv_profile_updated wr); tauto.
  - unfold submit_encrypted_ballot. destruct H.
    repeat (destruct (decide _)); split; assumption.
  - unfold submit_ranked_ballot. destruct H.
    destruct (decide _); split; assumption.
  - unfold risk_limiting_audit. destruct (decide _); exact H.
Qed.

Lemma reachable_vote_inv st : reachable st -> vote_inv st.
Proof.
  intros [rqs ->]. generalize vote_inv_empty. generalize empty_store.
  induction rqs as [|rq rqs IH]; intros st H; simpl; [exact H|].
  apply IH, handle_vote_inv, H.
Qed.

(** X5. In every reachable store each vote record weighs 1 or 2, the
    voters marked in [voter_voted] are exactly those with a record in some
    timeline, no timeline holds two records of a voter, and no voter has
    records in two timelines. *)
Theorem one_vote_record_per_voter (st : Store) :
  reachable st ->
  (forall c r, r ∈ timeline_of st c -> vr_weight r = 1 \/ vr_weight r = 2) /\
  (forall v, default false (voter_voted st !! v) = true <->
             exists c r, r ∈ timeline_of st c /\ vr_voter_id r = v) /\
  (forall c, NoDup (map vr_voter_id (timeline_of st c))) /\
  (forall c c' r r', r ∈ timeline_of st c -> r' ∈ timeline_of st c' ->
                     vr_voter_id r = vr_voter_id r' -> c = c').
Proof.
  intros Hreach. destruct (reachable_vote_inv st Hreach) as [H1 H2 H3 H4 H5 H6].
  split; [exact H2|]. split; [|split; assumption].
  intros v. split.
  - intros Hv. apply H4. destruct (voter_voted st !! v) as [b|]; simpl in Hv;
      [congruence | discriminate].
  - intros (c & r & Hr & <-). rewrite (H3 c r Hr). reflexivity.
Qed.

Lemma one_vote_record_per_voter_witness :
  reachable tie_store /\
  forall c, NoDup (map vr_voter_id (timeline_of tie_store c)).
Proof.
  split; [exact tie_store_reachable|].
  apply (one_vote_record_per_voter tie_store tie_store_reachable).
Defined.

(** ** The stable sort *)

Section SortedDesc.
Context {A : Type} (key : A -> Z).
Implicit Types (x : A) (l : list A).

Lemma insert_desc_perm x l : insert_desc key x l ≡ₚ x :: l.
Proof.
  induction l as [|y l IH]; simpl; [reflexivity|].
  destruct (decide (key x >= key y)); [reflexivity|].
  rewrite IH. apply Permutation_swap.
Qed.

Lemma sorted_desc_perm l : sorted_desc key l ≡ₚ l.
Proof.
  induction l as [|x l IH]; simpl; [reflexivity|].
  rewrite insert_desc_perm, IH. reflexivity.
Qed.

Lemma insert_desc_sorted x l :
  StronglySorted (fun a b => key a >= key b) l ->
  StronglySorted (fun a b => key a >= key b) (insert_desc key x l).
Proof.
  induction l as [|y l IH]; intros Hs; simpl.
  - constructor; constructor.
  - apply StronglySorted_inv in Hs as [Hs Hy].
    destruct (decide (key x >= key y)) as [Hge|Hlt].
    + constructor; [constructor; assumption|].
      constructor; [exact Hge|].
      rewrite Forall_forall in Hy |- *. intros z Hz.
      specialize (Hy z Hz). simpl in Hy. lia.
    + constructor; [apply IH, Hs|].
      rewrite Forall_forall in Hy |- *. intros z Hz.
      rewrite insert_desc_perm in Hz.
      apply elem_of_cons in Hz as [->|Hz]; [lia|].
      apply Hy. exact Hz.
Qed.

Lemma sorted_desc_sorted l :
  StronglySorted (fun a b => key a >= key b) (sorted_desc key l).
Proof.
  induction l as [|x l IH]; simpl; [constructor|].
  apply insert_desc_sorted, IH.
Qed.

Lemma insert_desc_stable (k : Z) x l :
  filter (fun a => key a = k) (insert_desc key x l) =
    filter (fun a => key a = k) (x :: l).
Proof.
  induction l as [|y l IH]; simpl; [reflexivity|].
  destruct (decide (key x >= key y)) as [Hge|Hlt]; [reflexivity|].
  rewrite (filter_cons _ y), IH, !(filter_cons _ x), (filter_cons _ y).
  destruct (decide (key x = k)) as [Hx|Hx], (decide (key y = k)) as [Hy|Hy];
    try reflexivity.
  lia.
Qed.

Lemma sorted_desc_stable (k : Z) l :
  filter (fun a => key a = k) (sorted_desc key l) =
    filter (fun a => key a = k) l.
Proof.
  induction l as [|x l IH]; simpl; [reflexivity|].
  rewrite insert_desc_stable, !filter_cons, IH. reflexivity.
Qed.

(** In a list sorted by decreasing key, the items of the greatest key
    come first. *)
Lemma sorted_desc_leaders (m : Z) l :
  StronglySorted (fun a b => key a >= key b) l ->
  Forall (fun a => key a <= m) l ->
  exists rest,
    l = filter (fun a => key a = m) l ++ rest /\
    Forall (fun a => key a < m) rest.
Proof.
  induction l as [|y l IH]; intros Hs Hm.
  - exists []. split; [reflexivity | constructor].
  - apply StronglySorted_inv in Hs as [Hs Hy].
    apply Forall_cons in Hm as [Hym Hm].
    rewrite filter_cons. destruct (decide (key y = m)) as [Heq|Hne].
    + destruct (IH Hs Hm) as (rest & Hl & Hrest). exists rest.
      split; [|exact Hrest]. simpl. f_equal. exact Hl.
    + exists (y :: l).
      assert (Forall (fun a => key a < m) (y :: l)) as Hlow.
      { constructor; [lia|]. rewrite Forall_forall in Hy |- *.
        intros z Hz. specialize (Hy z Hz). simpl in Hy. lia. }
      split; [|exact Hlow].
      replace (filter (fun a => key a = m) l) with (@nil A); [reflexivity|].
      symmetry. apply Forall_cons in Hlow as [_ Hlow].
      clear -Hlow. induction l as [|z l IH]; [reflexivity|].
      apply Forall_cons in Hlow as [Hz Hlow]. rewrite filter_cons.
      destruct (decide (key z = m)); [lia | apply IH, Hlow].
Qed.
End SortedDesc.

(** ** The leaderboard *)

(** X6. The leaderboard of [voting_results] is a permutation of the
    entries of the registered candidates, sorted by decreasing votes, and
    candidates with equal votes keep their order of registration. *)
Theorem voting_results_is_a_stable_ranking (st : Store) :
  voting_results st ≡ₚ map (entry_of st) (list_candidates st) /\
  StronglySorted (fun a b => we_votes a >= we_votes b) (voting_results st) /\
  (forall n,
     filter (fun e => we_votes e = n) (voting_results st) =
       filter (fun e => we_votes e = n)
              (map (entry_of st) (list_candidates st))).
Proof.
  unfold voting_results. split; [apply sorted_desc_perm|].
  split; [apply sorted_desc_sorted | intros n; apply sorted_desc_stable].
Qed.

Lemma winners_are_filtered st r :
  get_winner st = Ok r ->
  wr_winners r =
    filter (fun e => we_votes e = wr_max_votes r)
           (map (entry_of st) (list_candidates st)).
Proof.
  unfold get_winner. destruct (decide _); [discriminate|].
  intros [= <-]. simpl. unfold list_candidates.
  induction (od_values (in_memory_candidates st)) as [|c l IH]; [reflexivity|].
  simpl. rewrite !filter_cons. simpl. fold (entry_of st c).
  destruct (decide _); simpl; rewrite IH; reflexivity.
Qed.

(** X7. In a reachable store where [get_winner] returns, the
    leaderboard of [voting_results] begins with the winners, in the same
    order; there is at least one winner, every winner has [max_votes] votes
    and every later entry has fewer. *)
Theorem winners_lead_the_leaderboard (st : Store) (r : WinnerResult) :
  reachable st ->
  get_winner st = Ok r ->
  exists rest,
    voting_results st = wr_winners r ++ rest /\
    wr_winners r <> [] /\
    Forall (fun e => we_votes e = wr_max_votes r) (wr_winners r) /\
    Forall (fun e => we_votes e < wr_max_votes r) rest.
Proof.
  intros Hreach Hr.
  pose proof (reachable_inv st Hreach) as [Ht _ Hp Hk].
  destruct (get_winner_on_reachable st Hreach) as (_ & _ & Hok).
  destruct Hok as (r' & Hr' & Hupper & (cmax & Hreg & Hmax) & Hset & _).
  { unfold get_winner in Hr.
    destruct (decide (candidate_votes st = ∅)) as [|Hne]; [discriminate|].
    destruct (map_choose _ Hne) as (k & n & Hk').
    exists k. rewrite <- Ht. unfold tally. rewrite Hk'. simpl.
    specialize (Hp k n Hk'). lia. }
  rewrite Hr in Hr'. injection Hr' as <-.
  destruct (sorted_desc_leaders we_votes (wr_max_votes r) (voting_results st))
    as (rest & Hl & Hrest).
  - apply sorted_desc_sorted.
  - rewrite Forall_forall. intros e He.
    unfold voting_results in He. rewrite sorted_desc_perm in He.
    apply list_elem_of_fmap in He as (c & -> & Hc). simpl.
    unfold list_candidates, od_values in Hc.
    unfold votes_of. fold (tally st (candidate_id c)). rewrite Ht. apply Hupper.
  - assert (filter (fun e => we_votes e = wr_max_votes r) (voting_results st)
            = wr_winners r) as Hw.
    { unfold voting_results. rewrite sorted_desc_stable.
      symmetry. apply winners_are_filtered, Hr. }
    rewrite Hw in Hl. exists rest. split; [exact Hl|]. split; [|split].
    + destruct (proj2 (Hset cmax) (conj Hreg Hmax)) as (w & Hw' & _).
      intros Hnil. rewrite Hnil in Hw'. apply elem_of_nil in Hw'. contradiction.
    + rewrite <- Hw. rewrite Forall_forall. intros e He.
      apply list_elem_of_filter in He as [He _]. exact He.
    + exact Hrest.
Qed.

Lemma winners_lead_the_leaderboard_witness :
  reachable tie_store /\
  exists r rest,
    get_winner tie_store = Ok r /\
    voting_results tie_store = wr_winners r ++ rest /\
    length (wr_winners r) = 2%nat /\ length rest = 1%nat.
Proof.
  split; [exact tie_store_reachable|].
  destruct (get_winner tie_store) as [r|e] eqn:Hr;
    [|vm_compute in Hr; discriminate].
  destruct (winners_lead_the_leaderboard tie_store r tie_store_reachable Hr)
    as (rest & Hl & _).
  exists r, rest. split; [reflexivity|]. split; [exact Hl|].
  assert (length (wr_winners r) = 2%nat) as Hw.
  { vm_compute in Hr. injection Hr as <-. reflexivity. }
  split; [exact Hw|].
  assert (length (voting_results tie_store) = 3%nat) as H3
    by (vm_compute; reflexivity).
  rewrite Hl, length_app, Hw in H3. lia.
Defined.

(** ** Votes, timelines and ranges *)

Lemma sum_weights_bounds (timeline : list VoteRecord) (P : VoteRecord -> Prop)
  `{!forall r, Decision (P r)} :
  (forall r, r ∈ timeline -> 1 <= vr_weight r) ->
  0 <= foldr Z.add 0 (map vr_weight (filter P timeline))
    <= foldr Z.add 0 (map vr_weight timeline).
Proof.
  induction timeline as [|x l IH]; intros Hw; simpl; [lia|].
  assert (1 <= vr_weight x) by (apply Hw; left).
  assert (forall r, r ∈ l -> 1 <= vr_weight r) as Hl
    by (intros r Hr; apply Hw; right; exact Hr).
  specialize (IH Hl). rewrite filter_cons.
  destruct (decide (P x)); simpl; lia.
Qed.

(** X8. In a reachable store [get_candidate_votes] and
    [get_vote_timeline] fail with the same 404 for a candidate that is not
    registered, and for a registered one return the same name, with [votes]
    the sum of the weights on the timeline: between the number of timeline
    entries and twice that number. *)
Theorem candidate_votes_sum_the_timeline (st : Store) (cand_id : Z) :
  reachable st ->
  (~ registered st cand_id ->
   get_candidate_votes cand_id st
     = Raise (HTTPException 404 "Candidate not found.") /\
   get_vote_timeline cand_id st
     = Raise (HTTPException 404 "Candidate not found.")) /\
  (registered st cand_id ->
   exists votes timeline,
     get_candidate_votes cand_id st = Ok votes /\
     get_vote_timeline cand_id st = Ok timeline /\
     cv_name votes = tr_name timeline /\
     cv_votes votes = foldr Z.add 0 (map te_weight (tr_timeline timeline)) /\
     Z.of_nat (length (tr_timeline timeline)) <= cv_votes votes
       <= 2 * Z.of_nat (length (tr_timeline timeline))).
Proof.
  intros Hreach. unfold get_candidate_votes, get_vote_timeline, registered.
  destruct (od_get (in_memory_candidates st) cand_id) as [c|] eqn:E.
  - split; [intros H; exfalso; apply H; eauto|]. intros _.
    eexists. eexists. split; [reflexivity|]. split; [reflexivity|]. simpl.
    split; [reflexivity|].
    pose proof (inv_tally st (reachable_inv st Hreach) cand_id) as Ht.
    unfold tally, recorded_weight, timeline_of in Ht.
    pose proof (vinv_weight st (reachable_vote_inv st Hreach) cand_id) as Hw.
    unfold timeline_of in Hw. rewrite Ht, map_map. simpl.
    split; [reflexivity|]. rewrite length_map. clear Ht.
    induction (default [] (vote_timeline st !! cand_id)) as [|x l IH];
      simpl; [lia|].
    assert (vr_weight x = 1 \/ vr_weight x = 2) by (apply Hw; left).
    assert (forall r, r ∈ l -> vr_weight r = 1 \/ vr_weight r = 2) as Hl
      by (intros r Hr; apply Hw; right; exact Hr).
    specialize (IH Hl). lia.
  - split; [intros _; split; reflexivity|]. intros [x Hx]. discriminate.
Qed.

Lemma candidate_votes_sum_the_timeline_witness :
  (reachable tie_store /\ registered tie_store 3) /\
  exists votes timeline,
    get_candidate_votes 3 tie_store = Ok votes /\
    get_vote_timeline 3 tie_store = Ok timeline /\
    cv_votes votes = foldr Z.add 0 (map te_weight (tr_timeline timeline)).
Proof.
  assert (registered tie_store 3) as Hreg by (vm_compute; eauto).
  split; [split; [exact tie_store_reachable | exact Hreg]|].
  destruct (candidate_votes_sum_the_timeline tie_store 3 tie_store_reachable)
    as [_ Hok].
  destruct (Hok Hreg) as (votes & timeline & Hv & Ht & _ & Hsum & _).
  exists votes, timeline. split; [exact Hv|]. split; [exact Ht | exact Hsum].
Defined.

(** X9. In a reachable store and for a registered candidate, the
    entries [get_votes_in_range] returns are a sub-list of the timeline
    [get_vote_timeline] returns, in the same order, and [total_weight] lies
    between 0 and the votes of the candidate.  An interval whose end lies
    before its start gives no entry and weight 0; an interval that contains
    every timestamp gives the whole timeline and the full vote count. *)
Theorem range_is_part_of_the_timeline
  (st : Store) (cand_id from_time to_time : Z) :
  reachable st ->
  registered st cand_id ->
  exists range timeline votes,
    get_votes_in_range cand_id from_time to_time st = Ok range /\
    get_vote_timeline cand_id st = Ok timeline /\
    get_candidate_votes cand_id st = Ok votes /\
    rr_votes_in_range range `sublist_of` tr_timeline timeline /\
    0 <= rr_total_weight range <= cv_votes votes /\
    (to_time < from_time ->
     rr_votes_in_range range = [] /\ rr_total_weight range = 0) /\
    ((forall e, e ∈ tr_timeline timeline ->
                from_time <= te_timestamp e <= to_time) ->
     rr_votes_in_range range = tr_timeline timeline /\
     rr_total_weight range = cv_votes votes).
Proof.
  intros Hreach [c Hc].
  unfold get_votes_in_range, get_vote_timeline, get_candidate_votes.
  rewrite Hc. do 3 eexists. split; [reflexivity|]. split; [reflexivity|].
  split; [reflexivity|]. simpl.
  pose proof (inv_tally st (reachable_inv st Hreach) cand_id) as Ht.
  unfold tally, recorded_weight, timeline_of in Ht.
  pose proof (vinv_weight st (reachable_vote_inv st Hreach) cand_id) as Hw.
  unfold timeline_of in Hw.
  set (tl := default [] (vote_timeline st !! cand_id)) in *.
  rewrite Ht, py_sum_foldr, map_map. simpl.
  split; [apply fmap_sublist, sublist_filter|].
  split.
  { apply (sum_weights_bounds tl
             (fun r => from_time <= vr_timestamp r /\ vr_timestamp r <= to_time)).
    intros r Hr. destruct (Hw r Hr); lia. }
  split.
  - intros Hlt.
    replace (filter _ tl) with (@nil VoteRecord); [split; reflexivity|].
    symmetry. clear -Hlt. induction tl as [|x l IH]; [reflexivity|].
    rewrite filter_cons. destruct (decide _) as [[? ?]|_]; [lia | exact IH].
  - intros Hall.
    replace (filter _ tl) with tl; [split; reflexivity|].
    symmetry. clear -Hall. induction tl as [|x l IH]; [reflexivity|].
    rewrite filter_cons. destruct (decide _) as [_|Hno].
    + f_equal. apply IH. intros e He. apply Hall. right. exact He.
    + exfalso. apply Hno.
      assert (from_time <= vr_timestamp x <= to_time) as H; [|lia].
      apply (Hall {| te_voter_id := vr_voter_id x;
                     te_timestamp := vr_timestamp x;
                     te_weight := vr_weight x |}). left.
Qed.

Lemma range_is_part_of_the_timeline_witness :
  (reachable range_store /\ registered range_store 1) /\
  exists range timeline,
    get_votes_in_range 1 20 25 range_store = Ok range /\
    get_vote_timeline 1 range_store = Ok timeline /\
    rr_votes_in_range range `sublist_of` tr_timeline timeline /\
    length (rr_votes_in_range range) = 1%nat /\
    length (tr_timeline timeline) = 3%nat.
Proof.
  assert (reachable range_store) as Hreach by (eexists; reflexivity).
  assert (registered range_store 1) as Hreg by (vm_compute; eauto).
  split; [split; assumption|].
  destruct (range_is_part_of_the_timeline range_store 1 20 25 Hreach Hreg)
    as (range & timeline & votes & Hr & Ht & _ & Hsub & _).
  exists range, timeline. split; [exact Hr|]. split; [exact Ht|].
  split; [exact Hsub|].
  split.
  - vm_compute in Hr. injection Hr as <-. reflexivity.
  - vm_compute in Ht. injection Ht as <-. reflexivity.
Defined.

(** ** The candidate registry *)

Lemma registered_app st d k :
  is_Some (od_get (in_memory_candidates st ++ d) k) <->
  registered st k \/ is_Some (od_get d k).
Proof.
  unfold registered. rewrite od_get_app.
  destruct (od_get (in_memory_candidates st) k) as [c|]; split; eauto.
  - intros [[x Hx]|H]; [discriminate | exact H].
Qed.

Lemma od_get_keyed candidates k :
  is_Some (od_get (keyed candidates) k) <-> k ∈ map candidate_id candidates.
Proof.
  induction candidates as [|c l IH]; simpl.
  - split; [intros [x Hx]; discriminate|]. intros H.
    apply elem_of_nil in H. contradiction.
  - destruct (decide (candidate_id c = k)) as [->|Hne].
    + split; [intros _; left | eauto].
    + rewrite IH. split; [intros H; right; exact H|].
      intros H. apply elem_of_cons in H as [->|H]; [contradiction | exact H].
Qed.

Lemma register_candidates_prefix candidates st :
  exists n,
    (n <= length candidates)%nat /\
    (register_candidates candidates st).1 =
      set_candidates (fun d => d ++ keyed (take n candidates)) st /\
    ((register_candidates candidates st).2 = Ok tt <-> n = length candidates) /\
    NoDup (map candidate_id (take n candidates)) /\
    (forall c, c ∈ take n candidates -> ~ registered st (candidate_id c)) /\
    (forall c, candidates !! n = Some c ->
       (register_candidates candidates st).2 =
         Raise (HTTPException 409
                  ("Candidate with ID " +:+ pretty (candidate_id c)
                   +:+ " already exists.")) /\
       (registered st (candidate_id c) \/
        candidate_id c ∈ map candidate_id (take n candidates))).
Proof.
  revert st. induction candidates as [|c rest IH]; intros st.
  - exists 0%nat. simpl. split; [lia|]. split.
    + destruct st. unfold set_candidates. simpl. rewrite app_nil_r. reflexivity.
    + split; [tauto|]. split; [constructor|]. split.
      * intros c Hc. apply elem_of_nil in Hc. contradiction.
      * intros c Hc. discriminate.
  - simpl. destruct (od_mem (in_memory_candidates st) (candidate_id c)) eqn:E.
    + exists 0%nat. simpl. split; [lia|]. split.
      * destruct st. unfold set_candidates. simpl. rewrite app_nil_r.
        reflexivity.
      * split; [split; [discriminate | lia]|]. split; [constructor|]. split.
        -- intros c' Hc'. apply elem_of_nil in Hc'. contradiction.
        -- intros c' [= <-]. split; [reflexivity|]. left.
           apply od_mem_spec. exact E.
    + assert (od_get (in_memory_candidates st) (candidate_id c) = None) as Hnone.
      { destruct (od_get _ _) eqn:G; [|reflexivity].
        assert (od_mem (in_memory_candidates st) (candidate_id c) = true)
          by (apply od_mem_spec; rewrite G; eauto). congruence. }
      set (st1 := set_candidates
                    (fun d => od_set d (candidate_id c) c) st).
      assert (in_memory_candidates st1 = in_memory_candidates st ++ keyed [c])
        as Hst1 by (simpl; apply od_set_fresh, Hnone).
      assert (forall k, registered st1 k <-> registered st k \/ k = candidate_id c)
        as Hreg1.
      { intros k. unfold registered at 1. rewrite Hst1, registered_app.
        simpl. destruct (decide (candidate_id c = k)) as [->|Hne].
        - split; [right; reflexivity | eauto].
        - split; [intros [H|[x Hx]]; [tauto | discriminate]|].
          intros [H| ->]; [tauto | contradiction]. }
      destruct (IH st1) as (n & Hn & Hst & Hok & Hnd & Hfresh & Hconf).
      exists (S n). simpl. split; [lia|]. split; [|split; [|split; [|split]]].
      * rewrite Hst. unfold set_candidates. simpl.
        rewrite od_set_fresh by exact Hnone.
        rewrite <- app_assoc. reflexivity.
      * rewrite Hok. lia.
      * apply NoDup_cons. split; [|exact Hnd].
        intros Hin. apply list_elem_of_fmap in Hin as (c' & Hid & Hc').
        apply (Hfresh c' Hc'). apply Hreg1. right. symmetry. exact Hid.
      * intros c' Hc'. apply elem_of_cons in Hc' as [->|Hc'].
        -- intros H. apply od_mem_spec in H. congruence.
        -- intros H. apply (Hfresh c' Hc'). apply Hreg1. left. exact H.
      * intros c' Hc'. destruct (Hconf c' Hc') as [Herr Hwhy].
        split; [exact Herr|]. destruct Hwhy as [H|H].
        -- apply Hreg1 in H as [H|H]; [left; exact H|].
           right. rewrite H. left.
        -- right. right. exact H.
Qed.

(** X10. [register_candidates] succeeds exactly when the ids of the
    list are pairwise different and none is registered already.  In every
    case the store afterwards is the old one extended, at its end and in
    order, by the candidates before the first offending one, which the 409
    names; candidates registered before stay as they were. *)
Theorem register_candidates_appends_a_prefix
  (candidates : list Candidate) (st : Store) :
  ((register_candidates candidates st).2 = Ok tt <->
   NoDup (map candidate_id candidates) /\
   forall c, c ∈ candidates -> ~ registered st (candidate_id c)) /\
  (exists n,
     (register_candidates candidates st).1 =
       set_candidates (fun d => d ++ keyed (take n candidates)) st /\
     ((register_candidates candidates st).2 = Ok tt -> n = length candidates) /\
     (forall c, candidates !! n = Some c ->
        (register_candidates candidates st).2 =
          Raise (HTTPException 409
                   ("Candidate with ID " +:+ pretty (candidate_id c)
                    +:+ " already exists.")))) /\
  (forall k c, od_get (in_memory_candidates st) k = Some c ->
     od_get (in_memory_candidates (register_candidates candidates st).1) k
       = Some c).
Proof.
  destruct (register_candidates_prefix candidates st)
    as (n & Hn & Hst & Hok & Hnd & Hfresh & Hconf).
  split; [|split].
  - split.
    + intros H. apply Hok in H. subst n. rewrite firstn_all in Hnd, Hfresh.
      split; assumption.
    + intros [Hnd' Hfresh']. apply Hok.
      destruct (decide (n = length candidates)) as [|Hne]; [assumption|].
      exfalso. destruct (lookup_lt_is_Some_2 candidates n) as [c Hc]; [lia|].
      destruct (Hconf c Hc) as [_ [Hreg|Hdup]].
      * apply (Hfresh' c); [|exact Hreg].
        apply list_elem_of_lookup. eauto.
      * rewrite <- (take_drop n candidates), map_app in Hnd'.
        apply NoDup_app in Hnd' as (_ & Hdisj & _).
        apply (Hdisj _ Hdup). rewrite (drop_S _ c) by exact Hc. simpl. left.
  - exists n. split; [exact Hst|]. split; [apply Hok|].
    intros c Hc. apply (Hconf c Hc).
  - intros k c Hk. rewrite Hst. simpl. rewrite od_get_app, Hk. reflexivity.
Qed.

Lemma register_candidates_appends_a_prefix_witness :
  exists n,
    (register_candidates [cand 1 "A"; cand 2 "B"; cand 1 "C"; cand 3 "D"]
       empty_store).1 =
      set_candidates
        (fun d => d ++ keyed (take n [cand 1 "A"; cand 2 "B"; cand 1 "C";
                                      cand 3 "D"])) empty_store /\
    n = 2%nat.
Proof.
  destruct (register_candidates_appends_a_prefix
              [cand 1 "A"; cand 2 "B"; cand 1 "C"; cand 3 "D"] empty_store)
    as (_ & (n & Hst & _ & _) & _).
  exists n. split; [exact Hst|].
  assert (length (in_memory_candidates
            (register_candidates [cand 1 "A"; cand 2 "B"; cand 1 "C"; cand 3 "D"]
               empty_store).1) = 2%nat) as Hlen by (vm_compute; reflexivity).
  rewrite Hst in Hlen. simpl in Hlen. unfold keyed in Hlen.
  rewrite length_map, length_take in Hlen. simpl in Hlen. lia.
Defined.

(** ** Filtering by party *)

Lemma party_matches_none lower party_name candidates :
  (exists c, c ∈ candidates /\ candidate_party c = None) ->
  party_matches lower party_name candidates = None.
Proof.
  induction candidates as [|c l IH]; intros (c' & Hc' & Hnone);
    [apply elem_of_nil in Hc'; contradiction|].
  simpl. destruct (candidate_party c) as [p|] eqn:E; [|reflexivity].
  rewrite IH; [reflexivity|].
  apply elem_of_cons in Hc' as [->|Hc']; [congruence|]. eauto.
Qed.

Lemma party_matches_some lower party_name candidates :
  (forall c, c ∈ candidates -> is_Some (candidate_party c)) ->
  party_matches lower party_name candidates =
    Some (filter (party_is lower party_name) candidates).
Proof.
  induction candidates as [|c l IH]; intros Hall; [reflexivity|].
  simpl. destruct (Hall c) as [p Hp]; [left|]. rewrite Hp.
  rewrite IH by (intros c' Hc'; apply Hall; right; exact Hc').
  rewrite filter_cons.
  destruct (decide (party_is lower party_name c)) as [Heq|Hne].
  - unfold party_is in Heq. rewrite Hp in Heq.
    rewrite bool_decide_eq_true_2 by exact Heq. reflexivity.
  - unfold party_is in Hne. rewrite Hp in Hne.
    rewrite bool_decide_eq_false_2 by exact Hne. reflexivity.
Qed.

(** X11. [filter_candidates_by_party] ends in [AttributeError] when
    some registered candidate has no party.  When every candidate has one,
    it returns the candidates whose party equals [party_name] up to case, in
    registration order, or the 404 when there is none; two names equal up to
    case give the same outcome. *)
Theorem filter_candidates_by_party_outcomes
  (lower : string -> string) (party_name : string) (st : Store) :
  ((exists c, c ∈ list_candidates st /\ candidate_party c = None) ->
   filter_candidates_by_party lower party_name st = PartyAttributeError) /\
  ((forall c, c ∈ list_candidates st -> is_Some (candidate_party c)) ->
   (filter (party_is lower party_name) (list_candidates st) = [] ->
    filter_candidates_by_party lower party_name st =
      PartyHTTPException 404 "No candidates found for this party.") /\
   (filter (party_is lower party_name) (list_candidates st) <> [] ->
    filter_candidates_by_party lower party_name st =
      PartyFound (filter (party_is lower party_name) (list_candidates st))) /\
   (forall other, lower other = lower party_name ->
      filter_candidates_by_party lower other st =
        filter_candidates_by_party lower party_name st)).
Proof.
  unfold filter_candidates_by_party, list_candidates. split.
  - intros H. rewrite (party_matches_none _ _ _ H). reflexivity.
  - intros Hall. rewrite (party_matches_some _ _ _ Hall). split; [|split].
    + intros ->. reflexivity.
    + intros Hne. destruct (filter _ _); [congruence | reflexivity].
    + intros other Heq. rewrite (party_matches_some _ _ _ Hall).
      replace (filter (party_is lower other)
                 (od_values (in_memory_candidates st)))
        with (filter (party_is lower party_name)
                (od_values (in_memory_candidates st))); [reflexivity|].
      apply list_filter_iff. intros c. unfold party_is.
      destruct (candidate_party c); [rewrite Heq|]; reflexivity.
Qed.

Lemma filter_candidates_by_party_outcomes_witness :
  (exists c,
     c ∈ list_candidates
           (register_candidates [partisan 1 "Green"; independent 2] empty_store).1
     /\ candidate_party c = None) /\
  filter_candidates_by_party (fun s => s) "Green"
    (register_candidates [partisan 1 "Green"; independent 2] empty_store).1
    = PartyAttributeError.
Proof.
  assert (exists c,
     c ∈ list_candidates
           (register_candidates [partisan 1 "Green"; independent 2] empty_store).1
     /\ candidate_party c = None) as Hex.
  { exists (independent 2). split; [|reflexivity]. vm_compute. right. left. }
  split; [exact Hex|].
  apply (filter_candidates_by_party_outcomes (fun s => s) "Green" _), Hex.
Defined.

(** ** The voter registry *)

Lemma set_voters_compose f g st :
  set_voters f (set_voters g st) = set_voters (fun m => f (g m)) st.
Proof. reflexivity. Qed.

Lemma set_voters_ext f g st :
  f (in_memory_voters st) = g (in_memory_voters st) ->
  set_voters f st = set_voters g st.
Proof. intros H. unfold set_voters. rewrite H. reflexivity. Qed.

Lemma enrolled_cons v voters :
  enrolled (v :: voters) = <[voter_voter_id v := v]> (enrolled voters).
Proof. unfold enrolled. cbn [map]. apply list_to_map_cons. Qed.

Lemma enrolled_lookup voters k :
  is_Some (enrolled voters !! k) <-> k ∈ map voter_voter_id voters.
Proof.
  unfold enrolled. induction voters as [|v l IH]; cbn [map].
  - rewrite list_to_map_nil, lookup_empty. split; [intros [x Hx]; discriminate|].
    intros H. apply elem_of_nil in H. contradiction.
  - rewrite list_to_map_cons. cbn [fst snd].
    destruct (decide (voter_voter_id v = k)) as [->|Hne].
    + rewrite lookup_insert_eq. split; [intros _; left | eauto].
    + rewrite lookup_insert_ne by exact Hne. rewrite IH.
      split; [intros H; right; exact H|].
      intros H. apply elem_of_cons in H as [->|H]; [contradiction | exact H].
Qed.

Lemma enrolled_member voters v :
  NoDup (map voter_voter_id voters) -> v ∈ voters ->
  enrolled voters !! voter_voter_id v = Some v.
Proof.
  unfold enrolled. induction voters as [|u l IH]; intros Hnd Hv;
    [apply elem_of_nil in Hv; contradiction|].
  cbn [map] in *. rewrite list_to_map_cons. cbn [fst snd].
  apply NoDup_cons in Hnd as [Hu Hnd].
  apply elem_of_cons in Hv as [->|Hv]; [apply lookup_insert_eq|].
  rewrite lookup_insert_ne; [apply IH; assumption|].
  intros Heq. apply Hu. rewrite Heq. apply list_elem_of_fmap. eauto.
Qed.

Lemma create_voters_prefix voters st :
  exists n,
    (n <= length voters)%nat /\
    (create_voters voters st).1 =
      set_voters (fun m => enrolled (take n voters) ∪ m) st /\
    ((create_voters voters st).2 = Ok tt <-> n = length voters) /\
    NoDup (map voter_voter_id (take n voters)) /\
    (forall v, v ∈ take n voters ->
               in_memory_voters st !! voter_voter_id v = None) /\
    (forall v, voters !! n = Some v ->
       (create_voters voters st).2 =
         Raise (HTTPException 409
                  ("Voter with ID " +:+ pretty (voter_voter_id v)
                   +:+ " already exists.")) /\
       (is_Some (in_memory_voters st !! voter_voter_id v) \/
        voter_voter_id v ∈ map voter_voter_id (take n voters))).
Proof.
  revert st. induction voters as [|v rest IH]; intros st.
  - exists 0%nat. simpl. split; [lia|]. split.
    + destruct st. unfold set_voters, enrolled. simpl.
      rewrite (left_id_L ∅ (∪)). reflexivity.
    + split; [tauto|]. split; [constructor|]. split.
      * intros v Hv. apply elem_of_nil in Hv. contradiction.
      * intros v Hv. discriminate.
  - simpl.
    destruct (decide (is_Some (in_memory_voters st !! voter_voter_id v)))
      as [Hin|Hnot].
    + exists 0%nat. simpl. split; [lia|]. split.
      * destruct st. unfold set_voters, enrolled. simpl.
        rewrite (left_id_L ∅ (∪)). reflexivity.
      * split; [split; [discriminate | lia]|]. split; [constructor|]. split.
        -- intros v' Hv'. apply elem_of_nil in Hv'. contradiction.
        -- intros v' [= <-]. split; [reflexivity | left; exact Hin].
    + assert (in_memory_voters st !! voter_voter_id v = None) as Hnone.
      { destruct (in_memory_voters st !! voter_voter_id v) eqn:G;
          [exfalso; apply Hnot; eauto | reflexivity]. }
      set (st1 := set_voters (fun m => <[voter_voter_id v := v]> m) st).
      destruct (IH st1) as (n & Hn & Hst & Hok & Hnd & Hfresh & Hconf).
      assert (voter_voter_id v ∉ map voter_voter_id (take n rest)) as Hv.
      { intros Hin. apply list_elem_of_fmap in Hin as (u & Hid & Hu).
        specialize (Hfresh u Hu). simpl in Hfresh.
        rewrite <- Hid, lookup_insert_eq in Hfresh. discriminate. }
      exists (S n). simpl. split; [lia|]. split; [|split; [|split; [|split]]].
      * rewrite Hst. unfold st1. rewrite set_voters_compose.
        apply set_voters_ext.
        change (take (S n) (v :: rest)) with (v :: take n rest).
        rewrite enrolled_cons, <- insert_union_l. symmetry.
        apply insert_union_r.
        destruct (enrolled (take n rest) !! voter_voter_id v) eqn:G;
          [|reflexivity].
        exfalso. apply Hv. apply enrolled_lookup. rewrite G. eauto.
      * rewrite Hok. lia.
      * apply NoDup_cons. split; assumption.
      * intros u Hu. apply elem_of_cons in Hu as [->|Hu]; [exact Hnone|].
        specialize (Hfresh u Hu). simpl in Hfresh.
        destruct (decide (voter_voter_id v = voter_voter_id u)) as [Heq|Hne].
        -- rewrite Heq, lookup_insert_eq in Hfresh. discriminate.
        -- rewrite lookup_insert_ne in Hfresh by exact Hne. exact Hfresh.
      * intros u Hu. destruct (Hconf u Hu) as [Herr Hwhy].
        split; [exact Herr|]. destruct Hwhy as [H|H].
        -- simpl in H.
           destruct (decide (voter_voter_id v = voter_voter_id u)) as [Heq|Hne].
           ++ right. rewrite Heq. left.
           ++ rewrite lookup_insert_ne in H by exact Hne. left. exact H.
        -- right. right. exact H.
Qed.

(** X12. [create_voters] succeeds exactly when the ids of the list are
    pairwise different and none is stored already.  In every case the voters
    before the first offending one are stored, and are read back by
    [get_voter_by_id], also when the request fails with the 409 that names
    the offender; voters stored before are untouched. *)
Theorem create_voters_stores_a_prefix (voters : list Voter) (st : Store) :
  ((create_voters voters st).2 = Ok tt <->
   NoDup (map voter_voter_id voters) /\
   forall v, v ∈ voters -> in_memory_voters st !! voter_voter_id v = None) /\
  (forall k v, in_memory_voters st !! k = Some v ->
               get_voter_by_id k (create_voters voters st).1 = Ok v) /\
  (exists n,
     (create_voters voters st).1 =
       set_voters (fun m => enrolled (take n voters) ∪ m) st /\
     (forall v, v ∈ take n voters ->
                get_voter_by_id (voter_voter_id v) (create_voters voters st).1
                  = Ok v) /\
     ((create_voters voters st).2 = Ok tt -> n = length voters) /\
     (forall v, voters !! n = Some v ->
        (create_voters voters st).2 =
          Raise (HTTPException 409
                   ("Voter with ID " +:+ pretty (voter_voter_id v)
                    +:+ " already exists.")))).
Proof.
  destruct (create_voters_prefix voters st)
    as (n & Hn & Hst & Hok & Hnd & Hfresh & Hconf).
  split; [|split].
  - split.
    + intros H. apply Hok in H. subst n. rewrite firstn_all in Hnd, Hfresh.
      split; assumption.
    + intros [Hnd' Hfresh']. apply Hok.
      destruct (decide (n = length voters)) as [|Hne]; [assumption|].
      exfalso. destruct (lookup_lt_is_Some_2 voters n) as [v Hv]; [lia|].
      destruct (Hconf v Hv) as [_ [[u Hu]|Hdup]].
      * rewrite Hfresh' in Hu; [discriminate|].
        apply list_elem_of_lookup. eauto.
      * rewrite <- (take_drop n voters), map_app in Hnd'.
        apply NoDup_app in Hnd' as (_ & Hdisj & _).
        apply (Hdisj _ Hdup). rewrite (drop_S _ v) by exact Hv. simpl. left.
  - intros k v Hk. unfold get_voter_by_id. rewrite Hst. simpl.
    rewrite lookup_union_r; [rewrite Hk; reflexivity|].
    destruct (enrolled (take n voters) !! k) eqn:G; [|reflexivity].
    exfalso. assert (k ∈ map voter_voter_id (take n voters)) as Hin
      by (apply enrolled_lookup; rewrite G; eauto).
    apply list_elem_of_fmap in Hin as (u & -> & Hu).
    rewrite (Hfresh u Hu) in Hk. discriminate.
  - exists n. split; [exact Hst|]. split; [|split].
    + intros v Hv. unfold get_voter_by_id. rewrite Hst. simpl.
      rewrite (lookup_union_Some_l _ _ _ v); [reflexivity|].
      apply enrolled_member; assumption.
    + apply Hok.
    + intros v Hv. apply (Hconf v Hv).
Qed.

Lemma create_voters_stores_a_prefix_witness :
  get_voter_by_id 1
    (create_voters [voter 1 30; voter 2 40; voter 1 50; voter 3 60]
       one_voter_store).1 = Ok (voter 1 30) /\
  (create_voters [voter 1 30; voter 2 40; voter 1 50; voter 3 60]
     one_voter_store).2 <> Ok tt.
Proof.
  destruct (create_voters_stores_a_prefix
              [voter 1 30; voter 2 40; voter 1 50; voter 3 60] one_voter_store)
    as (Hiff & Hkeep & _).
  split.
  - apply Hkeep. vm_compute. reflexivity.
  - intros H. apply Hiff in H as [_ Hfresh].
    specialize (Hfresh (voter 1 30) ltac:(left)). vm_compute in Hfresh.
    discriminate.
Defined.

(** X13. [update_voter] and [delete_voter] leave the store alone and
    raise the 404 for an unknown id.  For a known id, the updated voter is
    what [get_voter_by_id] returns under that id, whatever id the new record
    carries; a deleted voter is no longer found; deleting after updating
    equals deleting; other voters are unaffected; and neither touches the
    votes or the markers of the voters who voted. *)
Theorem update_and_delete_round_trip
  (voter_id : Z) (updated_voter : Voter) (st : Store) :
  (in_memory_voters st !! voter_id = None ->
   update_voter voter_id updated_voter st =
     (st, Raise (HTTPException 404
                   ("Voter with ID " +:+ pretty voter_id +:+ " not found."))) /\
   delete_voter voter_id st =
     (st, Raise (HTTPException 404
                   ("Voter with ID " +:+ pretty voter_id +:+ " not found.")))) /\
  (is_Some (in_memory_voters st !! voter_id) ->
   (update_voter voter_id updated_voter st).2 = Ok tt /\
   get_voter_by_id voter_id (update_voter voter_id updated_voter st).1
     = Ok updated_voter /\
   (delete_voter voter_id st).2 = Ok tt /\
   failed (get_voter_by_id voter_id (delete_voter voter_id st).1) /\
   (delete_voter voter_id (update_voter voter_id updated_voter st).1).1
     = (delete_voter voter_id st).1 /\
   (forall other, other <> voter_id ->
      get_voter_by_id other (update_voter voter_id updated_voter st).1
        = get_voter_by_id other st /\
      get_voter_by_id other (delete_voter voter_id st).1
        = get_voter_by_id other st) /\
   (forall v c,
      tally (update_voter voter_id updated_voter st).1 c = tally st c /\
      tally (delete_voter voter_id st).1 c = tally st c /\
      voter_voted (delete_voter voter_id st).1 !! v = voter_voted st !! v)).
Proof.
  unfold update_voter, delete_voter, get_voter_by_id. split.
  - intros Hnone. destruct (decide _) as [[x Hx]|_]; [congruence|].
    split; reflexivity.
  - intros Hsome. destruct (decide _) as [_|Hno]; [|contradiction]. simpl.
    split; [reflexivity|]. rewrite lookup_insert_eq.
    split; [reflexivity|]. split; [reflexivity|]. rewrite lookup_delete_eq.
    split; [eexists; reflexivity|].
    destruct (decide (is_Some (<[voter_id:=updated_voter]>
                                 (in_memory_voters st) !! voter_id)))
      as [_|Hno]; [|exfalso; apply Hno; rewrite lookup_insert_eq; eauto].
    split; [simpl; unfold set_voters; simpl; f_equal; apply delete_insert_eq|].
    split; [|intros v c; repeat split; reflexivity].
    intros other Hne.
    rewrite lookup_insert_ne, lookup_delete_ne by congruence.
    split; reflexivity.
Qed.

Lemma update_and_delete_round_trip_witness :
  is_Some (in_memory_voters one_voter_store !! 1) /\
  get_voter_by_id 1 (update_voter 1 (voter 9 70) one_voter_store).1
    = Ok (voter 9 70).
Proof.
  assert (is_Some (in_memory_voters one_voter_store !! 1)) as Hsome
    by (vm_compute; eauto).
  split; [exact Hsome|].
  destruct (update_and_delete_round_trip 1 (voter 9 70) one_voter_store)
    as [_ Hok].
  apply (Hok Hsome).
Defined.

(** ** What the pairwise matrix counts *)

Lemma before_sublist c d ranking :
  before c d ranking = true <-> [c; d] `sublist_of` ranking.
Proof.
  induction ranking as [|x rest IH]; simpl.
  - split; [discriminate|]. intros H. apply sublist_nil_r in H. discriminate.
  - rewrite orb_true_iff, andb_true_iff, !bool_decide_eq_true, IH,
      sublist_cons_r.
    split.
    + intros [[-> Hd]|H]; [|left; exact H].
      right. exists [d]. split; [reflexivity|].
      apply singleton_sublist_l, Hd.
    + intros [H|(l' & [= <- <-] & Hd)]; [right; exact H|].
      left. split; [reflexivity|]. apply singleton_sublist_l, Hd.
Qed.

Lemma before_members c d ranking :
  before c d ranking = true -> c ∈ ranking /\ d ∈ ranking.
Proof.
  intros H. apply before_sublist in H.
  split; apply (elem_of_sublist [c; d]); try exact H; [left | right; left].
Qed.

Lemma before_head c d rest :
  c ∉ rest -> before c d (c :: rest) = bool_decide (d ∈ rest).
Proof.
  intros Hc. simpl. rewrite bool_decide_eq_true_2 by reflexivity. simpl.
  destruct (before c d rest) eqn:E; [|apply orb_false_r].
  apply before_members in E as [E _]. contradiction.
Qed.

Lemma before_skip c d x rest :
  x <> c -> before c d (x :: rest) = before c d rest.
Proof.
  intros Hx. simpl. rewrite bool_decide_eq_false_2 by exact Hx. reflexivity.
Qed.

(** In a ranking without repeats, of two candidates at most one stands
    before the other. *)
Lemma before_asymmetric c d ranking :
  NoDup ranking -> before c d ranking = true -> before d c ranking = false.
Proof.
  induction ranking as [|x rest IH]; intros Hnd; [discriminate|].
  apply NoDup_cons in Hnd as [Hx Hnd].
  destruct (decide (x = c)) as [->|Hc].
  - rewrite before_head by exact Hx. intros Hd%bool_decide_eq_true.
    rewrite before_skip by (intros ->; contradiction).
    destruct (before d c rest) eqn:E; [|reflexivity].
    apply before_members in E as [_ E]. contradiction.
  - rewrite before_skip by exact Hc. intros Hcd.
    destruct (decide (x = d)) as [->|Hd].
    + apply before_members in Hcd as [_ Hcd]. contradiction.
    + rewrite before_skip by exact Hd. apply IH; assumption.
Qed.

Lemma init_pairwise_cell cs a b : cell (init_pairwise cs) a b = 0.
Proof.
  unfold cell, init_pairwise.
  rewrite (lookup_comprehension
             (fun c => list_to_map (map (fun d => (d, 0))
                                        (filter (fun d => d ≠ c) cs)))).
  destruct (decide (a ∈ cs)) as [_|_]; [|reflexivity].
  rewrite (lookup_comprehension (fun _ => 0)).
  destruct (decide _); reflexivity.
Qed.

Section Tallying.
Variable cs : list Z.

Lemma increment_cell pw ci cj :
  pairwise_shape cs pw -> ci ∈ cs -> cj ∈ cs -> ci <> cj ->
  exists pw', increment ci cj pw = Ok pw' /\ pairwise_shape cs pw' /\
    forall a b, cell pw' a b =
                cell pw a b + (if decide (a = ci /\ b = cj) then 1 else 0).
Proof.
  intros Hpw Hci Hcj Hne.
  destruct (increment_ok cs pw ci cj Hpw Hci Hcj Hne) as (pw' & Hrun & Hpw').
  exists pw'. split; [exact Hrun|]. split; [exact Hpw'|].
  destruct (Hpw ci Hci) as (row & Hrow & Hdiag & Hcells).
  destruct (Hcells cj Hcj (not_eq_sym Hne)) as [n Hn].
  unfold increment, getitem2, setitem2, getitem in Hrun.
  rewrite Hrow in Hrun. simpl in Hrun. rewrite Hn in Hrun. simpl in Hrun.
  injection Hrun as <-.
  intros a b. unfold cell. destruct (decide (a = ci)) as [->|Ha].
  - rewrite lookup_insert_eq, Hrow. destruct (decide (b = cj)) as [->|Hb].
    + rewrite lookup_insert_eq, Hn. simpl.
      destruct (decide _) as [_|Hno]; [reflexivity | tauto].
    + rewrite lookup_insert_ne by congruence.
      destruct (decide _) as [[_ ?]|_]; [contradiction | lia].
  - rewrite lookup_insert_ne by congruence.
    destruct (decide _) as [[? _]|_]; [contradiction | lia].
Qed.

Lemma increments_cell pw ci rest :
  pairwise_shape cs pw -> ci ∈ cs -> (forall x, x ∈ rest -> x ∈ cs) ->
  ci ∉ rest -> NoDup rest ->
  exists pw', for_each rest (fun cj pw => increment ci cj pw) pw = Ok pw' /\
    pairwise_shape cs pw' /\
    forall a b, cell pw' a b =
                cell pw a b + (if decide (a = ci /\ b ∈ rest) then 1 else 0).
Proof.
  intros Hpw Hci. revert pw Hpw.
  induction rest as [|cj rest IH]; intros pw Hpw Hin Hnot Hnd; simpl.
  - exists pw. split; [reflexivity|]. split; [exact Hpw|]. intros a b.
    destruct (decide _) as [[_ H]|_]; [|lia].
    apply elem_of_nil in H. contradiction.
  - apply NoDup_cons in Hnd as [Hcj Hnd].
    apply not_elem_of_cons in Hnot as [Hne Hnot].
    destruct (increment_cell pw ci cj Hpw Hci) as (pw1 & Hrun1 & Hpw1 & Hc1);
      [apply Hin; left | exact Hne |].
    rewrite Hrun1. simpl.
    destruct (IH pw1 Hpw1) as (pw2 & Hrun2 & Hpw2 & Hc2);
      [intros x Hx; apply Hin; right; exact Hx | exact Hnot | exact Hnd |].
    exists pw2. split; [exact Hrun2|]. split; [exact Hpw2|]. intros a b.
    rewrite Hc2, Hc1.
    assert (a = ci /\ b ∈ cj :: rest <->
            (a = ci /\ b = cj) \/ (a = ci /\ b ∈ rest)) as Hiff
      by (rewrite elem_of_cons; tauto).
    assert (~ ((a = ci /\ b = cj) /\ (a = ci /\ b ∈ rest))) as Hex
      by (intros [[_ ->] [_ ?]]; contradiction).
    destruct (decide (a = ci /\ b = cj)), (decide (a = ci /\ b ∈ rest)),
      (decide (a = ci /\ b ∈ cj :: rest)); try lia; tauto.
Qed.

Lemma count_tail_cell pw ranking :
  pairwise_shape cs pw -> (forall x, x ∈ ranking -> x ∈ cs) -> NoDup ranking ->
  exists pw', count_tail ranking pw = Ok pw' /\ pairwise_shape cs pw' /\
    forall a b, cell pw' a b =
                cell pw a b + (if before a b ranking then 1 else 0).
Proof.
  revert pw. induction ranking as [|ci rest IH]; intros pw Hpw Hin Hnd.
  - exists pw. split; [reflexivity|]. split; [exact Hpw|]. intros a b. simpl. lia.
  - pose proof Hnd as Hnd'. apply NoDup_cons in Hnd' as [Hnot Hrest].
    destruct (increments_cell pw ci rest Hpw) as (pw1 & Hrun1 & Hpw1 & Hc1);
      [apply Hin; left | intros x Hx; apply Hin; right; exact Hx
       | exact Hnot | exact Hrest |].
    destruct (IH pw1 Hpw1) as (pw2 & Hrun2 & Hpw2 & Hc2);
      [intros x Hx; apply Hin; right; exact Hx | exact Hrest |].
    exists pw2. cbn [count_tail]. rewrite Hrun1. split; [exact Hrun2|].
    split; [exact Hpw2|]. intros a b. rewrite Hc2, Hc1.
    destruct (decide (a = ci)) as [->|Ha].
    + rewrite before_head by exact Hnot.
      destruct (before ci b rest) eqn:E;
        [apply before_members in E as [E _]; contradiction|].
      destruct (decide (ci = ci /\ b ∈ rest)) as [[_ Hb]|Hb].
      * rewrite bool_decide_eq_true_2 by exact Hb. lia.
      * rewrite bool_decide_eq_false_2 by tauto. lia.
    + rewrite before_skip by congruence.
      destruct (decide (a = ci /\ b ∈ rest)) as [[? _]|_]; [contradiction|].
      lia.
Qed.

Lemma count_preferences_cell ballots pw :
  pairwise_shape cs pw ->
  (forall b x, b ∈ ballots -> x ∈ rb_ranking b -> x ∈ cs) ->
  Forall strict_order ballots ->
  exists pw', count_preferences ballots pw = Ok pw' /\ pairwise_shape cs pw' /\
    forall a b, cell pw' a b =
                cell pw a b + Z.of_nat (length (filter (ranks_above a b) ballots)).
Proof.
  unfold count_preferences. revert pw.
  induction ballots as [|x bs IH]; intros pw Hpw Hin Hall.
  - exists pw. split; [reflexivity|]. split; [exact Hpw|]. intros a b.
    simpl. lia.
  - apply Forall_cons in Hall as [Hx Hall]. cbn [for_each].
    rewrite count_ballot_tail.
    destruct (count_tail_cell pw (rb_ranking x) Hpw) as (pw1 & Hrun1 & Hpw1 & Hc1);
      [intros c; apply Hin; left | exact Hx |].
    rewrite Hrun1.
    destruct (IH pw1 Hpw1) as (pw2 & Hrun2 & Hpw2 & Hc2);
      [intros b c Hb; apply Hin; right; exact Hb | exact Hall |].
    exists pw2. split; [exact Hrun2|]. split; [exact Hpw2|]. intros a b.
    rewrite Hc2, Hc1, filter_cons. unfold ranks_above at 2.
    destruct (decide (before a b (rb_ranking x) = true)) as [E|E].
    + rewrite E. cbn [length]. lia.
    + apply not_true_is_false in E. rewrite E. lia.
Qed.
End Tallying.

Lemma pairwise_of_counts st cs pw :
  listing cs (universe st) -> pairwise_of cs st = Ok pw ->
  forall a b, cell pw a b = Z.of_nat (length (preferring st a b)).
Proof.
  intros Hcs Hpw.
  destruct (pairwise_of_ok st cs Hcs pw Hpw) as [Hall _].
  destruct (count_preferences_cell cs (ranked_ballots st) (init_pairwise cs))
    as (pw' & Hrun & _ & Hcells);
    [apply init_pairwise_shape | apply (rankings_within st cs Hcs) | exact Hall |].
  unfold pairwise_of in Hpw. rewrite Hpw in Hrun. injection Hrun as <-.
  intros a b. rewrite Hcells, init_pairwise_cell. unfold preferring. lia.
Qed.

Lemma preferring_disjoint st c d :
  Forall strict_order (ranked_ballots st) ->
  (length (preferring st c d) + length (preferring st d c)
   <= length (ranked_ballots st))%nat.
Proof.
  unfold preferring. intros Hall.
  induction (ranked_ballots st) as [|b bs IH]; [simpl; lia|].
  apply Forall_cons in Hall as [Hb Hall]. specialize (IH Hall).
  rewrite !filter_cons.
  destruct (decide (ranks_above c d b)) as [E|E];
    destruct (decide (ranks_above d c b)) as [F|F]; simpl; try lia.
  unfold ranks_above in E, F. rewrite (before_asymmetric c d _ Hb E) in F.
  discriminate.
Qed.

(** The counting loops write existing entries only. *)
Lemma init_pairwise_keys cs : pairwise_keys cs (init_pairwise cs).
Proof.
  intros c. unfold init_pairwise.
  rewrite (lookup_comprehension
             (fun c => list_to_map (map (fun d => (d, 0))
                                        (filter (fun d => d ≠ c) cs)))).
  destruct (decide (c ∈ cs)) as [Hc|Hc]; [|exact Hc].
  split; [exact Hc|]. intros d.
  rewrite (lookup_comprehension (fun _ => 0)).
  destruct (decide (d ∈ filter (fun d => d ≠ c) cs)) as [Hd|Hd].
  - apply list_elem_of_filter in Hd as [Hne Hd]. split; [tauto | eauto].
  - split; [intros [x Hx]; discriminate|]. intros [Hd' Hne].
    exfalso. apply Hd. apply list_elem_of_filter. split; assumption.
Qed.

Lemma increment_keys cs ci cj pw pw' :
  increment ci cj pw = Ok pw' -> pairwise_keys cs pw -> pairwise_keys cs pw'.
Proof.
  unfold increment, getitem2, setitem2, getitem.
  destruct (pw !! ci) as [row|] eqn:Hrow; simpl; [|discriminate].
  destruct (row !! cj) as [n|] eqn:Hn; simpl; [|discriminate].
  intros [= <-] Hk c. destruct (decide (c = ci)) as [->|Hne].
  - rewrite lookup_insert_eq. specialize (Hk ci). rewrite Hrow in Hk.
    destruct Hk as [Hci Hd]. split; [exact Hci|]. intros d.
    destruct (decide (d = cj)) as [->|Hdne].
    + rewrite lookup_insert_eq, <- Hd, Hn. split; eauto.
    + rewrite lookup_insert_ne by congruence. apply Hd.
  - rewrite lookup_insert_ne by congruence. apply Hk.
Qed.

Lemma for_each_preserves {A S : Type} (P : S -> Prop) (l : list A) body :
  (forall x s s', body x s = Ok s' -> P s -> P s') ->
  forall s s', for_each l body s = Ok s' -> P s -> P s'.
Proof.
  intros Hstep. induction l as [|x l IH]; intros s s'; simpl.
  - intros [= <-] HP. exact HP.
  - destruct (body x s) as [s1|e] eqn:E; simpl; [|discriminate].
    intros Hrun HP. apply (IH s1 s' Hrun). apply (Hstep x s s1 E HP).
Qed.

Lemma count_tail_keys cs ranking pw pw' :
  count_tail ranking pw = Ok pw' -> pairwise_keys cs pw -> pairwise_keys cs pw'.
Proof.
  revert pw. induction ranking as [|ci rest IH]; intros pw; simpl.
  - intros [= <-] Hk. exact Hk.
  - destruct (for_each rest _ pw) as [pw1|e] eqn:E; simpl; [|discriminate].
    intros Hrun Hk. apply (IH pw1 Hrun).
    apply (for_each_preserves (pairwise_keys cs) rest _
             (fun cj s s' => increment_keys cs ci cj s s') pw pw1 E Hk).
Qed.

Lemma pairwise_of_keys cs st pw :
  pairwise_of cs st = Ok pw -> pairwise_keys cs pw.
Proof.
  unfold pairwise_of, count_preferences. intros Hrun.
  apply (for_each_preserves (pairwise_keys cs) (ranked_ballots st) _
           (fun b s s' H => count_tail_keys cs (rb_ranking b) s s'
                              (eq_trans (eq_sym (count_ballot_tail _ s)) H))
           _ _ Hrun).
  apply init_pairwise_keys.
Qed.

(** Two matrices over the same keys that hold the same counts. *)
Lemma pairwise_keys_eq cs1 cs2 pw1 pw2 :
  (forall c, c ∈ cs1 <-> c ∈ cs2) ->
  pairwise_keys cs1 pw1 -> pairwise_keys cs2 pw2 ->
  (forall a b, cell pw1 a b = cell pw2 a b) -> pw1 = pw2.
Proof.
  intros Hsame H1 H2 Hcell. apply map_eq. intros c.
  specialize (H1 c). specialize (H2 c).
  pose proof (Hcell c) as Hrow. unfold cell in Hrow.
  destruct (pw1 !! c) as [row1|], (pw2 !! c) as [row2|].
  - f_equal. apply map_eq. intros d. specialize (Hrow d).
    destruct H1 as [_ H1], H2 as [_ H2]. specialize (H1 d). specialize (H2 d).
    destruct (row1 !! d) as [n1|], (row2 !! d) as [n2|].
    + simpl in Hrow. congruence.
    + exfalso. assert (is_Some (@None Z)) as [x Hx]; [|discriminate].
      apply H2. rewrite <- Hsame. apply H1. eauto.
    + exfalso. assert (is_Some (@None Z)) as [x Hx]; [|discriminate].
      apply H1. rewrite Hsame. apply H2. eauto.
    + reflexivity.
  - exfalso. apply H2, Hsame, (proj1 H1).
  - exfalso. apply H1, Hsame, (proj1 H2).
  - reflexivity.
Qed.

(** What a returned result is made of. *)
Lemma schulze_winner_anatomy st cs r :
  listing cs (universe st) -> schulze_winner cs st = Ok r ->
  ranked_ballots st <> [] /\
  Forall strict_order (ranked_ballots st) /\
  pairwise_of cs st = Ok (sr_audit_trail r) /\
  pairwise_shape cs (sr_audit_trail r) /\
  exists g s,
    complete cs g /\ majority_graph cs (sr_audit_trail r) g /\
    relaxation_pass cs g = Ok s /\ complete cs s /\ stable cs s /\
    strongest_paths cs g s /\
    sr_winners r `sublist_of` cs /\
    (forall c, c ∈ sr_winners r <-> c ∈ cs /\ unbeaten cs s c) /\
    majority_edges cs (sr_audit_trail r) (zero_strength cs) = Ok g /\
    schulze_strength cs (sr_audit_trail r) = Ok s.
Proof.
  intros Hcs Hr.
  assert (ranked_ballots st <> []) as Hne.
  { intros E. unfold schulze_winner in Hr. rewrite E in Hr. discriminate. }
  split; [exact Hne|]. rewrite (schulze_winner_unfold cs st Hne) in Hr.
  destruct (pairwise_of cs st) as [pw|e] eqn:Hpw; [|discriminate].
  destruct (pairwise_of_ok st cs Hcs pw Hpw) as [Hall Hshape].
  pose proof (proj1 Hcs) as Hnodup.
  destruct (schulze_from_pairwise cs pw Hnodup Hshape)
    as (g & s & ws & Hg & Hgc & Hgm & Hpass & Hsc & Hs & Hws & Hsub & Hmem).
  simpl in Hr. rewrite Hs in Hr. simpl in Hr. rewrite Hws in Hr. simpl in Hr.
  injection Hr as <-. simpl.
  split; [exact Hall|]. split; [reflexivity|]. split; [exact Hshape|].
  exists g, s.
  destruct (relaxation_pass_closure cs g Hnodup Hgc)
    as (s' & Hpass' & _ & Hst & _).
  rewrite Hpass in Hpass'. injection Hpass' as <-.
  destruct (relaxation_pass_strongest cs g s Hnodup Hgc Hpass) as [_ Hstrong].
  split; [exact Hgc|]. split; [exact Hgm|]. split; [exact Hpass|].
  split; [exact Hsc|]. split; [exact Hst|]. split; [exact Hstrong|].
  split; [exact Hsub|]. split; [exact Hmem|]. split; [exact Hg | exact Hs].
Qed.

(** X14. When [schulze_winner] returns, the entry [audit_trail[c][d]]
    for two distinct candidates is the number of stored ballots that rank
    both and rank [c] before [d]; the two entries of a pair add up to at
    most the number of ballots; and there is no entry [audit_trail[c][c]]. *)
Theorem audit_trail_counts_the_preferences
  (st : Store) (cs : list Z) (r : SchulzeResult) :
  listing cs (universe st) ->
  schulze_winner cs st = Ok r ->
  (forall c d, c ∈ cs -> d ∈ cs -> c <> d ->
     getitem2 (sr_audit_trail r) c d
       = Ok (Z.of_nat (length (preferring st c d))) /\
     (length (preferring st c d) + length (preferring st d c)
      <= length (ranked_ballots st))%nat) /\
  (forall c, c ∈ cs -> getitem2 (sr_audit_trail r) c c = Raise (KeyError c)) /\
  (forall c d ballot,
     ranks_above c d ballot <-> [c; d] `sublist_of` rb_ranking ballot).
Proof.
  intros Hcs Hr.
  destruct (schulze_winner_anatomy st cs r Hcs Hr)
    as (_ & Hall & Hpw & Hshape & _).
  split; [|split].
  - intros c d Hc Hd Hne. split; [|apply preferring_disjoint, Hall].
    rewrite (getitem2_shape cs _ c d Hshape Hc Hd Hne).
    rewrite (pairwise_of_counts st cs _ Hcs Hpw). reflexivity.
  - intros c Hc. destruct (Hshape c Hc) as (row & Hrow & Hdiag & _).
    unfold getitem2, getitem. rewrite Hrow. simpl. rewrite Hdiag. reflexivity.
  - intros c d ballot. apply before_sublist.
Qed.

Lemma majority_listing : listing [1; 2; 3] (universe majority_store).
Proof.
  split; [apply (bool_decide_unpack _); vm_compute; exact I|].
  intros c. rewrite <- elem_of_elements.
  replace (elements (universe majority_store)) with [3; 2; 1]
    by (vm_compute; reflexivity).
  rewrite !elem_of_cons. split.
  - intros [->|[->|[->|H]]]; [tauto | tauto | tauto |].
    apply elem_of_nil in H. contradiction.
  - intros [->|[->|[->|H]]]; [tauto | tauto | tauto |].
    apply elem_of_nil in H. contradiction.
Qed.

Lemma audit_trail_counts_the_preferences_witness :
  listing [1; 2; 3] (universe majority_store) /\
  exists r,
    schulze_winner [1; 2; 3] majority_store = Ok r /\
    getitem2 (sr_audit_trail r) 1 2 = Ok 3 /\
    getitem2 (sr_audit_trail r) 2 1 = Ok 2.
Proof.
  split; [exact majority_listing|].
  destruct (schulze_winner [1; 2; 3] majority_store) as [r|e] eqn:Hr;
    [|vm_compute in Hr; discriminate].
  exists r. split; [reflexivity|].
  destruct (audit_trail_counts_the_preferences majority_store [1; 2; 3] r
              majority_listing Hr) as (Hcount & _).
  assert (1 ∈ [1; 2; 3]) as H1 by (left).
  assert (2 ∈ [1; 2; 3]) as H2 by (right; left).
  split.
  - rewrite (proj1 (Hcount 1 2 H1 H2 ltac:(lia))). vm_compute. reflexivity.
  - rewrite (proj1 (Hcount 2 1 H2 H1 ltac:(lia))). vm_compute. reflexivity.
Defined.

(** ** The Condorcet winner *)

Lemma path_strength_last cs g c :
  (forall x, x ∈ cs -> cell g x c <= 0) ->
  forall p j, j ∈ cs -> path_to cs c p -> path_strength g j p <= 0.
Proof.
  intros Hzero p. induction p as [|a p IH]; intros j Hj [Hlast Hin];
    [discriminate|].
  destruct p as [|b p].
  - simpl in Hlast. injection Hlast as ->. simpl. apply Hzero, Hj.
  - assert (path_strength g a (b :: p) <= 0) as Hrest.
    { apply IH; [apply Hin; left|]. split.
      - rewrite last_cons_cons in Hlast. exact Hlast.
      - intros x Hx. apply Hin. right. exact Hx. }
    change (path_strength g j (a :: b :: p))
      with (Z.min (cell g j a) (path_strength g a (b :: p))).
    etransitivity; [apply Z.le_min_r | exact Hrest].
Qed.

Lemma sublist_singleton_members (cs ws : list Z) c :
  NoDup cs -> ws `sublist_of` cs -> (forall x, x ∈ ws <-> x = c) -> ws = [c].
Proof.
  intros Hnd Hsub Hmem. pose proof (sublist_NoDup _ _ Hnd Hsub) as Hws.
  destruct ws as [|x ws].
  - assert (c ∈ @nil Z) as H by (apply Hmem; reflexivity).
    apply elem_of_nil in H. contradiction.
  - assert (x = c) as -> by (apply Hmem; left).
    destruct ws as [|y ws]; [reflexivity|]. exfalso.
    assert (y = c) as -> by (apply Hmem; right; left).
    apply NoDup_cons in Hws as [Hc _]. apply Hc. left.
Qed.

(** X15. When [schulze_winner] returns and some candidate is ranked
    above each other candidate by more ballots than rank that candidate
    above it, this candidate is the only winner. *)
Theorem condorcet_winner_wins_alone
  (st : Store) (cs : list Z) (r : SchulzeResult) (c : Z) :
  listing cs (universe st) ->
  schulze_winner cs st = Ok r ->
  condorcet_winner cs st c ->
  sr_winners r = [c].
Proof.
  intros Hcs Hr [Hc Hmaj].
  destruct (schulze_winner_anatomy st cs r Hcs Hr)
    as (_ & Hall & Hpw & Hshape & g & s & Hgc & Hgm & Hpass & Hsc & Hst
        & Hstrong & Hsub & Hmem & Hedges & Hss).
  pose proof (pairwise_of_counts st cs _ Hcs Hpw) as Hcount.
  assert (forall d, d ∈ cs -> d <> c -> 1 <= cell g c d) as Hwin.
  { intros d Hd Hne. rewrite (Hgm c d Hc Hd), !Hcount.
    specialize (Hmaj d Hd Hne).
    destruct (decide _) as [_|Hno]; [lia|].
    exfalso. apply Hno. split; [congruence | lia]. }
  assert (forall x, x ∈ cs -> cell g x c <= 0) as Hlose.
  { intros x Hx. rewrite (Hgm x c Hx Hc), !Hcount.
    destruct (decide _) as [[Hne Hgt]|_]; [|lia].
    specialize (Hmaj x Hx Hne). lia. }
  assert (forall d, d ∈ cs -> d <> c -> cell s d c <= 0 /\ 1 <= cell s c d)
    as Hedge.
  { intros d Hd Hne. split.
    - destruct (Hstrong d c Hd Hc Hne) as [_ (p & Hp & <-)].
      apply (path_strength_last cs g c Hlose p d Hd Hp).
    - destruct (Hstrong c d Hc Hd (not_eq_sym Hne)) as [Hub _].
      specialize (Hub [d]). simpl in Hub.
      assert (cell g c d <= cell s c d) as Hle.
      { apply Hub. split; [reflexivity|]. intros x Hx.
        apply list_elem_of_singleton in Hx. subst x. exact Hd. }
      specialize (Hwin d Hd Hne). lia. }
  apply (sublist_singleton_members cs); [apply Hcs | exact Hsub|].
  intros x. rewrite Hmem. split.
  - intros [Hx Hun]. destruct (decide (x = c)) as [->|Hne]; [reflexivity|].
    exfalso. specialize (Hun c Hc (not_eq_sym Hne)).
    destruct (Hedge x Hx Hne). lia.
  - intros ->. split; [exact Hc|]. intros d Hd Hne.
    destruct (Hedge d Hd Hne). lia.
Qed.

Lemma condorcet_winner_wins_alone_witness :
  (listing [1; 2; 3] (universe majority_store) /\
   condorcet_winner [1; 2; 3] majority_store 1) /\
  exists r, schulze_winner [1; 2; 3] majority_store = Ok r /\ sr_winners r = [1].
Proof.
  assert (condorcet_winner [1; 2; 3] majority_store 1) as Hcw.
  { split; [left|]. intros d Hd Hne.
    repeat (apply elem_of_cons in Hd as [->|Hd]);
      [contradiction | vm_compute; lia | vm_compute; lia |].
    apply elem_of_nil in Hd. contradiction. }
  split; [split; [exact majority_listing | exact Hcw]|].
  destruct (schulze_winner [1; 2; 3] majority_store) as [r|e] eqn:Hr;
    [|vm_compute in Hr; discriminate].
  exists r. split; [reflexivity|].
  exact (condorcet_winner_wins_alone majority_store [1; 2; 3] r 1
           majority_listing Hr Hcw).
Defined.

(** ** There is always a winner *)

Lemma beats_transitive cs s a b c :
  stable cs s -> a ∈ cs -> b ∈ cs -> c ∈ cs ->
  beats s a b -> beats s b c -> beats s a c.
Proof.
  unfold beats. intros Hst Ha Hb Hc Hab Hbc.
  destruct (decide (a = b)) as [->|Nab]; [lia|].
  destruct (decide (b = c)) as [->|Nbc]; [lia|].
  destruct (decide (a = c)) as [->|Nac]; [lia|].
  pose proof (Hst b a c Hb Ha Hc ltac:(congruence) ltac:(congruence)
                ltac:(congruence)) as H1.
  pose proof (Hst c b a Hc Hb Ha ltac:(congruence) ltac:(congruence)
                ltac:(congruence)) as H2.
  pose proof (Hst a c b Ha Hc Hb ltac:(congruence) ltac:(congruence)
                ltac:(congruence)) as H3.
  destruct (Z.min_spec (cell s a b) (cell s b c)) as [[? E1]|[? E1]];
    rewrite E1 in H1;
    destruct (Z.min_spec (cell s b c) (cell s c a)) as [[? E2]|[? E2]];
    rewrite E2 in H2;
    destruct (Z.min_spec (cell s c a) (cell s a b)) as [[? E3]|[? E3]];
    rewrite E3 in H3; lia.
Qed.

Lemma unbeaten_exists cs s l :
  stable cs s -> l <> [] -> (forall x, x ∈ l -> x ∈ cs) ->
  exists m, m ∈ l /\ forall x, x ∈ l -> ~ beats s x m.
Proof.
  intros Hst. induction l as [|x l IH]; intros Hne Hin; [congruence|].
  destruct l as [|y l].
  - exists x. split; [left|]. intros z Hz.
    apply list_elem_of_singleton in Hz. subst z. unfold beats. lia.
  - destruct IH as (m & Hm & Hmax);
      [discriminate | intros z Hz; apply Hin; right; exact Hz|].
    destruct (decide (cell s x m > cell s m x)) as [Hxm|Hxm].
    + exists x. split; [left|]. intros z Hz.
      apply elem_of_cons in Hz as [->|Hz]; [unfold beats; lia|].
      intros Hzx. apply (Hmax z Hz).
      apply (beats_transitive cs s z x m Hst);
        [apply Hin; right; exact Hz | apply Hin; left
         | apply Hin; right; exact Hm | exact Hzx | exact Hxm].
    + exists m. split; [right; exact Hm|]. intros z Hz.
      apply elem_of_cons in Hz as [->|Hz]; [exact Hxm | apply Hmax, Hz].
Qed.

Lemma universe_empty st cs :
  listing cs (universe st) ->
  (cs = [] <-> Forall (fun b => rb_ranking b = []) (ranked_ballots st)).
Proof.
  intros [_ Hmem]. rewrite Forall_forall. split.
  - intros -> b Hb. destruct (rb_ranking b) as [|x l] eqn:E; [reflexivity|].
    exfalso. apply (not_elem_of_nil x). apply Hmem.
    apply elem_of_candidate_set. exists b. split; [exact Hb|].
    rewrite E. left.
  - intros Hall. destruct cs as [|c cs]; [reflexivity|]. exfalso.
    assert (c ∈ universe st) as Hc by (apply Hmem; left).
    apply elem_of_candidate_set in Hc as (b & Hb & Hc).
    rewrite (Hall b Hb) in Hc. apply elem_of_nil in Hc. contradiction.
Qed.

(** X16. When [schulze_winner] returns, the list of winners is empty
    only if every stored ranking is empty, and any two winners have equal
    strength against each other. *)
Theorem schulze_winner_names_a_winner
  (st : Store) (cs : list Z) (r : SchulzeResult) :
  listing cs (universe st) ->
  schulze_winner cs st = Ok r ->
  (sr_winners r = [] <->
   Forall (fun b => rb_ranking b = []) (ranked_ballots st)) /\
  (forall c d, c ∈ sr_winners r -> d ∈ sr_winners r ->
     exists s, schulze_strength cs (sr_audit_trail r) = Ok s /\
               cell s c d = cell s d c).
Proof.
  intros Hcs Hr.
  destruct (schulze_winner_anatomy st cs r Hcs Hr)
    as (_ & Hall & Hpw & Hshape & g & s & Hgc & Hgm & Hpass & Hsc & Hst
        & Hstrong & Hsub & Hmem & Hedges & Hss).
  split.
  - rewrite <- (universe_empty st cs Hcs). split.
    + intros Hw. destruct (decide (cs = [])) as [|Hne]; [assumption|].
      exfalso.
      destruct (unbeaten_exists cs s cs Hst Hne) as (m & Hm & Hmax); [tauto|].
      assert (m ∈ sr_winners r) as Hin.
      { apply Hmem. split; [exact Hm|]. intros d Hd _.
        specialize (Hmax d Hd). unfold beats in Hmax. lia. }
      rewrite Hw in Hin. apply elem_of_nil in Hin. contradiction.
    + intros ->. apply sublist_nil_r in Hsub. exact Hsub.
  - intros c d Hc Hd. exists s. split.
    + exact Hss.
    + apply Hmem in Hc as [Hc Hcu]. apply Hmem in Hd as [Hd Hdu].
      destruct (decide (c = d)) as [->|Hne]; [reflexivity|].
      specialize (Hcu d Hd (not_eq_sym Hne)). specialize (Hdu c Hc Hne). lia.
Qed.

Lemma schulze_winner_names_a_winner_witness :
  listing [1; 2; 3] (universe majority_store) /\
  exists r, schulze_winner [1; 2; 3] majority_store = Ok r /\
            sr_winners r <> [].
Proof.
  split; [exact majority_listing|].
  destruct (schulze_winner [1; 2; 3] majority_store) as [r|e] eqn:Hr;
    [|vm_compute in Hr; discriminate].
  exists r. split; [reflexivity|].
  destruct (schulze_winner_names_a_winner majority_store [1; 2; 3] r
              majority_listing Hr) as [Hiff _].
  intros Hw. apply Hiff in Hw. apply Forall_cons in Hw as [Hw _].
  vm_compute in Hw. discriminate.
Defined.

(** ** The winners do not depend on the listing *)

Lemma path_strength_agree (cs : list Z) g1 g2 :
  (forall a b, a ∈ cs -> b ∈ cs -> cell g1 a b = cell g2 a b) ->
  forall p j, j ∈ cs -> (forall x, x ∈ p -> x ∈ cs) ->
    path_strength g1 j p = path_strength g2 j p.
Proof.
  intros Hg p. induction p as [|a p IH]; intros j Hj Hin; [reflexivity|].
  assert (a ∈ cs) as Ha by (apply Hin; left).
  destruct p as [|b p]; [simpl; apply Hg; assumption|].
  change (path_strength g1 j (a :: b :: p))
    with (Z.min (cell g1 j a) (path_strength g1 a (b :: p))).
  change (path_strength g2 j (a :: b :: p))
    with (Z.min (cell g2 j a) (path_strength g2 a (b :: p))).
  rewrite (Hg j a Hj Ha), (IH a Ha); [reflexivity|].
  intros x Hx. apply Hin. right. exact Hx.
Qed.

Lemma strongest_paths_agree (cs1 cs2 : list Z) g1 g2 s1 s2 :
  (forall c, c ∈ cs1 <-> c ∈ cs2) ->
  (forall a b, a ∈ cs1 -> b ∈ cs1 -> cell g1 a b = cell g2 a b) ->
  strongest_paths cs1 g1 s1 -> strongest_paths cs2 g2 s2 ->
  forall j k, j ∈ cs1 -> k ∈ cs1 -> j <> k -> cell s1 j k <= cell s2 j k.
Proof.
  intros Hsame Hg H1 H2 j k Hj Hk Hne.
  destruct (H1 j k Hj Hk Hne) as [_ (p & [Hlast Hin] & <-)].
  destruct (H2 j k (proj1 (Hsame j) Hj) (proj1 (Hsame k) Hk) Hne) as [Hub _].
  rewrite (path_strength_agree cs1 g1 g2 Hg p j Hj Hin).
  apply Hub. split; [exact Hlast|]. intros x Hx. apply Hsame, Hin, Hx.
Qed.

(** X17. The result of [schulze_winner] does not depend on the order
    in which [list(candidates)] lists the candidate set: if it returns for
    one listing it returns for every other, with the same audit trail and
    the same winners up to their order. *)
Theorem schulze_winners_do_not_depend_on_the_listing
  (st : Store) (cs1 cs2 : list Z) (r1 : SchulzeResult) :
  listing cs1 (universe st) -> listing cs2 (universe st) ->
  schulze_winner cs1 st = Ok r1 ->
  exists r2,
    schulze_winner cs2 st = Ok r2 /\
    sr_winners r1 ≡ₚ sr_winners r2 /\
    sr_audit_trail r1 = sr_audit_trail r2.
Proof.
  intros Hcs1 Hcs2 Hr1.
  destruct (schulze_winner_anatomy st cs1 r1 Hcs1 Hr1)
    as (Hne & Hall & Hpw1 & Hshape1 & g1 & s1 & Hgc1 & Hgm1 & Hpass1 & Hsc1
        & Hst1 & Hstrong1 & Hsub1 & Hmem1 & _).
  destruct (proj2 (proj1 (schulze_winner_general st cs2 Hne Hcs2)) Hall)
    as [r2 Hr2].
  exists r2. split; [exact Hr2|].
  destruct (schulze_winner_anatomy st cs2 r2 Hcs2 Hr2)
    as (_ & _ & Hpw2 & Hshape2 & g2 & s2 & Hgc2 & Hgm2 & Hpass2 & Hsc2
        & Hst2 & Hstrong2 & Hsub2 & Hmem2 & _).
  assert (forall c, c ∈ cs1 <-> c ∈ cs2) as Hsame.
  { intros c. rewrite (proj2 Hcs1 c), (proj2 Hcs2 c). reflexivity. }
  pose proof (pairwise_of_counts st cs1 _ Hcs1 Hpw1) as Hcount1.
  pose proof (pairwise_of_counts st cs2 _ Hcs2 Hpw2) as Hcount2.
  assert (forall a b, a ∈ cs1 -> b ∈ cs1 -> cell g1 a b = cell g2 a b) as Hg.
  { intros a b Ha Hb.
    rewrite (Hgm1 a b Ha Hb),
      (Hgm2 a b (proj1 (Hsame a) Ha) (proj1 (Hsame b) Hb)).
    rewrite !Hcount1, !Hcount2. reflexivity. }
  assert (forall j k, j ∈ cs1 -> k ∈ cs1 -> j <> k -> cell s1 j k = cell s2 j k)
    as Hs.
  { intros j k Hj Hk Hjk. apply Z.le_antisymm.
    - apply (strongest_paths_agree cs1 cs2 g1 g2 s1 s2); assumption.
    - apply (strongest_paths_agree cs2 cs1 g2 g1 s2 s1); try assumption.
      + intros c. symmetry. apply Hsame.
      + intros a b Ha Hb. symmetry. apply Hg; apply Hsame; assumption.
      + apply Hsame, Hj.
      + apply Hsame, Hk. }
  split.
  - apply NoDup_Permutation.
    + apply (sublist_NoDup _ cs1); [apply Hcs1 | exact Hsub1].
    + apply (sublist_NoDup _ cs2); [apply Hcs2 | exact Hsub2].
    + intros c. rewrite Hmem1, Hmem2. unfold unbeaten. split.
      * intros [Hc Hun]. split; [apply Hsame, Hc|]. intros d Hd Hdc.
        apply Hsame in Hd.
        rewrite <- (Hs c d), <- (Hs d c) by (try assumption; congruence).
        apply Hun; assumption.
      * intros [Hc Hun]. apply Hsame in Hc. split; [exact Hc|].
        intros d Hd Hdc.
        rewrite (Hs c d), (Hs d c) by (try assumption; congruence).
        apply Hun; [apply Hsame, Hd | exact Hdc].
  - apply (pairwise_keys_eq cs1 cs2); [exact Hsame | | |].
    + apply (pairwise_of_keys cs1 st), Hpw1.
    + apply (pairwise_of_keys cs2 st), Hpw2.
    + intros a b. rewrite Hcount1, Hcount2. reflexivity.
Qed.

Lemma schulze_winners_do_not_depend_on_the_listing_witness :
  (listing [1; 2; 3] (universe majority_store) /\
   listing (elements (universe majority_store)) (universe majority_store)) /\
  exists r1 r2,
    schulze_winner [1; 2; 3] majority_store = Ok r1 /\
    schulze_winner (elements (universe majority_store)) majority_store = Ok r2 /\
    sr_audit_trail r1 = sr_audit_trail r2.
Proof.
  pose proof (listing_elements (universe majority_store)) as Hcs2.
  split; [split; [exact majority_listing | exact Hcs2]|].
  destruct (schulze_winner [1; 2; 3] majority_store) as [r1|e] eqn:Hr1;
    [|vm_compute in Hr1; discriminate].
  destruct (schulze_winners_do_not_depend_on_the_listing majority_store
              [1; 2; 3] (elements (universe majority_store)) r1
              majority_listing Hcs2 Hr1) as (r2 & Hr2 & _ & Haudit).
  exists r1, r2. split; [reflexivity|]. split; [exact Hr2 | exact Haudit].
Defined.

(** ** Votes and turnout *)

Lemma tally_total_add (tally : gmap Z Z) (k w : Z) :
  tally_total (<[k := default 0 (tally !! k) + w]> tally) = tally_total tally + w.
Proof.
  destruct (tally !! k) as [v|] eqn:Hk; simpl.
  - rewrite <- (insert_delete_eq tally k (v + w)).
    rewrite tally_total_insert_fresh by apply lookup_delete_eq.
    rewrite <- (insert_delete_id tally k v Hk) at 2.
    rewrite tally_total_insert_fresh by apply lookup_delete_eq. lia.
  - rewrite tally_total_insert_fresh by exact Hk. lia.
Qed.

Lemma record_vote_turnout now v c w st :
  vote_inv st -> voter_voted st !! v <> Some true -> w = 1 \/ w = 2 ->
  turnout_inv st -> turnout_inv (record_vote now v c w st).
Proof.
  intros Hinv Hfresh Hw. unfold turnout_inv, turnout. simpl.
  assert (voter_voted st !! v = None) as Hnone.
  { destruct (voter_voted st !! v) as [b|] eqn:E; [|reflexivity].
    exfalso. apply Hfresh. rewrite (vinv_true st Hinv v b E). reflexivity. }
  rewrite tally_total_add, (map_size_insert_None _ _ _ Hnone). lia.
Qed.

Lemma create_voters_votes voters st :
  candidate_votes (create_voters voters st).1 = candidate_votes st /\
  voter_voted (create_voters voters st).1 = voter_voted st.
Proof.
  revert st. induction voters as [|x l IH]; intros st; simpl; [tauto|].
  destruct (decide _); [tauto|].
  match goal with |- context [create_voters l ?s] =>
    destruct (IH s) as [H1 H2] end.
  rewrite H1, H2. tauto.
Qed.

Lemma register_candidates_votes cands st :
  candidate_votes (register_candidates cands st).1 = candidate_votes st /\
  voter_voted (register_candidates cands st).1 = voter_voted st.
Proof.
  revert st. induction cands as [|x l IH]; intros st; simpl; [tauto|].
  destruct (od_mem _ _); [tauto|].
  match goal with |- context [register_candidates l ?s] =>
    destruct (IH s) as [H1 H2] end.
  rewrite H1, H2. tauto.
Qed.

Lemma handle_turnout rq st :
  vote_inv st -> turnout_inv st -> turnout_inv (handle rq st).1.
Proof.
  intros Hinv H. destruct rq as [voters| | |cands|now v c|now wr|b|b|ar]; simpl.
  - unfold turnout_inv, turnout.
    destruct (create_voters_votes voters st) as [-> ->]. exact H.
  - unfold update_voter. destruct (decide _); exact H.
  - unfold delete_voter. destruct (decide _); exact H.
  - unfold turnout_inv, turnout.
    destruct (register_candidates_votes cands st) as [-> ->]. exact H.
  - unfold cast_vote. destruct (check_cast v c st) as [[]|e] eqn:E; [|exact H].
    apply record_vote_turnout;
      [exact Hinv | exact (check_cast_unmarked v c st Hinv E) | tauto | exact H].
  - unfold cast_weighted_vote.
    destruct (check_cast _ _ st) as [[]|e] eqn:E; [|exact H].
    apply record_vote_turnout;
      [exact Hinv | exact (check_cast_unmarked _ _ st Hinv E) | | exact H].
    destruct (wv_profile_updated wr); tauto.
  - unfold submit_encrypted_ballot. repeat (destruct (decide _)); exact H.
  - unfold submit_ranked_ballot. destruct (decide _); exact H.
  - unfold risk_limiting_audit. destruct (decide _); exact H.
Qed.

Lemma run_turnout rqs st :
  vote_inv st -> turnout_inv st -> turnout_inv (run rqs st).
Proof.
  revert st. induction rqs as [|rq rqs IH]; intros st Hinv H; simpl; [exact H|].
  apply IH; [apply handle_vote_inv, Hinv | apply handle_turnout; assumption].
Qed.

(** X19. In every reachable store the votes of all candidates
    together lie between the number of voters marked in [voter_voted] and
    twice that number; every marker in [voter_voted] is [True]; and the
    votes of any one candidate lie between 0 and the total. *)
Theorem votes_lie_between_turnout_and_twice_turnout (st : Store) :
  reachable st ->
  turnout st <= tally_total (candidate_votes st) <= 2 * turnout st /\
  (forall v, default false (voter_voted st !! v) = true <->
             is_Some (voter_voted st !! v)) /\
  (forall c, 0 <= tally st c <= tally_total (candidate_votes st)).
Proof.
  intros Hreach. pose proof (reachable_vote_inv st Hreach) as Hinv.
  split; [|split].
  - destruct Hreach as [rqs ->].
    apply (run_turnout rqs empty_store vote_inv_empty).
    unfold turnout_inv, turnout, tally_total. simpl.
    rewrite map_size_empty, map_to_list_empty. simpl. lia.
  - intros v. destruct (voter_voted st !! v) as [b|] eqn:E; simpl.
    + rewrite (vinv_true st Hinv v b E). split; eauto.
    + split; [discriminate | intros [x Hx]; discriminate].
  - intros c. pose proof (reachable_inv st Hreach) as Hs.
    unfold tally. destruct (candidate_votes st !! c) as [n|] eqn:E; simpl.
    + pose proof (inv_votes_positive st Hs c n E) as Hpos.
      rewrite <- (insert_delete_id (candidate_votes st) c n E).
      rewrite tally_total_insert_fresh by apply lookup_delete_eq.
      assert (0 <= tally_total (delete c (candidate_votes st))) as Hrest.
      { unfold tally_total.
        assert (forall l : list (Z * Z),
                  (forall k x, (k, x) ∈ l -> 0 <= x) ->
                  0 <= foldr Z.add 0 l.*2) as Hsum.
        { induction l as [|[k x] l IH]; intros Hl; [simpl; lia|].
          rewrite fmap_cons. cbn [foldr snd].
          assert (0 <= x) by (apply (Hl k); left).
          assert (0 <= foldr Z.add 0 l.*2)
            by (apply IH; intros k' x' Hx'; apply (Hl k'); right; exact Hx').
          lia. }
        apply Hsum. intros k x Hx. apply elem_of_map_to_list in Hx.
        apply lookup_delete_Some in Hx as [_ Hx].
        pose proof (inv_votes_positive st Hs k x Hx). lia. }
      lia.
    + assert (0 <= turnout st) by (unfold turnout; lia).
      destruct Hreach as [rqs ->].
      pose proof (run_turnout rqs empty_store vote_inv_empty) as Ht.
      unfold turnout_inv in Ht.
      assert (turnout empty_store <= tally_total (candidate_votes empty_store)
              <= 2 * turnout empty_store) as H0.
      { unfold turnout, tally_total. simpl.
        rewrite map_size_empty, map_to_list_empty. simpl. lia. }
      specialize (Ht H0). lia.
Qed.

Lemma votes_lie_between_turnout_and_twice_turnout_witness :
  reachable tie_store /\
  turnout tie_store <= tally_total (candidate_votes tie_store)
    <= 2 * turnout tie_store.
Proof.
  split; [exact tie_store_reachable|].
  exact (proj1 (votes_lie_between_turnout_and_twice_turnout tie_store
                  tie_store_reachable)).
Defined.
